(** * helios-stack: execution interface and workspace manager

    A shallow embedding of [src/claude/cli_interface.py] and
    [src/claude/workspace_manager.py], with the pieces of
    [src/core/config.py] and [src/core/exceptions.py] they use.

    Coroutines are embedded in a state-and-exception monad.  What the
    operating system, the git tool and the other coroutines do while a
    coroutine is suspended is supplied by oracles, over which the
    theorems quantify. *)

From Stdlib Require Import ZArith QArith Lia Ascii String.
From stdpp Require Import base option gmap strings list fin_maps pretty.

Open Scope string_scope.
Open Scope list_scope.
Open Scope Z_scope.

(** ** Python values *)

Module Py.

(** [x or d] for an [Optional[int]]: [None] and [0] are falsy. *)
Definition or_int (x : option Z) (d : Z) : Z :=
  match x with
  | Some v => if v =? 0 then d else v
  | None => d
  end.

(** [sep.join(l)] *)
Definition join (sep : string) (l : list string) : string :=
  String.concat sep l.

(** [s.split(c)] for a one-character separator. *)
Fixpoint split_on (c : Ascii.ascii) (s : string) : list string :=
  match s with
  | EmptyString => [EmptyString]
  | String a s' =>
      if Ascii.eqb a c then EmptyString :: split_on c s'
      else match split_on c s' with
           | x :: r => String a x :: r
           | [] => [String a EmptyString]
           end
  end.

(** [s.endswith(suf)] *)
Definition endswith (s suf : string) : bool :=
  let n := String.length s in
  let k := String.length suf in
  (k <=? n)%nat && String.eqb (String.substring (n - k) k s) suf.

(** [s[:n]] *)
Definition take_str (n : nat) (s : string) : string := String.substring 0 n s.

(** [dict.update]: the entries of [new] win. *)
Definition update (d new : gmap string string) : gmap string string := new ∪ d.

End Py.

(** ** [pathlib.PurePosixPath] *)

Record Path := mkPath { anchored : bool; parts : list string }.

#[global] Instance Path_eq_dec : EqDecision Path.
Proof. solve_decision. Defined.

(** Empty components and [.] are dropped when a string is parsed; [..] is
    kept as an ordinary component (pathlib does not collapse it). *)
Definition parse_parts (s : string) : list string :=
  filter (λ c, c ≠ "" ∧ c ≠ ".") (Py.split_on "/" s).

Definition is_abs_str (s : string) : bool :=
  match s with
  | String "/" _ => true
  | _ => false
  end.

(** [Path(s)] *)
Definition path_of (s : string) : Path :=
  {| anchored := is_abs_str s; parts := parse_parts s |}.

(** [p / s]: an absolute right operand replaces the left one. *)
Definition path_div (p : Path) (s : string) : Path :=
  if is_abs_str s then path_of s
  else {| anchored := anchored p; parts := parts p ++ parse_parts s |}.

Infix "//" := path_div (at level 40, left associativity).

(** A string that [Path] parses as exactly one component. *)
Definition plain_name (s : string) : bool :=
  negb (String.eqb s "") && negb (String.eqb s ".")
  && forallb (λ a, negb (Ascii.eqb a "/")) (list_ascii_of_string s).

(** [p.name] *)
Definition path_name (p : Path) : string := List.last (parts p) "".

(** [str(p)] *)
Definition path_str (p : Path) : string :=
  match anchored p, parts p with
  | false, [] => "."
  | false, ps => Py.join "/" ps
  | true, ps => "/" +:+ Py.join "/" ps
  end.

(** Truth value of an [Optional[Path]]: a [Path] object is always truthy. *)
Definition truthy_path (p : option Path) : bool :=
  match p with
  | Some _ => true
  | None => false
  end.

(** ** [src/core/exceptions.py] and the built-in errors that reach the code *)

Inductive exn :=
| ClaudeTimeoutError (message : string) (timeout_seconds : Z)
| WorkspaceError (message : string)
| AsyncioTimeoutError
| ValueError (message : string)
| OSError (errname : string) (message : string)
| CancelledError.

#[global] Instance exn_eq_dec : EqDecision exn.
Proof. solve_decision. Defined.

(** [isinstance(e, Exception)]: cancellation derives from [BaseException]
    only, so [except Exception] lets it through. *)
Definition is_Exception (e : exn) : bool :=
  match e with
  | CancelledError => false
  | _ => true
  end.

(** [isinstance(e, asyncio.TimeoutError)] *)
Definition is_asyncio_timeout (e : exn) : bool :=
  match e with
  | AsyncioTimeoutError => true
  | _ => false
  end.

(** [str(e)] *)
Definition exn_str (e : exn) : string :=
  match e with
  | ClaudeTimeoutError m _ => m
  | WorkspaceError m => m
  | AsyncioTimeoutError => ""
  | ValueError m => m
  | OSError _ m => m
  | CancelledError => ""
  end.

(** ** [src/core/config.py] *)

Record ClaudeConfig := {
  cli_path : string;
  max_concurrent : Z;
  default_timeout : Z
}.

Record WorkspaceConfig := {
  base_dir : Path;
  use_worktrees : bool;
  cleanup_on_exit : bool;
  worktree_prefix : string
}.

Record ResearchConfig := {
  claude : ClaudeConfig;
  workspace : WorkspaceConfig;
  log_claude_output : bool;
  dry_run : bool;
  agent_dir : Path
}.

(** The numeric range [ResearchConfig.validate] insists on. *)
Definition validate_max_concurrent (c : ResearchConfig) : bool :=
  (0 <? max_concurrent (claude c)) && (max_concurrent (claude c) <=? 10).

(** ** Coroutines as state-and-exception computations *)

Inductive res (A : Type) :=
| Ok (a : A)
| Raise (e : exn).
Arguments Ok {A} a.
Arguments Raise {A} e.

Definition M (S A : Type) : Type := S → res A * S.

#[global] Instance M_ret {S} : MRet (M S) := λ A a s, (Ok a, s).

#[global] Instance M_bind {S} : MBind (M S) := λ A B k m s,
  match m s with
  | (Ok a, s') => k a s'
  | (Raise e, s') => (Raise e, s')
  end.

Definition raise {S A} (e : exn) : M S A := λ s, (Raise e, s).

Definition modify {S} (f : S → S) : M S unit := λ s, (Ok tt, f s).

Definition gets {S A} (f : S → A) : M S A := λ s, (Ok (f s), s).

(** [try: m  except C as e: h e], where [catches] decides [isinstance(e, C)]. *)
Definition try_except {S A} (m : M S A) (catches : exn → bool) (h : exn → M S A) : M S A :=
  λ s, match m s with
       | (Ok a, s') => (Ok a, s')
       | (Raise e, s') => if catches e then h e s' else (Raise e, s')
       end.

(** [try: m  finally: fin].  An error raised by [fin] replaces the outcome of [m]. *)
Definition try_finally {S A} (m : M S A) (fin : M S unit) : M S A :=
  λ s, match m s with
       | (r, s1) =>
           match fin s1 with
           | (Ok _, s2) => (r, s2)
           | (Raise e, s2) => (Raise e, s2)
           end
       end.

(** ** Observable events *)

Inductive level := DEBUG | INFO | WARNING | ERROR.

Inductive event :=
| Log (lvl : level) (msg : string)
| Spawn (cmd : list string) (cwd : option string) (env : gmap string string)
| Kill
| Reap
| Sleep (seconds : Q).

(** ** [src/claude/cli_interface.py] *)

Record ClaudeResult := {
  success : bool;
  output : string;
  error : string;
  exit_code : Z;
  execution_time : Q;
  command : string;
  cr_workspace : option Path
}.

(** [ClaudeResult.combined_output] *)
Definition combined_output (r : ClaudeResult) : string :=
  output r +:+ (if String.eqb (error r) "" then "" else String "010" (error r)).

(** What a spawned process does when left alone: it exits by itself
    [exit_after] seconds after it was started, or never. *)
Record process := {
  exit_after : option Q;
  returncode : Z;
  stdout : list Byte.byte;
  stderr : list Byte.byte
}.

(** The operating system as [execute] sees it. *)
Record os_world := {
  os_environ : gmap string string;
  loop_time : nat → Q;
  spawn_exec : list string → option string → gmap string string → exn + process
}.

Record exec_state := {
  trace : list event;
  clock_reads : nat
}.

Definition exec_init : exec_state := {| trace := []; clock_reads := 0 |}.

Definition Qltb (x y : Q) : bool := negb (Qle_bool y x).

(** Whether the process has exited by itself when a wait of [timeout]
    seconds gives up.  A wait that is not positive gives up at once. *)
Definition exits_before (p : process) (timeout : Z) : bool :=
  match exit_after p with
  | Some d => (0 <? timeout) && Qltb d (inject_Z timeout)
  | None => false
  end.

Section ClaudeInterface.

Variable cfg : ResearchConfig.
(** [bytes.decode('utf-8', errors='replace')] *)
Variable decode : list Byte.byte → string.
Variable os : os_world.

Definition emit (e : event) : M exec_state unit :=
  modify (λ s, {| trace := trace s ++ [e]; clock_reads := clock_reads s |}).

(** [asyncio.get_event_loop().time()] *)
Definition get_time : M exec_state Q :=
  λ s, (Ok (loop_time os (clock_reads s)),
        {| trace := trace s; clock_reads := S (clock_reads s) |}).

(** [ClaudeOutputLogger.log_command] *)
Definition log_command (cmd : list string) (ws : option Path) : M exec_state unit :=
  if log_claude_output cfg then emit (Log DEBUG "Executing Claude command")
  else mret tt.

(** [ClaudeOutputLogger.log_output] *)
Definition log_output (agent_name out : string) (err : option string) : M exec_state unit :=
  if log_claude_output cfg then emit (Log DEBUG "Claude output captured")
  else mret tt.

(** The events [log_command] and [log_output] leave in the trace. *)
Definition command_log : list event :=
  if log_claude_output cfg then [Log DEBUG "Executing Claude command"] else [].

Definition output_log : list event :=
  if log_claude_output cfg then [Log DEBUG "Claude output captured"] else [].

(** [ClaudeInterface._build_command] *)
Definition _build_command (prompt : string) : list string :=
  [cli_path (claude cfg); "-p"; prompt].

(** [asyncio.create_subprocess_exec] *)
Definition create_subprocess_exec (cmd : list string) (cwd : option string)
    (env : gmap string string) : M exec_state process :=
  match spawn_exec os cmd cwd env with
  | inl e => raise e
  | inr p => emit (Spawn cmd cwd env) ;; mret p
  end.

(** [asyncio.wait_for(process.communicate(), timeout)]: the output, when
    the process exits by itself before the timeout elapses; a timeout that
    is not positive expires at once. *)
Definition wait_for_communicate (p : process) (timeout : Z)
    : M exec_state (list Byte.byte * list Byte.byte) :=
  if exits_before p timeout then mret (stdout p, stderr p)
  else raise AsyncioTimeoutError.

(** [timeout or self.config.claude.default_timeout] *)
Definition effective_timeout (timeout : option Z) : Z :=
  Py.or_int timeout (default_timeout (claude cfg)).

(** The environment handed to the child: a copy of [os.environ], updated
    with [env_vars] when that is a non-empty dict. *)
Definition child_env (env_vars : option (gmap string string)) : gmap string string :=
  let env := os_environ os in
  match env_vars with
  | Some vars => if bool_decide (vars = ∅) then env else Py.update env vars
  | None => env
  end.

(** [str(workspace) if workspace else None] *)
Definition child_cwd (ws : option Path) : option string :=
  if truthy_path ws then path_str <$> ws else None.

(** [ClaudeInterface.execute] *)
Definition execute (prompt : string) (ws : option Path) (timeout : option Z)
    (env_vars : option (gmap string string)) : M exec_state ClaudeResult :=
  let cmd := _build_command prompt in
  log_command cmd ws ;;
  let env := child_env env_vars in
  let timeout := effective_timeout timeout in
  start_time ← get_time ;
  try_except
    (if dry_run cfg then
       emit (Sleep (1 # 10)) ;;
       mret {| success := true;
               output := "[DRY RUN] Would execute: " +:+ Py.join " " cmd;
               error := "";
               exit_code := 0;
               execution_time := 1 # 10;
               command := Py.join " " cmd;
               cr_workspace := ws |}
     else
       proc ← create_subprocess_exec cmd (child_cwd ws) env ;
       '(out_bytes, err_bytes) ←
         try_except (wait_for_communicate proc timeout) is_asyncio_timeout
           (λ _, emit Kill ;;
                 emit Reap ;;
                 raise (ClaudeTimeoutError
                          ("Claude execution timed out after " +:+ pretty timeout +:+ "s")
                          timeout)) ;
       let out := decode out_bytes in
       let err := decode err_bytes in
       end_time ← get_time ;
       let result := {| success := returncode proc =? 0;
                        output := out;
                        error := err;
                        exit_code := returncode proc;
                        execution_time := (end_time - start_time)%Q;
                        command := Py.join " " cmd;
                        cr_workspace := ws |} in
       log_output "claude" out (if returncode proc =? 0 then None else Some err) ;;
       mret result)
    is_Exception
    (λ e, emit (Log ERROR ("Claude execution failed: " +:+ exn_str e)) ;; raise e).

End ClaudeInterface.

(** *** [ClaudeInterface.execute_batch]

    The coroutines that [asyncio.gather] drives are interleaved by the event
    loop.  A task is waiting to enter [async with semaphore], or is inside
    [self.execute] holding a permit (with or without a live child process),
    or has finished with a result or an error. *)

Inductive task_state :=
| Pending
| InExecute (proc_alive : bool)
| Finished (r : res ClaudeResult).

Record batch_state := {
  permits : nat;
  slots : list task_state
}.

Inductive batch_outcome :=
| BatchRaises (e : exn)
| BatchReturns (results : list (res ClaudeResult))
| BatchHangs.

(** [asyncio.Semaphore(value)] *)
Definition Semaphore (value : Z) : exn + nat :=
  if value <? 0 then inl (ValueError "Semaphore initial value must be >= 0")
  else inr (Z.to_nat value).

Definition is_spawn (e : event) : bool :=
  match e with
  | Spawn _ _ _ => true
  | _ => false
  end.

Definition task_weight (t : task_state) : nat :=
  match t with
  | Pending => 3
  | InExecute false => 2
  | InExecute true => 1
  | Finished _ => 0
  end.

Definition is_in_execute (t : task_state) : bool :=
  match t with
  | InExecute _ => true
  | _ => false
  end.

Definition has_process (t : task_state) : bool :=
  match t with
  | InExecute true => true
  | _ => false
  end.

Definition is_finished (t : task_state) : bool :=
  match t with
  | Finished _ => true
  | _ => false
  end.

Definition b2n (b : bool) : nat := if b then 1%nat else 0%nat.

Definition count_if (f : task_state → bool) (l : list task_state) : nat :=
  length (filter (λ t, f t = true) l).

(** Calls to [execute] in flight, and live child processes. *)
Definition in_flight (s : batch_state) : nat := count_if is_in_execute (slots s).
Definition processes_alive (s : batch_state) : nat := count_if has_process (slots s).
Definition remaining_work (s : batch_state) : nat := sum_list (task_weight <$> slots s).

Section ExecuteBatch.

Variable cfg : ResearchConfig.
Variable decode : list Byte.byte → string.
(** What the operating system does for the entry at each position. *)
Variable oss : nat → os_world.
Variable prompts : list (string * option Path).

(** [await self.execute(prompt, workspace)] for the entry at position [i]. *)
Definition run_entry (i : nat) (entry : string * option Path) : res ClaudeResult * exec_state :=
  execute cfg decode (oss i) (fst entry) (snd entry) None None exec_init.

Definition entry_result (i : nat) (entry : string * option Path) : res ClaudeResult :=
  fst (run_entry i entry).

Definition entry_spawns (i : nat) (entry : string * option Path) : bool :=
  existsb is_spawn (trace (snd (run_entry i entry))).

(** Leaving [async with semaphore] releases the permit, on a result and
    on an error alike. *)
Definition finish (i : nat) (entry : string * option Path) (s : batch_state) : batch_state :=
  {| permits := S (permits s);
     slots := <[i := Finished (entry_result i entry)]> (slots s) |}.

(** The next step of task [i], when it can take one. *)
Definition advance (i : nat) (s : batch_state) : option batch_state :=
  match slots s !! i, prompts !! i with
  | Some Pending, Some _ =>
      match permits s with
      | S p => Some {| permits := p; slots := <[i := InExecute false]> (slots s) |}
      | O => None
      end
  | Some (InExecute false), Some entry =>
      if entry_spawns i entry
      then Some {| permits := permits s; slots := <[i := InExecute true]> (slots s) |}
      else Some (finish i entry s)
  | Some (InExecute true), Some entry => Some (finish i entry s)
  | _, _ => None
  end.

(** One step of the event loop: some task advances. *)
Definition batch_step (s s' : batch_state) : Prop := ∃ i, advance i s = Some s'.

Inductive reachable (s0 : batch_state) : batch_state → Prop :=
| reach_init : reachable s0 s0
| reach_step s s' : reachable s0 s → batch_step s s' → reachable s0 s'.

(** [asyncio.gather] with [return_exceptions=True]: one slot per task, in
    the order of the arguments, once every task is done. *)
Definition gather (s : batch_state) : option (list (res ClaudeResult)) :=
  mapM (λ t, match t with Finished r => Some r | _ => None end) (slots s).

(** A deterministic event loop: the lowest-numbered task that can advance
    does so, until none can. *)
Fixpoint first_enabled (candidates : list nat) (s : batch_state) : option batch_state :=
  match candidates with
  | [] => None
  | i :: rest =>
      match advance i s with
      | Some s' => Some s'
      | None => first_enabled rest s
      end
  end.

Fixpoint run_loop (fuel : nat) (s : batch_state) : batch_state :=
  match fuel with
  | O => s
  | S fuel' =>
      match first_enabled (seq 0 (length (slots s))) s with
      | Some s' => run_loop fuel' s'
      | None => s
      end
  end.

Definition batch_init (sem : nat) : batch_state :=
  {| permits := sem; slots := (λ _, Pending) <$> prompts |}.

(** The bound the semaphore is built with. *)
Definition effective_bound (max_conc : option Z) : Z :=
  Py.or_int max_conc (max_concurrent (claude cfg)).

(** [ClaudeInterface.execute_batch] *)
Definition execute_batch (max_conc : option Z) : batch_outcome :=
  let max_conc := effective_bound max_conc in
  match Semaphore max_conc with
  | inl e => BatchRaises e
  | inr sem =>
      match gather (run_loop (3 * length prompts) (batch_init sem)) with
      | Some results => BatchReturns results
      | None => BatchHangs
      end
  end.

(** The list [execute_batch] is to return: slot [i] holds what
    [execute] gave for entry [i], a result or the error it raised. *)
Definition expected_results : list (res ClaudeResult) := imap entry_result prompts.

(** What every interleaving preserves, for a semaphore built with [n] permits. *)
Record batch_inv (n : nat) (s : batch_state) : Prop := {
  inv_permits : (permits s + in_flight s = n)%nat;
  inv_length : length (slots s) = length prompts;
  inv_results : ∀ i r, slots s !! i = Some (Finished r) →
                       ∃ entry, prompts !! i = Some entry ∧ r = entry_result i entry
}.


End ExecuteBatch.

(** ** Concrete configurations and environments *)

Module Fixture.

(** The defaults of [src/core/config.py]. *)
Definition cfg0 : ResearchConfig :=
  {| claude := {| cli_path := "claude"; max_concurrent := 3; default_timeout := 300 |};
     workspace := {| base_dir := path_of "/tmp/research_workspaces";
                     use_worktrees := true;
                     cleanup_on_exit := true;
                     worktree_prefix := "research_" |};
     log_claude_output := false;
     dry_run := false;
     agent_dir := path_of "/home/dev/.claude/agents" |}.

Definition decode0 (bs : list Byte.byte) : string := string_of_list_byte bs.


(** A child that never exits by itself. *)
Definition proc_hang : process :=
  {| exit_after := None; returncode := 0; stdout := []; stderr := [] |}.

Definition os_with (p : process) : os_world :=
  {| os_environ := ∅;
     loop_time := λ n, inject_Z (Z.of_nat n);
     spawn_exec := λ _ _ _, inr p |}.

Definition three_prompts : list (string * option Path) :=
  [("Say 'First'", None); ("Say 'Second'", None); ("Say 'Third'", None)].

End Fixture.

(** ** More Python values *)

Module PyStr.

Definition is_space (a : Ascii.ascii) : bool :=
  let n := Ascii.nat_of_ascii a in
  ((9 <=? n)%nat && (n <=? 13)%nat) || (n =? 32)%nat.

Fixpoint lstrip (s : string) : string :=
  match s with
  | String a s' => if is_space a then lstrip s' else s
  | EmptyString => EmptyString
  end.

Fixpoint rstrip (s : string) : string :=
  match s with
  | String a s' =>
      match rstrip s' with
      | EmptyString => if is_space a then EmptyString else String a EmptyString
      | t => String a t
      end
  | EmptyString => EmptyString
  end.

(** [s.strip()] *)
Definition strip (s : string) : string := rstrip (lstrip s).

(** [s or d] for strings: the empty string is falsy. *)
Definition or_str (s d : string) : string :=
  match s with
  | EmptyString => d
  | _ => s
  end.

Definition hex_digit (d : N) : Ascii.ascii :=
  match d with
  | 0%N => "0" | 1%N => "1" | 2%N => "2" | 3%N => "3"
  | 4%N => "4" | 5%N => "5" | 6%N => "6" | 7%N => "7"
  | 8%N => "8" | 9%N => "9" | 10%N => "a" | 11%N => "b"
  | 12%N => "c" | 13%N => "d" | 14%N => "e" | _ => "f"
  end%char.

(** The [k] lowest hexadecimal digits of [u], most significant first. *)
Fixpoint hex_fixed (k : nat) (u : N) (acc : string) : string :=
  match k with
  | O => acc
  | S k' => hex_fixed k' (u / 16)%N (String (hex_digit (u mod 16)%N) acc)
  end.

End PyStr.

(** [uuid.UUID.hex], that is ['%032x' % self.int], for the 128-bit integer
    of a UUID. *)
Definition uuid_hex (u : N) : string := PyStr.hex_fixed 32 u "".

(** ** The filesystem

    A map from resolved, absolute component lists to nodes.  The root is a
    directory that is always there.  Symbolic links and the kernel's
    resolution of [..] are outside the model. *)

Inductive node :=
| File (content : string)
| Dir.

#[global] Instance node_eq_dec : EqDecision node.
Proof. solve_decision. Defined.

Definition node_at (m : gmap (list string) node) (k : list string) : option node :=
  match k with
  | [] => Some Dir
  | _ => m !! k
  end.

Definition fs_exists (m : gmap (list string) node) (k : list string) : bool :=
  match node_at m k with
  | Some _ => true
  | None => false
  end.

Definition fs_is_file (m : gmap (list string) node) (k : list string) : bool :=
  match node_at m k with
  | Some (File _) => true
  | _ => false
  end.

Definition fs_is_dir (m : gmap (list string) node) (k : list string) : bool :=
  match node_at m k with
  | Some Dir => true
  | _ => false
  end.

(** [os.path.dirname] on component lists. *)
Definition parent (k : list string) : list string := removelast k.

Fixpoint strip_prefix (d k : list string) : option (list string) :=
  match d, k with
  | [], _ => Some k
  | a :: d', b :: k' => if decide (a = b) then strip_prefix d' k' else None
  | _ :: _, [] => None
  end.

(** The entries of directory [d]. *)
Definition children (m : gmap (list string) node) (d : list string) : list (string * node) :=
  omap (λ kv, match strip_prefix d kv.1 with
              | Some [name] => Some (name, kv.2)
              | _ => None
              end) (map_to_list m).

(** The names in [d] that match [*.md]; nothing when [d] is not a directory. *)
Definition glob_md (m : gmap (list string) node) (d : list string) : list string :=
  if fs_is_dir m d
  then filter (λ name, Py.endswith name ".md" = true) ((children m d).*1)
  else [].

(** [Path.mkdir(parents=True, exist_ok=True)]: every missing ancestor is
    created; a regular file on the way is an error. *)
Fixpoint mkdir_along (done todo : list string) (m : gmap (list string) node)
    : exn + gmap (list string) node :=
  match todo with
  | [] => inr m
  | c :: rest =>
      let k := done ++ [c] in
      match m !! k with
      | Some Dir => mkdir_along k rest m
      | Some (File _) =>
          inl (OSError (match rest with [] => "FileExistsError" | _ => "NotADirectoryError" end)
                       (Py.join "/" k))
      | None => mkdir_along k rest (<[k := Dir]> m)
      end
  end.

Definition mkdir_parents (m : gmap (list string) node) (k : list string)
    : exn + gmap (list string) node :=
  mkdir_along [] k m.

(** [shutil.copy2(src, dst)]: into [dst] when that is a directory; the
    source must be a regular file other than the destination. *)
Definition copy2 (m : gmap (list string) node) (src dst : list string)
    : exn + gmap (list string) node :=
  let dst := if fs_is_dir m dst then dst ++ [List.last src ""] else dst in
  if fs_exists m src && bool_decide (src = dst)
  then inl (OSError "SameFileError" (Py.join "/" src))
  else match node_at m src with
       | None => inl (OSError "FileNotFoundError" (Py.join "/" src))
       | Some Dir => inl (OSError "IsADirectoryError" (Py.join "/" src))
       | Some (File c) =>
           match node_at m dst with
           | Some Dir => inl (OSError "IsADirectoryError" (Py.join "/" dst))
           | _ =>
               if fs_is_dir m (parent dst) then inr (<[dst := File c]> m)
               else inl (OSError "FileNotFoundError" (Py.join "/" dst))
           end
       end.

(** [shutil.copytree(src, dst)]: the destination must not exist. *)
Definition copytree (m : gmap (list string) node) (src dst : list string)
    : exn + gmap (list string) node :=
  if fs_exists m dst then inl (OSError "FileExistsError" (Py.join "/" dst))
  else inr (list_to_map (omap (λ kv, (λ rest, (dst ++ rest, kv.2)) <$> strip_prefix src kv.1)
                           (map_to_list m)) ∪ m).

(** Everything at or below [p] goes. *)
Definition remove_tree (p : list string) (m : gmap (list string) node)
    : gmap (list string) node :=
  filter (λ kv, ¬ p `prefix_of` kv.1) m.

Section Removal.

(** The entries the operating system refuses to unlink or rmdir. *)
Variable locked : list string → bool.

(** An entry can go when neither it nor anything below it is locked. *)
Definition removable (m : gmap (list string) node) (k : list string) : Prop :=
  map_Forall (λ r _, k `prefix_of` r → locked r = false) m.

#[global] Instance removable_dec m k : Decision (removable m k).
Proof. unfold removable. apply _. Defined.

(** [shutil.rmtree(p, ignore_errors=True)]: what can go goes, what cannot
    stays, and nothing is reported; a regular file is left alone. *)
Definition rmtree_ignore_errors (m : gmap (list string) node) (p : list string)
    : gmap (list string) node :=
  match node_at m p with
  | Some (File _) => m
  | _ => filter (λ kv, ¬ (p `prefix_of` kv.1 ∧ removable m kv.1)) m
  end.

End Removal.

(** ** The workspace manager's world *)

Record world := {
  fs : gmap (list string) node;
  active_workspaces : gmap string Path;
  log : list event;
  awaits : nat
}.

Definition set_fs (m : gmap (list string) node) (w : world) : world :=
  {| fs := m; active_workspaces := active_workspaces w; log := log w; awaits := awaits w |}.

Definition set_registry (r : gmap string Path) (w : world) : world :=
  {| fs := fs w; active_workspaces := r; log := log w; awaits := awaits w |}.

Definition add_log (e : event) (w : world) : world :=
  {| fs := fs w; active_workspaces := active_workspaces w; log := log w ++ [e];
     awaits := awaits w |}.

(** [subprocess.CompletedProcess] *)
Record CompletedProcess := {
  cp_args : list string;
  cp_returncode : Z;
  cp_stdout : string;
  cp_stderr : string
}.

Inductive cmd_response :=
| CmdRaises (e : exn)
| CmdCompleted (rc : Z) (out err : string).

(** What happens while a coroutine is suspended on an external command:
    the command answers, and the command itself and the other coroutines
    may have changed the filesystem and the registry meanwhile. *)
Record suspension := {
  response : cmd_response;
  on_fs : gmap (list string) node → gmap (list string) node;
  on_registry : gmap string Path → gmap string Path
}.

(** How the caller's [async with] block is left without an error. *)
Inductive block_exit (B : Type) :=
| FallThrough
| EarlyReturn (b : B).
Arguments FallThrough {B}.
Arguments EarlyReturn {B} b.

(** ** [src/claude/workspace_manager.py] *)

(** The [workspace_id] that [create_workspace] builds, where [u] is what
    [uuid.uuid4()] returned in this call. *)
Definition uuid_suffix (u : N) : string := Py.take_str 8 (uuid_hex u).

Definition workspace_id_of (cfg : ResearchConfig) (agent_name : string) (u : N) : string :=
  worktree_prefix (workspace cfg) +:+ agent_name +:+ "_" +:+ uuid_suffix u.

Section WorkspaceManager.

Variable cfg : ResearchConfig.
(** The working directory of the process, as resolved components. *)
Variable cwd : list string.
Variable locked : list string → bool.
(** The answer to the command awaited at each suspension. *)
Variable oracle : nat → list string → suspension.

Definition resolve (p : Path) : list string :=
  if anchored p then parts p else cwd ++ parts p.

(** [p / name] for a directory entry [name] handed out by the operating
    system: one component. *)
Definition path_child (p : Path) (name : string) : Path :=
  {| anchored := anchored p; parts := parts p ++ [name] |}.

Definition logger (lvl : level) (msg : string) : M world unit :=
  modify (add_log (Log lvl msg)).

Definition lift_fs (f : gmap (list string) node → exn + gmap (list string) node)
    : M world unit :=
  λ w, match f (fs w) with
       | inl e => (Raise e, w)
       | inr m => (Ok tt, set_fs m w)
       end.

Definition path_exists (p : Path) : M world bool :=
  gets (λ w, fs_exists (fs w) (resolve p)).

Definition path_is_file (p : Path) : M world bool :=
  gets (λ w, fs_is_file (fs w) (resolve p)).

Definition mkdir (p : Path) : M world unit :=
  lift_fs (λ m, mkdir_parents m (resolve p)).

Definition shutil_copy2 (src dst : Path) : M world unit :=
  lift_fs (λ m, copy2 m (resolve src) (resolve dst)).

Definition shutil_copytree (src dst : Path) : M world unit :=
  lift_fs (λ m, copytree m (resolve src) (resolve dst)).

Definition shutil_rmtree (p : Path) : M world unit :=
  modify (λ w, set_fs (rmtree_ignore_errors locked (fs w) (resolve p)) w).

(** [p.glob("*.md")] *)
Definition glob_md_paths (p : Path) : M world (list Path) :=
  gets (λ w, path_child p <$> glob_md (fs w) (resolve p)).

(** [for x in l: body x] *)
Fixpoint for_each {A} (l : list A) (body : A → M world unit) : M world unit :=
  match l with
  | [] => mret tt
  | x :: rest => body x ;; for_each rest body
  end.

(** [WorkspaceManager._run_command] *)
Definition _run_command (cmd : list string) : M world CompletedProcess :=
  λ w,
    let sus := oracle (awaits w) cmd in
    let w' := {| fs := on_fs sus (fs w);
                 active_workspaces := on_registry sus (active_workspaces w);
                 log := log w;
                 awaits := S (awaits w) |} in
    match response sus with
    | CmdRaises e => (Raise e, w')
    | CmdCompleted rc out err =>
        (Ok {| cp_args := cmd; cp_returncode := rc; cp_stdout := out; cp_stderr := err |}, w')
    end.

(** [WorkspaceManager._is_git_repo] *)
Definition _is_git_repo : M world bool :=
  try_except
    (result ← _run_command ["git"; "rev-parse"; "--git-dir"] ;
     mret (cp_returncode result =? 0))
    is_Exception
    (λ _, mret false).

(** [WorkspaceManager._create_git_worktree] *)
Definition _create_git_worktree (workspace_id : string) : M world Path :=
  result ← _run_command ["git"; "branch"; "--show-current"] ;
  result ← (if negb (cp_returncode result =? 0)
            then _run_command ["git"; "rev-parse"; "--abbrev-ref"; "HEAD"]
            else mret result) ;
  let branch := PyStr.or_str (PyStr.strip (cp_stdout result)) "main" in
  let worktree_path := base_dir (workspace cfg) // workspace_id in
  let worktree_branch := "research/" +:+ workspace_id in
  let cmd := ["git"; "worktree"; "add"; "-b"; worktree_branch;
              path_str worktree_path; branch] in
  result ← _run_command cmd ;
  if negb (cp_returncode result =? 0)
  then raise (WorkspaceError ("Failed to create git worktree: " +:+ cp_stderr result))
  else mret worktree_path.

(** [WorkspaceManager._create_temp_workspace] *)
Definition _create_temp_workspace (workspace_id : string) : M world Path :=
  let workspace_path := base_dir (workspace cfg) // workspace_id in
  mkdir workspace_path ;;
  in_repo ← _is_git_repo ;
  (if (in_repo : bool)
   then for_each [".gitignore"; "README.md"; "pyproject.toml"]
          (λ pattern : string,
             let src := path_of pattern in
             present ← path_exists src ;
             if (present : bool)
             then let dst := workspace_path // pattern in
                  regular ← path_is_file src ;
                  if (regular : bool) then shutil_copy2 src dst else shutil_copytree src dst
             else mret tt)
   else mret tt) ;;
  mret workspace_path.

(** [WorkspaceManager._setup_agent_definitions] *)
Definition _setup_agent_definitions (workspace_path : Path) : M world unit :=
  let agents_dir := workspace_path // ".claude" // "agents" in
  mkdir agents_dir ;;
  let user_agents := agent_dir cfg in
  user_present ← path_exists user_agents ;
  (if (user_present : bool)
   then agent_files ← glob_md_paths user_agents ;
        for_each agent_files
          (λ agent_file : Path,
             shutil_copy2 agent_file (path_child agents_dir (path_name agent_file)))
   else mret tt) ;;
  let project_agents := path_of ".claude/agents" in
  project_present ← path_exists project_agents ;
  if (project_present : bool) && bool_decide (project_agents ≠ user_agents)
  then agent_files ← glob_md_paths project_agents ;
       for_each agent_files
         (λ agent_file : Path,
            shutil_copy2 agent_file (path_child agents_dir (path_name agent_file)))
  else mret tt.

(** [WorkspaceManager.create_workspace], where [u] is the value that
    [uuid.uuid4()] returns in this call. *)
Definition create_workspace (agent_name : string) (use_worktree : option bool) (u : N)
    : M world Path :=
  let workspace_id := workspace_id_of cfg agent_name u in
  let use_worktree := match use_worktree with
                      | Some b => b
                      | None => use_worktrees (workspace cfg)
                      end in
  versioned ← (if use_worktree then _is_git_repo else mret false) ;
  workspace_path ← (if (versioned : bool) then _create_git_worktree workspace_id
                    else _create_temp_workspace workspace_id) ;
  _setup_agent_definitions workspace_path ;;
  modify (λ w, set_registry (<[workspace_id := workspace_path]> (active_workspaces w)) w) ;;
  logger INFO "Created workspace" ;;
  mret workspace_path.

(** [WorkspaceManager._is_git_worktree] *)
Definition _is_git_worktree (p : Path) : M world bool :=
  let git_file := p // ".git" in
  present ← path_exists git_file ;
  regular ← path_is_file git_file ;
  if (present : bool) && (regular : bool) then mret true else mret false.

(** The two commands [_remove_git_worktree] runs. *)
Definition git_worktree_remove (worktree_path : Path) : list string :=
  ["git"; "worktree"; "remove"; "--force"; path_str worktree_path].

Definition git_branch_delete (worktree_path : Path) : list string :=
  ["git"; "branch"; "-D"; "research/" +:+ path_name worktree_path].

(** [WorkspaceManager._remove_git_worktree] *)
Definition _remove_git_worktree (worktree_path : Path) : M world unit :=
  result ← _run_command (git_worktree_remove worktree_path) ;
  (if negb (cp_returncode result =? 0)
   then logger WARNING ("Failed to remove worktree: " +:+ cp_stderr result) ;;
        shutil_rmtree worktree_path
   else mret tt) ;;
  _run_command (git_branch_delete worktree_path) ;;
  mret tt.

(** [WorkspaceManager.cleanup_workspace] *)
Definition cleanup_workspace (workspace_path : Path) : M world unit :=
  let workspace_id := path_name workspace_path in
  if negb (cleanup_on_exit (workspace cfg))
  then logger INFO ("Skipping cleanup for workspace: " +:+ workspace_id)
  else
    try_except
      (is_worktree ← _is_git_worktree workspace_path ;
       (if (is_worktree : bool) then _remove_git_worktree workspace_path
        else shutil_rmtree workspace_path) ;;
       modify (λ w, set_registry (delete workspace_id (active_workspaces w)) w) ;;
       logger INFO ("Cleaned up workspace: " +:+ workspace_id))
      is_Exception
      (λ e, logger ERROR ("Failed to cleanup workspace " +:+ workspace_id +:+ ": " +:+ exn_str e)).

(** [WorkspaceManager.isolated_workspace], an [asynccontextmanager]; the
    caller's block runs where the generator yields. *)
Definition isolated_workspace {B} (agent_name : string) (u : N)
    (block : Path → M world (block_exit B)) : M world (block_exit B) :=
  λ w0,
    let '(created, w1) := create_workspace agent_name None u w0 in
    let ws : option Path := match created with
                            | Ok p => Some p
                            | Raise _ => None
                            end in
    try_finally
      (match created with
       | Ok p => block p
       | Raise e => raise e
       end)
      (match ws with
       | Some p => if truthy_path ws then cleanup_workspace p else mret tt
       | None => mret tt
       end)
      w1.


End WorkspaceManager.


(** ** Concrete worlds *)

Module FixtureWs.

Definition cwd0 : list string := ["repo"].

Definition ws_id : string := "research_test-agent_00000000".

(** [base_dir / workspace_id] for the default configuration. *)
Definition ws_path : Path := base_dir (workspace Fixture.cfg0) // ws_id.

Definition ws_key : list string := ["tmp"; "research_workspaces"; ws_id].

Definition host_files : list (list string * node) :=
  [ (["home"], Dir); (["home"; "dev"], Dir); (["home"; "dev"; ".claude"], Dir);
    (["home"; "dev"; ".claude"; "agents"], Dir);
    (["home"; "dev"; ".claude"; "agents"; "foo.md"], File "user foo");
    (["home"; "dev"; ".claude"; "agents"; "bar.md"], File "user bar");
    (["repo"], Dir); (["repo"; ".claude"], Dir); (["repo"; ".claude"; "agents"], Dir);
    (["repo"; ".claude"; "agents"; "foo.md"], File "project foo");
    (["tmp"], Dir); (["tmp"; "research_workspaces"], Dir) ].

Definition ws_files : list (list string * node) :=
  [ (ws_key, Dir); (ws_key ++ [".claude"], Dir); (ws_key ++ [".claude"; "agents"], Dir);
    (ws_key ++ ["out.txt"], File "notes") ].

(** Before any workspace exists. *)
Definition w_empty : world :=
  {| fs := list_to_map host_files; active_workspaces := ∅; log := []; awaits := 0 |}.

(** A registered plain-directory workspace. *)
Definition w_temp : world :=
  {| fs := list_to_map (host_files ++ ws_files);
     active_workspaces := {[ ws_id := ws_path ]};
     log := [];
     awaits := 0 |}.

(** A registered working-tree workspace: [.git] is a regular file. *)
Definition w_worktree : world :=
  {| fs := list_to_map (host_files ++ ws_files
                          ++ [(ws_key ++ [".git"], File "gitdir: /repo/.git")]);
     active_workspaces := {[ ws_id := ws_path ]};
     log := [];
     awaits := 0 |}.

Definition nothing_locked (k : list string) : bool := false.

(** The file [out.txt] of the workspace cannot be unlinked. *)
Definition out_locked (k : list string) : bool := bool_decide (k = ws_key ++ ["out.txt"]).

(** Every command completes with status [rc] and changes nothing. *)
Definition git_status (rc : Z) (n : nat) (cmd : list string) : suspension :=
  {| response := CmdCompleted rc "" ""; on_fs := id; on_registry := id |}.

(** Every command succeeds, and removing the working tree removes it. *)
Definition git_ok (n : nat) (cmd : list string) : suspension :=
  {| response := CmdCompleted 0 "" "";
     on_fs := if bool_decide (cmd = git_worktree_remove ws_path) && (0 =? 0)
              then remove_tree (resolve cwd0 ws_path)
              else id;
     on_registry := id |}.

(** No child process can be created: the process is out of file
    descriptors. *)
Definition git_unlaunchable (n : nat) (cmd : list string) : suspension :=
  {| response := CmdRaises (OSError "OSError" "[Errno 24] Too many open files");
     on_fs := id;
     on_registry := id |}.

End FixtureWs.

(** ** The rest of [src/claude/cli_interface.py] *)


(** The command lines of the children a trace shows being spawned. *)
Definition spawned (tr : list event) : list (list string) :=
  omap (λ e, match e with Spawn cmd _ _ => Some cmd | _ => None end) tr.

Definition is_kill (e : event) : bool :=
  match e with
  | Kill => true
  | _ => false
  end.

Definition is_reap (e : event) : bool :=
  match e with
  | Reap => true
  | _ => false
  end.

(** A trace in which every [Kill] is immediately followed by a [Reap]. *)
Fixpoint kills_reaped (tr : list event) : bool :=
  match tr with
  | [] => true
  | Kill :: rest =>
      match rest with
      | Reap :: _ => kills_reaped rest
      | _ => false
      end
  | _ :: rest => kills_reaped rest
  end.

(** What [subprocess.run([cli_path, "--version"], capture_output=True,
    text=True, timeout=5)] does. *)
Inductive probe_outcome :=
| ProbeCompleted (rc : Z) (out err : string)
| ProbeFileNotFound
| ProbeTimeoutExpired
| ProbeRaises (e : exn).

(** How constructing a [ClaudeInterface] can fail. *)
Inductive init_error :=
| ClaudeNotFoundError (message : string)
| Uncaught (e : exn).

Section ClaudeInterfaceRest.

Variable cfg : ResearchConfig.
Variable decode : list Byte.byte → string.
Variable os : os_world.
(** [str.lower] *)
Variable lower : string → string.
Variable run_probe : list string → probe_outcome.

(** [ClaudeInterface._verify_claude_available]; the events are what it logs. *)
Definition _verify_claude_available : init_error + list event :=
  if dry_run cfg
  then inr [Log INFO "Dry run mode - skipping Claude CLI verification"]
  else
    match run_probe [cli_path (claude cfg); "--version"] with
    | ProbeCompleted rc out err =>
        if negb (rc =? 0)
        then inl (ClaudeNotFoundError ("Claude CLI failed version check: " +:+ err))
        else inr [Log INFO ("Claude CLI verified: " +:+ PyStr.strip out)]
    | ProbeFileNotFound =>
        inl (ClaudeNotFoundError ("Claude CLI not found at: " +:+ cli_path (claude cfg)))
    | ProbeTimeoutExpired =>
        inl (ClaudeNotFoundError "Claude CLI version check timed out")
    | ProbeRaises e => inl (Uncaught e)
    end.



(** [ClaudeSubAgentInterface.execute_with_agent]; the second component is
    the [agent_name] attached to the result. *)
Definition execute_with_agent (agent_name query : string) (ws : option Path)
    (timeout : option Z) : M exec_state (ClaudeResult * string) :=
  let prompt := "Use " +:+ agent_name +:+ " to " +:+ query in
  emit (Log INFO "Invoking sub-agent") ;;
  result ← execute cfg decode os prompt ws timeout None ;
  mret (result, agent_name).

End ClaudeInterfaceRest.

(** ** More concrete configurations *)

Module FixtureRest.

(** The default configuration with [DRY_RUN=true]. *)
Definition cfg_dry : ResearchConfig :=
  {| claude := claude Fixture.cfg0;
     workspace := workspace Fixture.cfg0;
     log_claude_output := false;
     dry_run := true;
     agent_dir := agent_dir Fixture.cfg0 |}.

(** A child that answers the connection test and exits with status 0. *)
Definition proc_ok : process :=
  {| exit_after := Some (1 # 1); returncode := 0;
     stdout := list_byte_of_string "Connection test successful"; stderr := [] |}.

(** No child can be created: the executable is missing. *)
Definition os_no_cli : os_world :=
  {| os_environ := ∅;
     loop_time := λ n, inject_Z (Z.of_nat n);
     spawn_exec := λ _ _ _, inl (OSError "FileNotFoundError" "claude") |}.


End FixtureRest.

(** ** The rest of [src/claude/workspace_manager.py] *)

(** A [cleanup_workspace] coroutine that [cleanup_all] has handed to
    [asyncio.gather]: not started, suspended in one of its two git
    commands, or done. *)
Inductive cleanup_task :=
| CtStart (p : Path)
| CtAwaitRemove (p : Path)
| CtAwaitBranch (p : Path)
| CtDone (r : res unit).

Record gather_state := {
  ca_world : world;
  ca_tasks : list cleanup_task
}.

Definition ct_weight (t : cleanup_task) : nat :=
  match t with
  | CtStart _ => 3
  | CtAwaitRemove _ => 2
  | CtAwaitBranch _ => 1
  | CtDone _ => 0
  end.

Definition ct_is_done (t : cleanup_task) : bool :=
  match t with
  | CtDone _ => true
  | _ => false
  end.


(** The module-level [_workspace_manager]: whether it holds a manager,
    and the world that manager lives in. *)
Record manager_module := {
  _workspace_manager : bool;
  mm_world : world
}.

Section WorkspaceManagerRest.

Variable cfg : ResearchConfig.
Variable cwd : list string.
Variable locked : list string → bool.
Variable oracle : nat → list string → suspension.

(** [WorkspaceManager._ensure_base_dir] *)
Definition _ensure_base_dir : M world unit :=
  mkdir cwd (base_dir (workspace cfg)).

(** [WorkspaceManager.__init__]: the new manager has a registry of its
    own, empty at first. *)
Definition WorkspaceManager_init : M world unit :=
  modify (set_registry ∅) ;;
  _ensure_base_dir.

(** [get_workspace_manager] *)
Definition get_workspace_manager : M manager_module unit :=
  λ st,
    if _workspace_manager st then (Ok tt, st)
    else match WorkspaceManager_init (mm_world st) with
         | (Ok _, w) => (Ok tt, {| _workspace_manager := true; mm_world := w |})
         | (Raise e, w) => (Raise e, {| _workspace_manager := false; mm_world := w |})
         end.

(** [ClaudeSubAgentInterface.verify_agent_exists] of
    [src/claude/cli_interface.py]. *)
Definition verify_agent_exists (agent_name : string) : M world bool :=
  let agent_file := agent_dir cfg // (agent_name +:+ ".md") in
  present ← path_exists cwd agent_file ;
  (if negb (present : bool) then logger WARNING "Agent not found" else mret tt) ;;
  mret present.


(** *** [WorkspaceManager.cleanup_all]

    The coroutines run between their suspension points; the event loop
    decides which one goes next.  What a git command did to the files
    shows when the coroutine that awaits it is resumed. *)

(** The [except Exception] clause of [cleanup_workspace]. *)
Definition ct_guard (p : Path) (segment : M world cleanup_task) : M world cleanup_task :=
  try_except segment is_Exception
    (λ e, logger ERROR ("Failed to cleanup workspace " +:+ path_name p
                          +:+ ": " +:+ exn_str e) ;;
          mret (CtDone (Ok tt))).

(** The end of the [try] block of [cleanup_workspace]. *)
Definition ct_unregister (p : Path) : M world cleanup_task :=
  modify (λ w, set_registry (delete (path_name p) (active_workspaces w)) w) ;;
  logger INFO ("Cleaned up workspace: " +:+ path_name p) ;;
  mret (CtDone (Ok tt)).

(** What a coroutine does from where it stands up to its next
    suspension point; the result is where it stands then. *)
Definition ct_segment (t : cleanup_task) : option (M world cleanup_task) :=
  match t with
  | CtStart p =>
      Some (if negb (cleanup_on_exit (workspace cfg))
            then logger INFO ("Skipping cleanup for workspace: " +:+ path_name p) ;;
                 mret (CtDone (Ok tt))
            else ct_guard p
                   (is_worktree ← _is_git_worktree cwd p ;
                    if (is_worktree : bool) then mret (CtAwaitRemove p)
                    else shutil_rmtree cwd locked p ;; ct_unregister p))
  | CtAwaitRemove p =>
      Some (ct_guard p
              (result ← _run_command oracle (git_worktree_remove p) ;
               (if negb (cp_returncode result =? 0)
                then logger WARNING ("Failed to remove worktree: " +:+ cp_stderr result) ;;
                     shutil_rmtree cwd locked p
                else mret tt) ;;
               mret (CtAwaitBranch p)))
  | CtAwaitBranch p =>
      Some (ct_guard p
              (_run_command oracle (git_branch_delete p) ;;
               ct_unregister p))
  | CtDone _ => None
  end.

(** The coroutine at position [i] runs up to its next suspension point.
    An error that [except Exception] lets through ends the coroutine. *)
Definition ca_advance (i : nat) (st : gather_state) : option gather_state :=
  t ← ca_tasks st !! i ;
  segment ← ct_segment t ;
  Some (match segment (ca_world st) with
        | (Ok t', w) => {| ca_world := w; ca_tasks := <[i := t']> (ca_tasks st) |}
        | (Raise e, w) =>
            {| ca_world := w; ca_tasks := <[i := CtDone (Raise e)]> (ca_tasks st) |}
        end).

Definition ca_step (st st' : gather_state) : Prop := ∃ i, ca_advance i st = Some st'.

Inductive ca_reachable (st0 : gather_state) : gather_state → Prop :=
| ca_reach_init : ca_reachable st0 st0
| ca_reach_step st st' : ca_reachable st0 st → ca_step st st' → ca_reachable st0 st'.

(** [asyncio.gather] with [return_exceptions=True] is over once every
    coroutine is done. *)
Definition ca_gathered (st : gather_state) : bool := forallb ct_is_done (ca_tasks st).

Definition ca_remaining (st : gather_state) : nat := sum_list (ct_weight <$> ca_tasks st).

(** The state in which [cleanup_all] reaches its [gather]: one coroutine
    per registered path. *)
Definition cleanup_all_start (w : world) : gather_state :=
  {| ca_world :=
       add_log (Log INFO ("Cleaning up " +:+ pretty (size (active_workspaces w))
                            +:+ " workspaces")) w;
     ca_tasks := CtStart <$> (map_to_list (active_workspaces w)).*2 |}.

(** What follows the [gather] in [cleanup_all]. *)
Definition cleanup_all_prune : M world unit :=
  if use_worktrees (workspace cfg)
  then _run_command oracle ["git"; "worktree"; "prune"] ;; mret tt
  else mret tt.

(** [cleanup_all] started in [w] can end with [out]: some interleaving of
    the coroutines takes the [gather] to its end, and the pruning follows. *)
Definition cleanup_all (w : world) (out : res unit * world) : Prop :=
  ∃ st, ca_reachable (cleanup_all_start w) st
        ∧ ca_gathered st = true
        ∧ out = cleanup_all_prune (ca_world st).

(** An event loop that always resumes the first coroutine that is not
    done. *)
Fixpoint ca_first (candidates : list nat) (st : gather_state) : option gather_state :=
  match candidates with
  | [] => None
  | i :: rest =>
      match ca_advance i st with
      | Some st' => Some st'
      | None => ca_first rest st
      end
  end.

Fixpoint ca_run (fuel : nat) (st : gather_state) : gather_state :=
  match fuel with
  | O => st
  | S fuel' =>
      match ca_first (seq 0 (length (ca_tasks st))) st with
      | Some st' => ca_run fuel' st'
      | None => st
      end
  end.

Definition cleanup_all_in_order (w : world) : res unit * world :=
  let start := cleanup_all_start w in
  cleanup_all_prune (ca_world (ca_run (3 * length (ca_tasks start)) start)).

End WorkspaceManagerRest.

(** ** [src/core/config.py]: the global configuration *)

(** A [ResearchConfig] with the further fields that
    [ResearchConfig.validate] reads. *)
Record FullConfig := {
  research : ResearchConfig;
  warning_threshold : Q;
  cache_dir : Path;
  log_dir : Path
}.

(** The module-level [_config] and the filesystem. *)
Record config_module := {
  _config : option FullConfig;
  cm_fs : gmap (list string) node
}.

Definition set_global (c : option FullConfig) (st : config_module) : config_module :=
  {| _config := c; cm_fs := cm_fs st |}.

Section ConfigModule.

Variable cwd : list string.
(** Whether [shutil.which] finds the executable. *)
Variable which : string → bool.
(** [str] of a float *)
Variable float_str : Q → string.
(** What [ResearchConfig()] builds from the environment variables, or
    the error of a variable that does not parse. *)
Variable from_env : exn + FullConfig.

Definition cm_mkdir (p : Path) : M config_module unit :=
  λ st, match mkdir_parents (cm_fs st) (resolve cwd p) with
        | inl e => (Raise e, st)
        | inr m => (Ok tt, {| _config := _config st; cm_fs := m |})
        end.

(** [0 < self.tokens.warning_threshold <= 1] *)
Definition validate_warning_threshold (c : FullConfig) : bool :=
  Qltb 0 (warning_threshold c) && Qle_bool (warning_threshold c) 1.

(** [ResearchConfig.validate] *)
Definition validate (c : FullConfig) : M config_module unit :=
  (if negb (dry_run (research c))
   then if negb (which (cli_path (claude (research c))))
        then raise (ValueError ("Claude CLI not found at: "
                                  +:+ cli_path (claude (research c))))
        else mret tt
   else mret tt) ;;
  cm_mkdir (base_dir (workspace (research c))) ;;
  cm_mkdir (cache_dir c) ;;
  cm_mkdir (log_dir c) ;;
  (if negb (validate_max_concurrent (research c))
   then raise (ValueError ("Invalid max_concurrent: "
                             +:+ pretty (max_concurrent (claude (research c)))))
   else mret tt) ;;
  (if negb (validate_warning_threshold c)
   then raise (ValueError ("Invalid warning_threshold: "
                             +:+ float_str (warning_threshold c)))
   else mret tt).

(** [get_config] *)
Definition get_config : M config_module FullConfig :=
  λ st,
    match _config st with
    | Some c => (Ok c, st)
    | None =>
        match from_env with
        | inl e => (Raise e, st)
        | inr c => (validate c ;; mret c) (set_global (Some c) st)
        end
    end.

(** [set_config] *)
Definition set_config (c : FullConfig) : M config_module unit :=
  validate c ;;
  modify (set_global (Some c)).

(** [reset_config] *)
Definition reset_config : M config_module unit :=
  modify (set_global None).

End ConfigModule.

(** ** Frame conditions *)

(** Whatever the computation returns or raises, the world it leaves is
    related by [R] to the world it started in. *)
Definition preserves {A} (R : world → world → Prop) (m : M world A) : Prop :=
  ∀ w, R w (snd (m w)).

Definition same_registry (w w' : world) : Prop :=
  active_workspaces w' = active_workspaces w.

(** Outside [p] nothing is changed or removed; what is new there is a
    directory on the way down to [p]. *)
Definition fs_outside_kept (p : list string) (m m' : gmap (list string) node) : Prop :=
  ∀ k, ¬ p `prefix_of` k →
       m' !! k = m !! k ∨ (m !! k = None ∧ m' !! k = Some Dir ∧ k `prefix_of` p).

Definition outside_kept (p : list string) (w w' : world) : Prop :=
  fs_outside_kept p (fs w) (fs w').

(** Nothing is created or changed, and nothing outside [p] is removed. *)
Definition fs_shrinks_under (p : list string) (m m' : gmap (list string) node) : Prop :=
  m' ⊆ m ∧ ∀ k, ¬ p `prefix_of` k → m' !! k = m !! k.

Definition shrinks_under (p : list string) (w w' : world) : Prop :=
  fs_shrinks_under p (fs w) (fs w').

(** Files shrink under the path, and no record but the one under the
    final component of the path changes. *)
Definition cleanup_frame_of (cwd : list string) (path : Path) (w w' : world) : Prop :=
  fs_shrinks_under (resolve cwd path) (fs w) (fs w')
  ∧ ∀ id, id ≠ path_name path → active_workspaces w' !! id = active_workspaces w !! id.

(** ** More concrete worlds *)

Module FixtureMore.

(** A second registered plain-directory workspace next to the working
    tree of [FixtureWs.w_worktree]. *)
Definition ws2_id : string := "research_other_11111111".

Definition ws2_path : Path := base_dir (workspace Fixture.cfg0) // ws2_id.

Definition ws2_key : list string := ["tmp"; "research_workspaces"; ws2_id].

Definition w_two : world :=
  {| fs := list_to_map (FixtureWs.host_files ++ FixtureWs.ws_files
                          ++ [(FixtureWs.ws_key ++ [".git"], File "gitdir: /repo/.git");
                              (ws2_key, Dir); (ws2_key ++ ["notes.md"], File "n")]);
     active_workspaces := {[ FixtureWs.ws_id := FixtureWs.ws_path; ws2_id := ws2_path ]};
     log := [];
     awaits := 0 |}.

(** The user-level agent directory holds a directory whose name ends in
    [.md]. *)
Definition w_dir_md : world :=
  {| fs := list_to_map (FixtureWs.host_files
                          ++ [(["home"; "dev"; ".claude"; "agents"; "drafts.md"], Dir)]);
     active_workspaces := ∅;
     log := [];
     awaits := 0 |}.

(** The default configuration with [CLEANUP_WORKSPACES=false]. *)
Definition cfg_keep : ResearchConfig :=
  {| claude := claude Fixture.cfg0;
     workspace := {| base_dir := base_dir (workspace Fixture.cfg0);
                     use_worktrees := true;
                     cleanup_on_exit := false;
                     worktree_prefix := "research_" |};
     log_claude_output := false;
     dry_run := false;
     agent_dir := agent_dir Fixture.cfg0 |}.

(** The default configuration with [USE_GIT_WORKTREES=false]. *)
Definition cfg_plain : ResearchConfig :=
  {| claude := claude Fixture.cfg0;
     workspace := {| base_dir := base_dir (workspace Fixture.cfg0);
                     use_worktrees := false;
                     cleanup_on_exit := true;
                     worktree_prefix := "research_" |};
     log_claude_output := false;
     dry_run := false;
     agent_dir := agent_dir Fixture.cfg0 |}.

(** The environment sets [CLAUDE_MAX_CONCURRENT=0] and [DRY_RUN=true]. *)
Definition full_zero : FullConfig :=
  {| research := {| claude := {| cli_path := "claude"; max_concurrent := 0;
                                 default_timeout := 300 |};
                    workspace := workspace Fixture.cfg0;
                    log_claude_output := false;
                    dry_run := true;
                    agent_dir := agent_dir Fixture.cfg0 |};
     warning_threshold := 8 # 10;
     cache_dir := path_of "/home/dev/.cache/headless_research";
     log_dir := path_of "./logs" |}.

(** The defaults, with [DRY_RUN=true]. *)
Definition full0 : FullConfig :=
  {| research := FixtureRest.cfg_dry;
     warning_threshold := 8 # 10;
     cache_dir := path_of "/home/dev/.cache/headless_research";
     log_dir := path_of "./logs" |}.

Definition cm_empty : config_module :=
  {| _config := None; cm_fs := list_to_map FixtureWs.host_files |}.

Definition float_str0 (q : Q) : string :=
  pretty (Qnum q) +:+ "/" +:+ pretty (Zpos (Qden q)).

End FixtureMore.

(** * The execution interface *)

Section ExecuteFacts.

Variable cfg : ResearchConfig.
Variable decode : list Byte.byte → string.
Variable os : os_world.

Lemma log_command_run cmd ws s :
  log_command cfg cmd ws s
  = (Ok tt, {| trace := trace s ++ command_log cfg; clock_reads := clock_reads s |}).
Proof.
  unfold log_command, command_log.
  destruct (log_claude_output cfg); cbn.
  - reflexivity.
  - rewrite app_nil_r. by destruct s.
Qed.

Lemma log_output_run a o e s :
  log_output cfg a o e s
  = (Ok tt, {| trace := trace s ++ output_log cfg; clock_reads := clock_reads s |}).
Proof.
  unfold log_output, output_log.
  destruct (log_claude_output cfg); cbn.
  - reflexivity.
  - rewrite app_nil_r. by destruct s.
Qed.

(** The run of [execute] when a child was spawned and it exits in time. *)
Lemma execute_exits prompt ws timeout env_vars s p :
  dry_run cfg = false →
  spawn_exec os (_build_command cfg prompt) (child_cwd ws) (child_env os env_vars) = inr p →
  exits_before p (effective_timeout cfg timeout) = true →
  execute cfg decode os prompt ws timeout env_vars s
  = (Ok {| success := returncode p =? 0;
           output := decode (stdout p);
           error := decode (stderr p);
           exit_code := returncode p;
           execution_time := (loop_time os (S (clock_reads s)) - loop_time os (clock_reads s))%Q;
           command := Py.join " " (_build_command cfg prompt);
           cr_workspace := ws |},
     {| trace := trace s ++ command_log cfg
                   ++ [Spawn (_build_command cfg prompt) (child_cwd ws) (child_env os env_vars)]
                   ++ output_log cfg;
        clock_reads := S (S (clock_reads s)) |}).
Proof.
  intros Hdry Hspawn Hexit.
  unfold execute, mbind, M_bind.
  rewrite log_command_run. cbn [get_time trace clock_reads].
  unfold try_except at 1. rewrite Hdry.
  unfold create_subprocess_exec. rewrite Hspawn.
  unfold mbind, M_bind, mret, M_ret, emit, modify, try_except, wait_for_communicate.
  rewrite Hexit.
  cbv [mbind M_bind mret M_ret get_time trace clock_reads].
  rewrite log_output_run. cbn [trace clock_reads].
  by rewrite <- !app_assoc.
Qed.

(** The run of [execute] when a child was spawned and the wait gives up. *)
Lemma execute_times_out prompt ws timeout env_vars s p :
  dry_run cfg = false →
  spawn_exec os (_build_command cfg prompt) (child_cwd ws) (child_env os env_vars) = inr p →
  exits_before p (effective_timeout cfg timeout) = false →
  let t := effective_timeout cfg timeout in
  let msg := "Claude execution timed out after " +:+ pretty t +:+ "s" in
  execute cfg decode os prompt ws timeout env_vars s
  = (Raise (ClaudeTimeoutError msg t),
     {| trace := trace s ++ command_log cfg
                   ++ [Spawn (_build_command cfg prompt) (child_cwd ws) (child_env os env_vars);
                       Kill; Reap;
                       Log ERROR ("Claude execution failed: " +:+ msg)];
        clock_reads := S (clock_reads s) |}).
Proof.
  intros Hdry Hspawn Hexit t msg.
  unfold execute, mbind, M_bind.
  rewrite log_command_run. cbn [get_time trace clock_reads].
  unfold try_except at 1. rewrite Hdry.
  unfold create_subprocess_exec. rewrite Hspawn.
  unfold mbind, M_bind, mret, M_ret, emit, modify, try_except, wait_for_communicate.
  rewrite Hexit. cbn.
  by rewrite <- !app_assoc.
Qed.

(** The run of [execute] in dry-run mode: no child is spawned. *)
Lemma execute_dry_run prompt ws timeout env_vars s :
  dry_run cfg = true →
  execute cfg decode os prompt ws timeout env_vars s
  = (Ok {| success := true;
           output := "[DRY RUN] Would execute: " +:+ Py.join " " (_build_command cfg prompt);
           error := "";
           exit_code := 0;
           execution_time := 1 # 10;
           command := Py.join " " (_build_command cfg prompt);
           cr_workspace := ws |},
     {| trace := trace s ++ command_log cfg ++ [Sleep (1 # 10)];
        clock_reads := S (clock_reads s) |}).
Proof.
  intros Hdry.
  unfold execute, mbind, M_bind.
  rewrite log_command_run. cbn [get_time trace clock_reads].
  unfold try_except. rewrite Hdry. cbn.
  by rewrite <- !app_assoc.
Qed.

(** The run of [execute] when the child cannot be created. *)
Lemma execute_spawn_fails prompt ws timeout env_vars s e :
  dry_run cfg = false →
  spawn_exec os (_build_command cfg prompt) (child_cwd ws) (child_env os env_vars) = inl e →
  execute cfg decode os prompt ws timeout env_vars s
  = (Raise e,
     {| trace := trace s ++ command_log cfg
                   ++ (if is_Exception e
                       then [Log ERROR ("Claude execution failed: " +:+ exn_str e)]
                       else []);
        clock_reads := S (clock_reads s) |}).
Proof.
  intros Hdry Hspawn.
  unfold execute, mbind, M_bind.
  rewrite log_command_run. cbn [get_time trace clock_reads].
  unfold try_except. rewrite Hdry.
  unfold create_subprocess_exec. rewrite Hspawn.
  cbn. destruct (is_Exception e); cbn.
  - by rewrite <- !app_assoc.
  - by rewrite app_nil_r.
Qed.

End ExecuteFacts.

(** * The batch executor *)

Lemma count_if_cons f t l : count_if f (t :: l) = (b2n (f t) + count_if f l)%nat.
Proof.
  unfold count_if. rewrite filter_cons.
  destruct (f t); case_decide; cbn; congruence.
Qed.

Lemma count_if_insert f (l : list task_state) i x y :
  l !! i = Some y →
  (count_if f (<[i:=x]> l) + b2n (f y) = count_if f l + b2n (f x))%nat.
Proof.
  revert i. induction l as [|t l IH]; intros [|i] Hl; cbn in Hl; try done.
  - injection Hl as ->. change (<[0%nat:=x]> (y :: l)) with (x :: l).
    rewrite !count_if_cons. lia.
  - change (<[S i:=x]> (t :: l)) with (t :: <[i:=x]> l).
    rewrite !count_if_cons. specialize (IH i Hl). lia.
Qed.

Lemma count_if_pos f (l : list task_state) :
  (0 < count_if f l)%nat → ∃ i t, l !! i = Some t ∧ f t = true.
Proof.
  induction l as [|t l IH]; rewrite ?count_if_cons.
  - unfold count_if. cbn. lia.
  - destruct (f t) eqn:Ht.
    + intros _. by exists 0%nat, t.
    + cbn. intros H. destruct (IH H) as (i & t' & Hi & Ht').
      by exists (S i), t'.
Qed.


Lemma weight_insert (l : list task_state) i x y :
  l !! i = Some y →
  (sum_list (task_weight <$> <[i:=x]> l) + task_weight y
   = sum_list (task_weight <$> l) + task_weight x)%nat.
Proof.
  revert i. induction l as [|t l IH]; intros [|i] Hl; cbn in Hl; try done.
  - injection Hl as ->. change (<[0%nat:=x]> (y :: l)) with (x :: l).
    rewrite !fmap_cons. cbn [sum_list_with id]. lia.
  - change (<[S i:=x]> (t :: l)) with (t :: <[i:=x]> l).
    rewrite !fmap_cons. cbn [sum_list_with id]. specialize (IH i Hl). lia.
Qed.

Section BatchFacts.

Variable cfg : ResearchConfig.
Variable decode : list Byte.byte → string.
Variable oss : nat → os_world.
Variable prompts : list (string * option Path).

Local Abbreviation adv := (advance cfg decode oss prompts).
Local Abbreviation reach := (reachable cfg decode oss prompts).
Local Abbreviation bstep := (batch_step cfg decode oss prompts).
Local Abbreviation result_of := (entry_result cfg decode oss).

Local Abbreviation expected := (expected_results cfg decode oss prompts).
Local Abbreviation binv := (batch_inv cfg decode oss prompts).

Lemma batch_init_inv n : binv n (batch_init prompts n).
Proof.
  split.
  - unfold in_flight, batch_init. cbn [permits slots].
    assert (count_if is_in_execute ((λ _, Pending) <$> prompts) = 0%nat) as ->; [|lia].
    induction prompts as [|e l IH]; [done|].
    rewrite fmap_cons, count_if_cons, IH. done.
  - cbn. by rewrite length_fmap.
  - cbn. intros i r. rewrite list_lookup_fmap. destruct (prompts !! i); cbn; congruence.
Qed.

Lemma finished_insert_other (l : list task_state) i t j r :
  is_finished t = false →
  <[i:=t]> l !! j = Some (Finished r) → l !! j = Some (Finished r).
Proof.
  intros Ht [(_ & -> & _)|[_ H]]%list_lookup_insert_Some; [done|exact H].
Qed.

Lemma advance_inv n i s s' : binv n s → adv i s = Some s' → binv n s'.
Proof.
  intros [Hp Hl Hr]. unfold advance.
  destruct (slots s !! i) as [t|] eqn:Hs; [|done].
  destruct (prompts !! i) as [entry|] eqn:He; [|by destruct t as [|[|]|]].
  pose proof (count_if_insert is_in_execute (slots s) i) as Hc.
  unfold in_flight in Hp.
  assert (is_in_execute t = true → binv n (finish cfg decode oss i entry s)) as Hfin.
  { intros Ht. split; unfold in_flight, finish; cbn [permits slots].
    - specialize (Hc (Finished (result_of i entry)) t Hs). rewrite Ht in Hc.
      cbn [b2n is_in_execute] in Hc. lia.
    - by rewrite length_insert.
    - intros j r [(<- & [= <-] & _)|[_ H]]%list_lookup_insert_Some; eauto. }
  destruct t as [|[|]|r].
  - destruct (permits s) as [|p] eqn:Hperm; [done|]. intros [= <-].
    split; unfold in_flight; cbn [permits slots].
    + specialize (Hc (InExecute false) Pending Hs). cbn [b2n is_in_execute] in Hc. lia.
    + by rewrite length_insert.
    + intros j r H. eapply Hr, finished_insert_other, H. done.
  - intros [= <-]. by apply Hfin.
  - destruct (entry_spawns cfg decode oss i entry).
    + intros [= <-]. split; unfold in_flight; cbn [permits slots].
      * specialize (Hc (InExecute true) (InExecute false) Hs).
        cbn [b2n is_in_execute] in Hc. lia.
      * by rewrite length_insert.
      * intros j r H. eapply Hr, finished_insert_other, H. done.
    + intros [= <-]. by apply Hfin.
  - done.
Qed.


(** Every step uses up some of the remaining work: no run is infinite. *)
Lemma advance_decreases i s s' :
  adv i s = Some s' → (remaining_work s' < remaining_work s)%nat.
Proof.
  unfold advance, remaining_work.
  destruct (slots s !! i) as [t|] eqn:Hs; [|done].
  destruct (prompts !! i) as [entry|] eqn:He; [|by destruct t as [|[|]|]].
  pose proof (weight_insert (slots s) i) as Hw.
  destruct t as [|[|]|r].
  - destruct (permits s); [done|]. intros [= <-]. cbn [slots].
    specialize (Hw (InExecute false) _ Hs). cbn [task_weight] in Hw. lia.
  - intros [= <-]. unfold finish. cbn [slots].
    specialize (Hw (Finished (result_of i entry)) _ Hs). cbn [task_weight] in Hw. lia.
  - destruct (entry_spawns cfg decode oss i entry); intros [= <-]; unfold finish; cbn [slots].
    + specialize (Hw (InExecute true) _ Hs). cbn [task_weight] in Hw. lia.
    + specialize (Hw (Finished (result_of i entry)) _ Hs). cbn [task_weight] in Hw. lia.
  - done.
Qed.

(** With at least one permit, some task can always advance until every
    task is done: the semaphore cannot deadlock the batch. *)
Lemma batch_progress n s :
  (0 < n)%nat → binv n s → gather s = None → ∃ s', bstep s s'.
Proof.
  intros Hn [Hp Hl Hr] Hg.
  assert (∀ j b, slots s !! j = Some (InExecute b) → ∃ s', bstep s s') as Hrun.
  { intros j b Hj.
    destruct (prompts !! j) as [entry|] eqn:He.
    - unfold batch_step.
      destruct b.
      + exists (finish cfg decode oss j entry s); exists j. unfold advance. by rewrite Hj, He.
      + destruct (entry_spawns cfg decode oss j entry) eqn:Hsp.
        * eexists; exists j. unfold advance. by rewrite Hj, He, Hsp.
        * eexists; exists j. unfold advance. by rewrite Hj, He, Hsp.
    - apply lookup_ge_None in He. apply lookup_lt_Some in Hj. lia. }
  assert (∃ i t, slots s !! i = Some t ∧ is_finished t = false) as (i & t & Hi & Ht).
  { unfold gather in Hg.
    destruct (decide (Forall (λ t, is_finished t = true) (slots s))) as [Hall|Hex].
    - exfalso. assert (is_Some (gather s)) as [? ?]; [|unfold gather in *; congruence].
      unfold gather.
      clear -Hall. induction Hall as [|t l Ht _ IH]; [by eexists|].
      destruct t; try done. destruct IH as [k Hk]. cbn. rewrite Hk. by eexists.
    - apply not_Forall_Exists in Hex; [|intros ?; apply _].
      apply list.Exists_exists in Hex. destruct Hex as (t & Hin & Ht).
      apply list_elem_of_lookup in Hin. destruct Hin as [i Hi].
      exists i, t. split; [done|]. cbn in Ht. by destruct (is_finished t). }
  destruct t as [|b|r]; [|by eapply Hrun|done].
  destruct (permits s) as [|p] eqn:Hperm.
  - assert (0 < in_flight s)%nat as Hpos by lia.
    apply count_if_pos in Hpos as (j & [|b|r] & Hj & Hb); try done.
    by eapply Hrun.
  - destruct (prompts !! i) as [entry|] eqn:He.
    + eexists; exists i. unfold advance. by rewrite Hi, He, Hperm.
    + apply lookup_ge_None in He. apply lookup_lt_Some in Hi. lia.
Qed.

(** Once every task is done, [gather] hands back the expected list. *)
Lemma gather_complete n s rs :
  binv n s → gather s = Some rs → rs = expected.
Proof.
  intros [Hp Hl Hr] Hg. unfold gather in Hg.
  apply mapM_Some in Hg.
  pose proof (Forall2_length _ _ _ Hg) as Hlen.
  apply list_eq. intros i. unfold expected_results.
  rewrite list_lookup_imap.
  rewrite Forall2_lookup in Hg. specialize (Hg i).
  inversion Hg as [t r Ht Hs Hk|Hs Hk].
  - destruct t as [| |r']; try done. injection Ht as ->.
    symmetry in Hs. destruct (Hr i r) as (entry & He & ->); [done|].
    by rewrite He.
  - symmetry in Hs. apply lookup_ge_None in Hs.
    destruct (prompts !! i) eqn:He; [|done].
    apply lookup_lt_Some in He. lia.
Qed.

Lemma first_enabled_step cands s s' :
  first_enabled cfg decode oss prompts cands s = Some s' → bstep s s'.
Proof.
  induction cands as [|i cands IH]; [done|]. cbn.
  destruct (adv i s) as [s1|] eqn:Hi; [|exact IH].
  intros [= <-]. by exists i.
Qed.

Lemma first_enabled_none s :
  first_enabled cfg decode oss prompts (seq 0 (length (slots s))) s = None →
  ∀ i, adv i s = None.
Proof.
  intros Hnone i.
  destruct (decide (i < length (slots s))%nat) as [Hlt|Hge].
  - assert (i ∈ seq 0 (length (slots s))) as Hin by (apply elem_of_seq; lia).
    revert Hnone Hin. generalize (seq 0 (length (slots s))) as cands.
    induction cands as [|j cands IH]; [by intros _ ?%elem_of_nil|]. cbn.
    destruct (adv j s) eqn:Hj; [done|].
    intros Hnone [->|Hin]%elem_of_cons; [done|by apply IH].
  - unfold advance. rewrite (lookup_ge_None_2 (slots s) i); [done|lia].
Qed.

(** The event loop runs the batch to completion within three steps per entry. *)
Lemma run_loop_complete n fuel s :
  (0 < n)%nat → binv n s → (remaining_work s ≤ fuel)%nat →
  gather (run_loop cfg decode oss prompts fuel s) = Some expected.
Proof.
  intros Hn. revert s. induction fuel as [|fuel IH]; intros s Hinv Hfuel.
  - cbn. destruct (gather s) as [rs|] eqn:Hg.
    + f_equal. by eapply gather_complete.
    + destruct (batch_progress n s Hn Hinv Hg) as (s' & i & Hi).
      apply advance_decreases in Hi. lia.
  - cbn. destruct (first_enabled _ _ _ _ _ s) as [s'|] eqn:Hfe.
    + apply first_enabled_step in Hfe as [i Hi].
      apply IH; [by eapply advance_inv|].
      apply advance_decreases in Hi. lia.
    + destruct (gather s) as [rs|] eqn:Hg.
      * f_equal. by eapply gather_complete.
      * destruct (batch_progress n s Hn Hinv Hg) as (s' & i & Hi).
        by rewrite (first_enabled_none s Hfe i) in Hi.
Qed.

Lemma remaining_work_init n :
  remaining_work (batch_init prompts n) = (3 * length prompts)%nat.
Proof.
  unfold remaining_work, batch_init. cbn [slots].
  induction prompts as [|e l IH]; [done|].
  rewrite !fmap_cons. cbn [sum_list_with id task_weight length]. rewrite IH. lia.
Qed.

End BatchFacts.

(** * The filesystem model *)

Lemma node_at_cons m a k : node_at m (a :: k) = m !! (a :: k).
Proof. reflexivity. Qed.

Lemma node_at_snoc m k a : node_at m (k ++ [a]) = m !! (k ++ [a]).
Proof. by destruct k. Qed.


Lemma strip_prefix_app d rest : strip_prefix d (d ++ rest) = Some rest.
Proof. induction d as [|a d IH]; [done|]. cbn. by rewrite decide_True. Qed.

Lemma strip_prefix_Some d k rest : strip_prefix d k = Some rest → k = d ++ rest.
Proof.
  revert k. induction d as [|a d IH]; intros k; cbn.
  - by intros [= ->].
  - destruct k as [|b k]; [done|]. case_decide; [|done]. subst.
    intros H. by rewrite (IH _ H).
Qed.

(** The entries of a directory are the keys one component below it. *)
Lemma elem_of_children m d name v :
  (name, v) ∈ children m d ↔ m !! (d ++ [name]) = Some v.
Proof.
  unfold children. rewrite list_elem_of_omap. split.
  - intros ([k v'] & Hin & Hk). apply elem_of_map_to_list in Hin. cbn in Hk.
    destruct (strip_prefix d k) as [[|n [|? ?]]|] eqn:Hs; try done.
    injection Hk as -> ->. by rewrite <- (strip_prefix_Some _ _ _ Hs).
  - intros Hl. exists (d ++ [name], v). split.
    + by apply elem_of_map_to_list.
    + cbn. by rewrite strip_prefix_app.
Qed.

Lemma elem_of_glob_md m d name :
  name ∈ glob_md m d
  ↔ fs_is_dir m d = true ∧ Py.endswith name ".md" = true ∧ is_Some (m !! (d ++ [name])).
Proof.
  unfold glob_md. destruct (fs_is_dir m d).
  - rewrite list_elem_of_filter, list_elem_of_fmap. split.
    + intros (Hmd & [n v] & -> & Hin). apply elem_of_children in Hin. eauto.
    + intros (_ & Hmd & v & Hv). split; [done|].
      exists (name, v). split; [done|]. by apply elem_of_children.
  - split; [by intros ?%elem_of_nil|by intros [? _]].
Qed.

(** *** Creating directories *)

Lemma mkdir_along_spec done todo m m' :
  mkdir_along done todo m = inr m' →
  (∀ j, (j < length todo)%nat → m' !! (done ++ take (S j) todo) = Some Dir)
  ∧ (∀ k, m' !! k = m !! k
          ∨ (m !! k = None ∧ m' !! k = Some Dir ∧ k `prefix_of` (done ++ todo))).
Proof.
  revert done m. induction todo as [|c rest IH]; intros done m; cbn.
  - intros [= <-]. split; [intros; lia|by left].
  - destruct (m !! (done ++ [c])) as [[content|]|] eqn:Hk; [done| |].
    + intros Hrec. destruct (IH _ _ Hrec) as [Hdirs Hrest]. split.
      * intros [|j] Hj.
        -- cbn. rewrite take_0.
           destruct (Hrest (done ++ [c])) as [->|(Hnone & _)]; congruence.
        -- specialize (Hdirs j ltac:(lia)). by rewrite <- app_assoc in Hdirs.
      * intros k. destruct (Hrest k) as [?|(? & ? & Hpre)]; [by left|right].
        by rewrite <- app_assoc in Hpre.
    + intros Hrec. destruct (IH _ _ Hrec) as [Hdirs Hrest]. split.
      * intros [|j] Hj.
        -- cbn. rewrite take_0.
           destruct (Hrest (done ++ [c])) as [->|(Hnone & _)].
           ++ apply lookup_insert_eq.
           ++ by rewrite lookup_insert_eq in Hnone.
        -- specialize (Hdirs j ltac:(lia)). by rewrite <- app_assoc in Hdirs.
      * intros k. destruct (decide (k = done ++ [c])) as [->|Hne].
        -- right. split; [done|]. split.
           ++ destruct (Hrest (done ++ [c])) as [->|(Hnone & _)].
              ** apply lookup_insert_eq.
              ** by rewrite lookup_insert_eq in Hnone.
           ++ apply prefix_app, prefix_cons, prefix_nil.
        -- destruct (Hrest k) as [Heq|(Hnone & Hd & Hpre)].
           ++ left. by rewrite Heq, lookup_insert_ne.
           ++ right. rewrite lookup_insert_ne in Hnone by done.
              by rewrite <- app_assoc in Hpre.
Qed.

(** After [mkdir(parents=True)] the directory and each of its ancestors is
    a directory. *)
Lemma mkdir_parents_dirs m k m' j :
  mkdir_parents m k = inr m' → fs_is_dir m' (take j k) = true.
Proof.
  intros Hmk. apply mkdir_along_spec in Hmk as [Hdirs _].
  unfold fs_is_dir.
  destruct j as [|j]; [done|].
  destruct (decide (j < length k)%nat) as [Hlt|Hge].
  - specialize (Hdirs j Hlt). cbn in Hdirs.
    destruct k as [|a k]; [cbn in Hlt; lia|]. cbn in *. by rewrite Hdirs.
  - rewrite take_ge by lia.
    destruct k as [|a k]; [done|].
    specialize (Hdirs (length k) ltac:(cbn; lia)).
    cbn in Hdirs. rewrite firstn_all in Hdirs. cbn. by rewrite Hdirs.
Qed.

Lemma mkdir_parents_other m k m' r :
  mkdir_parents m k = inr m' → ¬ r `prefix_of` k → m' !! r = m !! r.
Proof.
  intros Hmk Hpre. apply mkdir_along_spec in Hmk as [_ Hrest].
  by destruct (Hrest r) as [?|(_ & _ & ?)].
Qed.


Lemma mkdir_parents_keeps m k m' r v :
  mkdir_parents m k = inr m' → m !! r = Some v → m' !! r = Some v.
Proof.
  intros Hmk Hr. apply mkdir_along_spec in Hmk as [_ Hrest].
  destruct (Hrest r) as [->|(Hn & _)]; congruence.
Qed.

(** *** Copying files *)

Lemma copy2_spec m src dst m' :
  copy2 m src dst = inr m' →
  ∃ c, node_at m src = Some (File c)
       ∧ let d := if fs_is_dir m dst then dst ++ [List.last src ""] else dst in
         src ≠ d ∧ node_at m d ≠ Some Dir ∧ m' = <[d := File c]> m.
Proof.
  unfold copy2.
  set (d := if fs_is_dir m dst then dst ++ [List.last src ""] else dst).
  unfold fs_exists.
  destruct (node_at m src) as [[c|]|] eqn:Hsrc; cbn [andb];
    [|by case_bool_decide|done].
  case_bool_decide as Hsame; [done|].
  destruct (node_at m d) as [[c'|]|] eqn:Hd; try done;
    destruct (fs_is_dir m (parent d)); try done; intros [= <-];
    exists c; repeat split; done.
Qed.

(** *** Removing trees *)




(** *** Paths *)

Lemma path_name_child p name :
  path_name {| anchored := anchored p; parts := parts p ++ [name] |} = name.
Proof. unfold path_name. cbn. apply last_last. Qed.

Lemma split_on_plain s :
  forallb (λ a, negb (Ascii.eqb a "/")) (list_ascii_of_string s) = true →
  Py.split_on "/" s = [s].
Proof.
  induction s as [|a s IH]; [done|]. cbn [list_ascii_of_string forallb Py.split_on].
  intros [Ha Hs]%andb_true_iff. apply negb_true_iff in Ha. rewrite Ha.
  by rewrite (IH Hs).
Qed.

(** A plain name is a single component: [p / name] appends it. *)
Lemma path_div_plain p s :
  plain_name s = true → p // s = {| anchored := anchored p; parts := parts p ++ [s] |}.
Proof.
  unfold plain_name. intros [[Hne Hnd]%andb_true_iff Hs]%andb_true_iff.
  apply negb_true_iff, String.eqb_neq in Hne, Hnd.
  unfold path_div, parse_parts. rewrite (split_on_plain s Hs).
  assert (is_abs_str s = false) as ->.
  { destruct s as [|a s]; [done|]. cbn [list_ascii_of_string forallb] in Hs.
    apply andb_true_iff in Hs as [Ha _]. apply negb_true_iff, Ascii.eqb_neq in Ha.
    unfold is_abs_str.
    destruct a as [[] [] [] [] [] [] [] []]; try done. }
  rewrite filter_cons, decide_True by done. done.
Qed.

Lemma path_name_div_plain p s : plain_name s = true → path_name (p // s) = s.
Proof. intros Hs. rewrite (path_div_plain p s Hs). apply path_name_child. Qed.

(** An agent name with a slash gives an id of several components: the
    final component of the workspace path is then not the id. *)
Example path_name_of_nested_id :
  path_name (path_of "/tmp/research_workspaces" // "research_team/agent_0a1b2c3d")
  = "agent_0a1b2c3d".
Proof. reflexivity. Qed.

Section Resolve.

Variable cwd : list string.

Lemma resolve_child p name : resolve cwd (path_child p name) = resolve cwd p ++ [name].
Proof. unfold resolve, path_child. cbn. destruct (anchored p); by rewrite ?app_assoc. Qed.


Lemma resolve_agents_dir p :
  resolve cwd (p // ".claude" // "agents") = resolve cwd p ++ [".claude"; "agents"].
Proof.
  unfold resolve, path_div. cbn. destruct (anchored p); by rewrite <- ?app_assoc.
Qed.

Lemma resolve_project_agents :
  resolve cwd (path_of ".claude/agents") = cwd ++ [".claude"; "agents"].
Proof. reflexivity. Qed.

End Resolve.

(** * Computations in the monad *)

Lemma bind_Ok_inv {S A B} (m : M S A) (k : A → M S B) s b s' :
  (m ≫= k) s = (Ok b, s') → ∃ a s1, m s = (Ok a, s1) ∧ k a s1 = (Ok b, s').
Proof.
  unfold mbind, M_bind. destruct (m s) as [[a|e] s1]; [|done]. eauto.
Qed.

Lemma bind_run {S A B} (m : M S A) (k : A → M S B) s a s1 :
  m s = (Ok a, s1) → (m ≫= k) s = k a s1.
Proof. unfold mbind, M_bind. by intros ->. Qed.

(** * Tearing a workspace down *)

Section Cleanup.

Variable cfg : ResearchConfig.
Variable cwd : list string.
Variable locked : list string → bool.
Variable oracle : nat → list string → suspension.

Local Abbreviation cleanup := (cleanup_workspace cfg cwd locked oracle).





(** [cleanup_workspace] lets no [Exception] escape. *)
Lemma cleanup_contains_errors p w e w' :
  cleanup p w = (Raise e, w') → is_Exception e = false.
Proof.
  unfold cleanup_workspace.
  destruct (cleanup_on_exit (workspace cfg)); cbn [negb]; [|done].
  unfold try_except.
  match goal with |- context [match ?m w with _ => _ end] => destruct (m w) as [[[]|e'] w1] end;
    [done|].
  destruct (is_Exception e') eqn:He'; [done|]. by intros [= <- _].
Qed.


End Cleanup.

(** * Seeding agent definitions *)

Section Seeding.

Variable cfg : ResearchConfig.
Variable cwd : list string.

Lemma lift_fs_Ok_inv f w w' :
  lift_fs f w = (Ok tt, w') → ∃ m, f (fs w) = inr m ∧ w' = set_fs m w.
Proof.
  unfold lift_fs. destruct (f (fs w)) as [e|m]; [done|]. intros [= <-]. eauto.
Qed.

(** One pass of [for agent_file in d.glob("*.md"): copy2(agent_file,
    agents_dir / agent_file.name)], for source directory [d] and names
    [names], when no destination is a directory beforehand. *)
Lemma copy_loop_spec (d a : Path) names w w' :
  for_each (path_child d <$> names)
    (λ agent_file, shutil_copy2 cwd agent_file (path_child a (path_name agent_file))) w
  = (Ok tt, w') →
  (∀ n, n ∈ names → fs w !! (resolve cwd a ++ [n]) ≠ Some Dir) →
  (names ≠ [] → resolve cwd d ≠ resolve cwd a)
  ∧ (∀ n, n ∈ names →
       ∃ c, fs w !! (resolve cwd d ++ [n]) = Some (File c)
            ∧ fs w' !! (resolve cwd a ++ [n]) = Some (File c))
  ∧ (∀ k, (∀ n, n ∈ names → k ≠ resolve cwd a ++ [n]) → fs w' !! k = fs w !! k)
  ∧ active_workspaces w' = active_workspaces w.
Proof.
  revert w. induction names as [|n names IH]; intros w Hrun Hfresh.
  - injection Hrun as <-. split; [done|]. split; [by intros n ?%elem_of_nil|]. done.
  - rewrite fmap_cons in Hrun. cbn [for_each] in Hrun.
    apply bind_Ok_inv in Hrun as ([] & w1 & Hcopy & Hrest).
    unfold shutil_copy2 in Hcopy.
    apply lift_fs_Ok_inv in Hcopy as (m1 & Hcopy & ->).
    unfold path_child at 3 in Hcopy. rewrite path_name_child, !resolve_child in Hcopy.
    apply copy2_spec in Hcopy as (c & Hsrc & Hcopy).
    assert (fs_is_dir (fs w) (resolve cwd a ++ [n]) = false) as Hnd.
    { unfold fs_is_dir. rewrite node_at_snoc.
      specialize (Hfresh n ltac:(left)).
      by destruct (fs w !! (resolve cwd a ++ [n])) as [[?|]|]. }
    rewrite Hnd in Hcopy. cbn zeta in Hcopy. destruct Hcopy as (Hne & _ & ->).
    rewrite node_at_snoc in Hsrc.
    assert (resolve cwd d ≠ resolve cwd a) as Hda by (intros Heq; by rewrite Heq in Hne).
    assert (∀ n1 n2, resolve cwd d ++ [n1] ≠ resolve cwd a ++ [n2]) as Hdisj.
    { intros n1 n2 [? _]%app_inj_tail. done. }
    destruct (IH _ Hrest) as (_ & Hcopied & Hother & Hreg).
    { intros n' Hn'. cbn [fs set_fs].
      destruct (decide (n' = n)) as [->|Hnn].
      - by rewrite lookup_insert_eq.
      - rewrite lookup_insert_ne; [apply Hfresh; by right|].
        intros [_ ?]%app_inj_tail. done. }
    cbn [fs set_fs active_workspaces] in *.
    split; [done|]. split; [|split; [|done]].
    + intros n' [->|Hn']%elem_of_cons.
      * exists c. split; [done|].
        destruct (decide (n ∈ names)) as [Hin|Hout].
        -- destruct (Hcopied n Hin) as (c' & Hc' & ->).
           rewrite lookup_insert_ne in Hc' by apply not_eq_sym, Hdisj. congruence.
        -- rewrite Hother; [apply lookup_insert_eq|].
           intros n' Hn' [_ ->]%app_inj_tail. done.
      * destruct (Hcopied n' Hn') as (c' & Hc' & ->).
        rewrite lookup_insert_ne in Hc' by apply not_eq_sym, Hdisj. eauto.
    + intros k Hk. rewrite Hother.
      * rewrite lookup_insert_ne; [done|]. apply not_eq_sym, Hk. by left.
      * intros n' Hn'. apply Hk. by right.
Qed.

(** After a pass, an entry is as before or is a freshly written file. *)
Lemma copy_loop_lookup (d a : Path) names w w' k :
  for_each (path_child d <$> names)
    (λ agent_file, shutil_copy2 cwd agent_file (path_child a (path_name agent_file))) w
  = (Ok tt, w') →
  (∀ n, n ∈ names → fs w !! (resolve cwd a ++ [n]) ≠ Some Dir) →
  fs w' !! k = fs w !! k
  ∨ ∃ n c, n ∈ names ∧ k = resolve cwd a ++ [n] ∧ fs w' !! k = Some (File c).
Proof.
  intros Hrun Hfresh.
  destruct (copy_loop_spec d a names w w' Hrun Hfresh) as (_ & Hcopied & Hother & _).
  destruct (decide (k ∈ (λ n, resolve cwd a ++ [n]) <$> names)) as [Hin|Hout].
  - apply list_elem_of_fmap in Hin as (n & -> & Hn).
    destruct (Hcopied n Hn) as (c & _ & Hc). right. eauto.
  - left. apply Hother. intros n Hn ->. apply Hout.
    apply list_elem_of_fmap. eauto.
Qed.

Lemma copy_loop_keeps_dirs (d a : Path) names w w' k :
  for_each (path_child d <$> names)
    (λ agent_file, shutil_copy2 cwd agent_file (path_child a (path_name agent_file))) w
  = (Ok tt, w') →
  (∀ n, n ∈ names → fs w !! (resolve cwd a ++ [n]) ≠ Some Dir) →
  fs_is_dir (fs w) k = true → fs_is_dir (fs w') k = true.
Proof.
  intros Hrun Hfresh. unfold fs_is_dir.
  destruct k as [|x k]; [done|]. rewrite !node_at_cons.
  destruct (copy_loop_lookup d a names w w' (x :: k) Hrun Hfresh)
    as [->|(n & c & Hn & Hk & _)]; [done|].
  specialize (Hfresh n Hn). rewrite <- Hk in Hfresh.
  by destruct (fs w !! (x :: k)) as [[?|]|].
Qed.

Lemma fs_is_dir_mkdir m k m' r :
  mkdir_parents m k = inr m' → fs_is_dir m r = true → fs_is_dir m' r = true.
Proof.
  intros Hmk. unfold fs_is_dir. destruct r as [|x r]; [done|]. rewrite !node_at_cons.
  destruct (m !! (x :: r)) as [[?|]|] eqn:Hr; try done.
  by rewrite (mkdir_parents_keeps _ _ _ _ _ Hmk Hr).
Qed.

Lemma fs_is_dir_exists m k : fs_is_dir m k = true → fs_exists m k = true.
Proof. unfold fs_is_dir, fs_exists. by destruct (node_at m k) as [[?|]|]. Qed.

(** The three stages of [_setup_agent_definitions]. *)
Lemma setup_stages ws w w' :
  _setup_agent_definitions cfg cwd ws w = (Ok tt, w') →
  let a := ws // ".claude" // "agents" in
  let copy := λ agent_file, shutil_copy2 cwd agent_file (path_child a (path_name agent_file)) in
  ∃ m1 w2,
    mkdir_parents (fs w) (resolve cwd a) = inr m1
    ∧ (if fs_exists m1 (resolve cwd (agent_dir cfg))
       then for_each (path_child (agent_dir cfg) <$> glob_md m1 (resolve cwd (agent_dir cfg)))
              copy (set_fs m1 w) = (Ok tt, w2)
       else w2 = set_fs m1 w)
    ∧ (if fs_exists (fs w2) (cwd ++ [".claude"; "agents"])
          && bool_decide (path_of ".claude/agents" ≠ agent_dir cfg)
       then for_each (path_child (path_of ".claude/agents")
                        <$> glob_md (fs w2) (cwd ++ [".claude"; "agents"]))
              copy w2 = (Ok tt, w')
       else w' = w2).
Proof.
  intros Hrun a copy. unfold _setup_agent_definitions in Hrun.
  apply bind_Ok_inv in Hrun as ([] & w1 & Hmk & Hrun).
  apply lift_fs_Ok_inv in Hmk as (m1 & Hmk & ->).
  apply bind_Ok_inv in Hrun as (present & w1 & Hp & Hrun).
  injection Hp as <- <-.
  apply bind_Ok_inv in Hrun as ([] & w2 & Huser & Hrun).
  apply bind_Ok_inv in Hrun as (present2 & w2' & Hp2 & Hproj).
  injection Hp2 as <- <-.
  exists m1, w2. split; [done|]. split.
  - cbn [fs set_fs] in Huser.
    destruct (fs_exists m1 (resolve cwd (agent_dir cfg))).
    + apply bind_Ok_inv in Huser as (files & w1' & Hg & Hloop).
      injection Hg as <- <-. exact Hloop.
    + by injection Huser as <-.
  - rewrite resolve_project_agents in Hproj.
    destruct (fs_exists (fs w2) (cwd ++ [".claude"; "agents"])
              && bool_decide (path_of ".claude/agents" ≠ agent_dir cfg)).
    + apply bind_Ok_inv in Hproj as (files & w2' & Hg & Hloop).
      injection Hg as <- <-. exact Hloop.
    + by injection Hproj as <-.
Qed.

End Seeding.

(** * Creating a workspace *)

Lemma str_app_cons a s t : String a s +:+ t = String a (s +:+ t).
Proof. reflexivity. Qed.

Lemma str_length_app s t : String.length (s +:+ t) = (String.length s + String.length t)%nat.
Proof.
  induction s as [|a s IH]; [done|].
  rewrite str_app_cons. cbn [String.length]. by rewrite IH.
Qed.








Section Creation.

Variable cfg : ResearchConfig.
Variable cwd : list string.
Variable oracle : nat → list string → suspension.

Lemma copy2_keeps_dirs m src dst m' k :
  copy2 m src dst = inr m' → fs_is_dir m k = true → fs_is_dir m' k = true.
Proof.
  intros (c & _ & _ & Hnd & ->)%copy2_spec. unfold fs_is_dir.
  destruct k as [|x k]; [done|]. rewrite !node_at_cons.
  set (d := if fs_is_dir m dst then dst ++ [List.last src ""] else dst) in *.
  destruct (decide (d = x :: k)) as [Heq|Hne].
  - rewrite Heq in Hnd. rewrite node_at_cons in Hnd.
    by destruct (m !! (x :: k)) as [[?|]|].
  - by rewrite lookup_insert_ne.
Qed.

(** No pass of copies removes or replaces a directory, or touches the
    registry. *)
Lemma for_each_copy_frame (files : list Path) (target : Path → Path) w w' :
  for_each files (λ agent_file, shutil_copy2 cwd agent_file (target agent_file)) w
  = (Ok tt, w') →
  (∀ k, fs_is_dir (fs w) k = true → fs_is_dir (fs w') k = true)
  ∧ active_workspaces w' = active_workspaces w.
Proof.
  revert w. induction files as [|f files IH]; intros w Hrun.
  - by injection Hrun as <-.
  - cbn [for_each] in Hrun.
    apply bind_Ok_inv in Hrun as ([] & w1 & Hcopy & Hrest).
    unfold shutil_copy2 in Hcopy.
    apply lift_fs_Ok_inv in Hcopy as (m1 & Hcopy & ->).
    destruct (IH _ Hrest) as [Hdirs Hreg]. split; [|done].
    intros k Hk. apply Hdirs. cbn [fs set_fs]. by eapply copy2_keeps_dirs.
Qed.

(** When seeding returns, the workspace directory is there. *)
Lemma setup_workspace_dir ws w w' :
  _setup_agent_definitions cfg cwd ws w = (Ok tt, w') →
  fs_is_dir (fs w') (resolve cwd ws) = true
  ∧ active_workspaces w' = active_workspaces w.
Proof.
  intros (m1 & w2 & Hmk & Huser & Hproj)%setup_stages. cbn zeta in *.
  rewrite resolve_agents_dir in Hmk.
  pose proof (mkdir_parents_dirs _ _ _ (length (resolve cwd ws)) Hmk) as Hdir.
  rewrite take_app_length in Hdir.
  assert (fs_is_dir (fs w2) (resolve cwd ws) = true ∧ active_workspaces w2 = active_workspaces w)
    as [Hdir2 Hreg2].
  { destruct (fs_exists m1 (resolve cwd (agent_dir cfg))); [|by subst w2].
    apply for_each_copy_frame in Huser as [Hdirs Hreg]. split; [by apply Hdirs|done]. }
  destruct (fs_exists (fs w2) (cwd ++ [".claude"; "agents"])
            && bool_decide (path_of ".claude/agents" ≠ agent_dir cfg)); [|by subst w'].
  apply for_each_copy_frame in Hproj as [Hdirs Hreg]. split; [by apply Hdirs|congruence].
Qed.

Lemma _create_git_worktree_path workspace_id w p w' :
  _create_git_worktree cfg oracle workspace_id w = (Ok p, w') →
  p = base_dir (workspace cfg) // workspace_id.
Proof.
  unfold _create_git_worktree.
  intros (r1 & w1 & _ & Hrun)%bind_Ok_inv.
  apply bind_Ok_inv in Hrun as (r2 & w2 & _ & Hrun).
  apply bind_Ok_inv in Hrun as (r3 & w3 & _ & Hrun).
  destruct (negb (cp_returncode r3 =? 0)); [done|]. by injection Hrun as <- _.
Qed.

Lemma _create_temp_workspace_path workspace_id w p w' :
  _create_temp_workspace cfg cwd oracle workspace_id w = (Ok p, w') →
  p = base_dir (workspace cfg) // workspace_id.
Proof.
  unfold _create_temp_workspace.
  intros ([] & w1 & _ & Hrun)%bind_Ok_inv.
  apply bind_Ok_inv in Hrun as (in_repo & w2 & _ & Hrun).
  apply bind_Ok_inv in Hrun as ([] & w3 & _ & Hrun).
  by injection Hrun as <- _.
Qed.

(** What holds the moment [create_workspace] returns, whatever happened
    at its suspension points. *)
Lemma create_workspace_result agent_name use_worktree u w p w' :
  create_workspace cfg cwd oracle agent_name use_worktree u w = (Ok p, w') →
  p = base_dir (workspace cfg) // workspace_id_of cfg agent_name u
  ∧ fs_is_dir (fs w') (resolve cwd p) = true
  ∧ active_workspaces w' !! workspace_id_of cfg agent_name u = Some p.
Proof.
  unfold create_workspace.
  intros (versioned & w1 & _ & Hrun)%bind_Ok_inv.
  apply bind_Ok_inv in Hrun as (ws & w2 & Hpath & Hrun).
  apply bind_Ok_inv in Hrun as ([] & w3 & Hsetup & Hrun).
  apply bind_Ok_inv in Hrun as ([] & w4 & Hreg & Hrun).
  apply bind_Ok_inv in Hrun as ([] & w5 & Hlog & Hrun).
  injection Hrun as <- <-. injection Hlog as <-. injection Hreg as <-.
  apply setup_workspace_dir in Hsetup as [Hdir _].
  split; [|split].
  - destruct versioned.
    + by eapply _create_git_worktree_path.
    + by eapply _create_temp_workspace_path.
  - exact Hdir.
  - cbn. apply lookup_insert_eq.
Qed.

(** For an id that is a single path component, [cleanup_workspace]
    looks the record up under the key [create_workspace] stored it at. *)
Lemma created_path_name agent_name use_worktree u w p w' :
  plain_name (workspace_id_of cfg agent_name u) = true →
  create_workspace cfg cwd oracle agent_name use_worktree u w = (Ok p, w') →
  path_name p = workspace_id_of cfg agent_name u.
Proof.
  intros Hplain (-> & _)%create_workspace_result. by apply path_name_div_plain.
Qed.

End Creation.

(** * Further properties of the execution interface *)

Section ExecuteShapes.

Variable cfg : ResearchConfig.
Variable decode : list Byte.byte → string.
Variable os : os_world.

(** The events a run of [execute] appends, in each of its four shapes. *)
Lemma execute_appends prompt ws timeout env_vars s :
  let cmd := _build_command cfg prompt in
  let t := effective_timeout cfg timeout in
  let run := execute cfg decode os prompt ws timeout env_vars s in
  ∃ new, trace (snd run) = trace s ++ new
    ∧ ((dry_run cfg = true
        ∧ new = command_log cfg ++ [Sleep (1 # 10)]
        ∧ ∃ r, fst run = Ok r ∧ success r = true ∧ exit_code r = 0
               ∧ command r = Py.join " " cmd ∧ cr_workspace r = ws)
       ∨ (dry_run cfg = false
          ∧ ∃ e, spawn_exec os cmd (child_cwd ws) (child_env os env_vars) = inl e
                 ∧ fst run = Raise e
                 ∧ new = command_log cfg
                           ++ (if is_Exception e
                               then [Log ERROR ("Claude execution failed: " +:+ exn_str e)]
                               else []))
       ∨ (dry_run cfg = false
          ∧ ∃ p, spawn_exec os cmd (child_cwd ws) (child_env os env_vars) = inr p
                 ∧ exits_before p t = true
                 ∧ new = command_log cfg
                           ++ [Spawn cmd (child_cwd ws) (child_env os env_vars)]
                           ++ output_log cfg
                 ∧ ∃ r, fst run = Ok r ∧ exit_code r = returncode p
                        ∧ success r = (returncode p =? 0)
                        ∧ command r = Py.join " " cmd ∧ cr_workspace r = ws)
       ∨ (dry_run cfg = false
          ∧ ∃ p msg, spawn_exec os cmd (child_cwd ws) (child_env os env_vars) = inr p
                     ∧ exits_before p t = false
                     ∧ fst run = Raise (ClaudeTimeoutError msg t)
                     ∧ new = command_log cfg
                               ++ [Spawn cmd (child_cwd ws) (child_env os env_vars);
                                   Kill; Reap;
                                   Log ERROR ("Claude execution failed: " +:+ msg)])).
Proof.
  intros cmd t run. subst run.
  destruct (dry_run cfg) eqn:Hdry.
  - rewrite (execute_dry_run cfg decode os prompt ws timeout env_vars s Hdry).
    eexists. split; [reflexivity|]. left. split; [done|]. split; [done|].
    eexists. split; [reflexivity|]. done.
  - destruct (spawn_exec os cmd (child_cwd ws) (child_env os env_vars)) as [e|p] eqn:Hsp.
    + rewrite (execute_spawn_fails cfg decode os prompt ws timeout env_vars s e Hdry Hsp).
      eexists. split; [reflexivity|]. right. left. split; [done|]. by exists e.
    + destruct (exits_before p t) eqn:Hex.
      * rewrite (execute_exits cfg decode os prompt ws timeout env_vars s p Hdry Hsp Hex).
        eexists. split; [reflexivity|]. right. right. left. split; [done|].
        exists p. split; [done|]. split; [done|]. split; [done|].
        eexists. split; [reflexivity|]. done.
      * rewrite (execute_times_out cfg decode os prompt ws timeout env_vars s p Hdry Hsp Hex).
        eexists. split; [reflexivity|]. right. right. right. split; [done|].
        exists p. eexists. split; [done|]. split; [done|]. split; reflexivity.
Qed.

Lemma spawned_app tr1 tr2 : spawned (tr1 ++ tr2) = spawned tr1 ++ spawned tr2.
Proof. unfold spawned. apply omap_app. Qed.

Lemma spawned_command_log : spawned (command_log cfg) = [].
Proof. unfold command_log. by destruct (log_claude_output cfg). Qed.

Lemma spawned_output_log : spawned (output_log cfg) = [].
Proof. unfold output_log. by destruct (log_claude_output cfg). Qed.

Lemma kills_reaped_logs_then (logs rest : list event) :
  Forall (λ e, is_kill e = false) logs →
  kills_reaped (logs ++ rest) = kills_reaped rest.
Proof.
  induction 1 as [|e logs He _ IH]; [done|].
  cbn. by destruct e.
Qed.

Lemma kills_reaped_no_kill (logs : list event) :
  Forall (λ e, is_kill e = false) logs → kills_reaped logs = true.
Proof. induction 1 as [|e logs He _ IH]; [done|]. cbn. by destruct e. Qed.

Lemma command_log_no_kill : Forall (λ e, is_kill e = false) (command_log cfg).
Proof. unfold command_log. destruct (log_claude_output cfg); repeat constructor. Qed.

Lemma output_log_no_kill : Forall (λ e, is_kill e = false) (output_log cfg).
Proof. unfold output_log. destruct (log_claude_output cfg); repeat constructor. Qed.

Lemma existsb_kill_app tr1 tr2 :
  existsb is_kill (tr1 ++ tr2) = existsb is_kill tr1 || existsb is_kill tr2.
Proof. apply existsb_app. Qed.

Lemma command_log_kill : existsb is_kill (command_log cfg) = false.
Proof. unfold command_log. by destruct (log_claude_output cfg). Qed.

Lemma output_log_kill : existsb is_kill (output_log cfg) = false.
Proof. unfold output_log. by destruct (log_claude_output cfg). Qed.

Lemma spawn_not_logged c d v :
  ¬ (Spawn c d v ∈ command_log cfg) ∧ ¬ (Spawn c d v ∈ output_log cfg).
Proof.
  unfold command_log, output_log.
  destruct (log_claude_output cfg); split;
    intros Hin; repeat (apply elem_of_cons in Hin as [Hin|Hin]; [done|]);
    by apply elem_of_nil in Hin.
Qed.

End ExecuteShapes.

(** * Further properties of the batch executor *)

Section BatchMore.

Variable cfg : ResearchConfig.
Variable decode : list Byte.byte → string.
Variable oss : nat → os_world.
Variable prompts : list (string * option Path).

Lemma execute_batch_returns max_conc :
  0 < effective_bound cfg max_conc →
  execute_batch cfg decode oss prompts max_conc
  = BatchReturns (expected_results cfg decode oss prompts).
Proof.
  intros Hpos.
  assert (0 < Z.to_nat (effective_bound cfg max_conc))%nat as Hn by lia.
  unfold execute_batch, Semaphore.
  destruct (Z.ltb_spec (effective_bound cfg max_conc) 0); [lia|].
  erewrite run_loop_complete; [done|exact Hn|apply batch_init_inv|].
  by rewrite remaining_work_init.
Qed.

Lemma dry_run_entry i entry :
  dry_run cfg = true →
  entry_spawns cfg decode oss i entry = false
  ∧ ∃ r, entry_result cfg decode oss i entry = Ok r
         ∧ success r = true ∧ exit_code r = 0 ∧ error r = ""
         ∧ output r = "[DRY RUN] Would execute: " +:+ Py.join " " (_build_command cfg entry.1)
         ∧ cr_workspace r = entry.2.
Proof.
  intros Hdry. unfold entry_spawns, entry_result, run_entry.
  rewrite (execute_dry_run cfg decode (oss i) entry.1 entry.2 None None exec_init Hdry).
  cbn [fst snd trace]. split.
  - unfold command_log. by destruct (log_claude_output cfg).
  - eexists. split; [reflexivity|]. done.
Qed.

Lemma count_if_zero f (l : list task_state) :
  Forall (λ t, f t = false) l → count_if f l = 0%nat.
Proof.
  intros Hall. destruct (count_if f l) as [|n] eqn:Hn; [done|].
  destruct (count_if_pos f l) as (i & t & Hi & Ht); [lia|].
  rewrite Forall_lookup in Hall. specialize (Hall i t Hi). congruence.
Qed.

Lemma advance_no_process i s s' :
  (∀ j entry, prompts !! j = Some entry → entry_spawns cfg decode oss j entry = false) →
  Forall (λ t, has_process t = false) (slots s) →
  advance cfg decode oss prompts i s = Some s' →
  Forall (λ t, has_process t = false) (slots s').
Proof.
  intros Hno Hall. unfold advance, finish.
  destruct (slots s !! i) as [[|[|]|r]|] eqn:Hi; [| | | |done];
    destruct (prompts !! i) as [entry|] eqn:Hp; try done.
  - destruct (permits s); [done|]. intros [= <-]. cbn. by apply Forall_insert.
  - intros [= <-]. cbn. by apply Forall_insert.
  - rewrite (Hno i entry Hp). intros [= <-]. cbn. by apply Forall_insert.
Qed.

Lemma reachable_no_process n s :
  (∀ j entry, prompts !! j = Some entry → entry_spawns cfg decode oss j entry = false) →
  reachable cfg decode oss prompts (batch_init prompts n) s →
  processes_alive s = 0%nat.
Proof.
  intros Hno Hreach. unfold processes_alive. apply count_if_zero.
  induction Hreach as [|s s' _ IH [i Hi]].
  - cbn. apply Forall_fmap, Forall_forall. done.
  - by eapply advance_no_process.
Qed.

Lemma advance_zero_permits i :
  advance cfg decode oss prompts i (batch_init prompts 0) = None.
Proof.
  unfold advance, batch_init. cbn [slots permits].
  rewrite list_lookup_fmap.
  destruct (prompts !! i); cbn; done.
Qed.

Lemma reachable_zero_permits s :
  reachable cfg decode oss prompts (batch_init prompts 0) s → s = batch_init prompts 0.
Proof.
  induction 1 as [|s s' _ IH [i Hi]]; [done|].
  subst s. by rewrite advance_zero_permits in Hi.
Qed.

End BatchMore.

(** * Strings *)

Lemma str_prefix_app s t : String.prefix s (s +:+ t) = true.
Proof.
  induction s as [|a s IH]; [by destruct t|].
  rewrite str_app_cons. cbn. by destruct (ascii_dec a a).
Qed.

Lemma str_app_empty_r s : s +:+ "" = s.
Proof. induction s as [|a s IH]; [done|]. by rewrite str_app_cons, IH. Qed.

(** * Frame reasoning for the workspace manager *)

Section Frames.

Variable R : world → world → Prop.
Hypothesis R_refl : ∀ w, R w w.
Hypothesis R_trans : ∀ a b c, R a b → R b c → R a c.

Lemma preserves_ret {A} (a : A) : preserves R (mret a).
Proof. intros w. apply R_refl. Qed.

Lemma preserves_raise {A} e : preserves R (raise e : M world A).
Proof. intros w. apply R_refl. Qed.

Lemma preserves_gets {A} (f : world → A) : preserves R (gets f).
Proof. intros w. apply R_refl. Qed.

Lemma preserves_bind {A B} (m : M world A) (k : A → M world B) :
  preserves R m → (∀ a, preserves R (k a)) → preserves R (m ≫= k).
Proof.
  intros Hm Hk w. specialize (Hm w). unfold mbind, M_bind.
  destruct (m w) as [[a|e] w1]; cbn [snd] in *; [|done].
  eapply R_trans; [exact Hm|apply Hk].
Qed.

Lemma preserves_try_except {A} (m : M world A) catches h :
  preserves R m → (∀ e, preserves R (h e)) → preserves R (try_except m catches h).
Proof.
  intros Hm Hh w. specialize (Hm w). unfold try_except.
  destruct (m w) as [[a|e] w1]; cbn [snd] in *; [done|].
  destruct (catches e); [|done].
  eapply R_trans; [exact Hm|apply Hh].
Qed.

Lemma preserves_for_each {A} (l : list A) (body : A → M world unit) :
  (∀ x, x ∈ l → preserves R (body x)) → preserves R (for_each l body).
Proof.
  induction l as [|x l IH]; intros Hbody; [apply preserves_ret|].
  cbn [for_each]. apply preserves_bind; [apply Hbody; by left|].
  intros _. apply IH. intros y Hy. apply Hbody. by right.
Qed.

Lemma preserves_modify (f : world → world) :
  (∀ w, R w (f w)) → preserves R (modify f).
Proof. intros Hf w. apply Hf. Qed.

Lemma preserves_lift_fs f :
  (∀ w m, f (fs w) = inr m → R w (set_fs m w)) → preserves R (lift_fs f).
Proof.
  intros Hf w. unfold lift_fs. specialize (Hf w).
  destruct (f (fs w)) as [e|m]; [apply R_refl|]. by apply Hf.
Qed.

Lemma preserves_if {A} (b : bool) (m1 m2 : M world A) :
  preserves R m1 → preserves R m2 → preserves R (if b then m1 else m2).
Proof. by destruct b. Qed.

End Frames.

Lemma prefix_of_both (k p q : list string) :
  k `prefix_of` q → p `prefix_of` q → ¬ p `prefix_of` k → k `prefix_of` p.
Proof.
  intros Hk Hp Hn. destruct (prefix_weak_total _ _ _ Hk Hp) as [?|?]; done.
Qed.

Lemma fs_outside_kept_refl p m : fs_outside_kept p m m.
Proof. intros k _. by left. Qed.

Lemma fs_outside_kept_trans p m1 m2 m3 :
  fs_outside_kept p m1 m2 → fs_outside_kept p m2 m3 → fs_outside_kept p m1 m3.
Proof.
  intros H12 H23 k Hk.
  destruct (H12 k Hk) as [E12|(N1 & D2 & P)], (H23 k Hk) as [E23|(N2 & D3 & P')].
  - left. congruence.
  - right. split; [congruence|done].
  - right. split; [done|]. split; [congruence|done].
  - congruence.
Qed.

Lemma fs_shrinks_under_refl p m : fs_shrinks_under p m m.
Proof. split; done. Qed.

Lemma fs_shrinks_under_trans p m1 m2 m3 :
  fs_shrinks_under p m1 m2 → fs_shrinks_under p m2 m3 → fs_shrinks_under p m1 m3.
Proof.
  intros [S12 E12] [S23 E23]. split; [by etrans|].
  intros k Hk. rewrite E23, E12; done.
Qed.

(** ** What the file operations leave alone *)

Lemma mkdir_parents_outside p q m m' :
  p `prefix_of` q → mkdir_parents m q = inr m' → fs_outside_kept p m m'.
Proof.
  intros Hpq Hmk k Hk. unfold mkdir_parents in Hmk.
  destruct (mkdir_along_spec _ _ _ _ Hmk) as [_ Hlook].
  destruct (Hlook k) as [?|(? & ? & Hpre)]; [by left|].
  right. split; [done|]. split; [done|]. by eapply prefix_of_both.
Qed.

Lemma copy2_outside p src dst m m' :
  p `prefix_of` dst → copy2 m src dst = inr m' → fs_outside_kept p m m'.
Proof.
  intros Hp Hcopy k Hk.
  apply copy2_spec in Hcopy as (c & _ & Hcopy). cbn zeta in Hcopy.
  destruct Hcopy as (_ & _ & ->). left.
  apply lookup_insert_ne. intros <-. apply Hk.
  destruct (fs_is_dir m dst); [|done]. etrans; [exact Hp|]. by apply prefix_app_r.
Qed.

Lemma copytree_outside p src dst m m' :
  p `prefix_of` dst → copytree m src dst = inr m' → fs_outside_kept p m m'.
Proof.
  intros Hp Hcopy k Hk. unfold copytree in Hcopy.
  destruct (fs_exists m dst); [done|]. injection Hcopy as <-. left.
  rewrite lookup_union_r; [done|].
  apply not_elem_of_list_to_map_1. intros Hin.
  apply list_elem_of_fmap in Hin as ([k' v] & -> & Hin).
  apply list_elem_of_omap in Hin as ([k0 v0] & _ & Hsome). cbn in Hsome.
  destruct (strip_prefix src k0) as [rest|]; [|done]. injection Hsome as <- _.
  apply Hk. cbn. etrans; [exact Hp|]. by apply prefix_app_r.
Qed.

Lemma filter_outside_lookup (P : list string * node → Prop) `{∀ x, Decision (P x)}
    (m : gmap (list string) node) k :
  (∀ v, m !! k = Some v → P (k, v)) → filter P m !! k = m !! k.
Proof.
  intros HP. destruct (m !! k) as [v|] eqn:Hk.
  - apply map_lookup_filter_Some. split; [done|]. by apply HP.
  - apply map_lookup_filter_None. by left.
Qed.

Lemma rmtree_shrinks locked p m :
  fs_shrinks_under p m (rmtree_ignore_errors locked m p).
Proof.
  unfold rmtree_ignore_errors.
  destruct (node_at m p) as [[c|]|]; [apply fs_shrinks_under_refl| |].
  - split; [apply map_filter_subseteq|].
    intros k Hk. apply filter_outside_lookup. intros v _ [? _]. done.
  - split; [apply map_filter_subseteq|].
    intros k Hk. apply filter_outside_lookup. intros v _ [? _]. done.
Qed.

(** ** Frames of the manager's methods *)

Ltac frame_step :=
  first [ assumption
        | match goal with
          | H : ∀ cmd, preserves _ (_run_command _ cmd) |- preserves _ (_run_command _ _) =>
              apply H
          end
        | apply preserves_ret
        | apply preserves_raise
        | apply preserves_gets
        | apply preserves_bind
        | apply preserves_try_except
        | apply preserves_if
        | progress intros ].

Ltac frame := repeat frame_step.

Section ManagerFrames.

Variable cfg : ResearchConfig.
Variable cwd : list string.
Variable locked : list string → bool.
Variable oracle : nat → list string → suspension.
Variable R : world → world → Prop.
Hypothesis R_refl : ∀ w, R w w.
Hypothesis R_trans : ∀ a b c, R a b → R b c → R a c.
Hypothesis R_log : ∀ w e, R w (add_log e w).
Hypothesis R_cmd : ∀ cmd, preserves R (_run_command oracle cmd).

Lemma preserves_logger lvl msg : preserves R (logger lvl msg).
Proof. intros w. apply R_log. Qed.

Lemma preserves_path_exists p : preserves R (path_exists cwd p).
Proof. apply preserves_gets, R_refl. Qed.

Lemma preserves_path_is_file p : preserves R (path_is_file cwd p).
Proof. apply preserves_gets, R_refl. Qed.

Lemma preserves_glob p : preserves R (glob_md_paths cwd p).
Proof. apply preserves_gets, R_refl. Qed.

Lemma preserves_is_git_repo : preserves R (_is_git_repo oracle).
Proof. unfold _is_git_repo. frame. Qed.

Lemma preserves_is_git_worktree p : preserves R (_is_git_worktree cwd p).
Proof.
  unfold _is_git_worktree. frame; try apply preserves_path_exists;
    try apply preserves_path_is_file.
Qed.

Lemma preserves_create_git_worktree workspace_id :
  preserves R (_create_git_worktree cfg oracle workspace_id).
Proof. unfold _create_git_worktree. frame. Qed.

Lemma preserves_create_temp_workspace workspace_id :
  let p := base_dir (workspace cfg) // workspace_id in
  preserves R (mkdir cwd p) →
  (∀ src pattern, pattern ∈ [".gitignore"; "README.md"; "pyproject.toml"] →
                  preserves R (shutil_copy2 cwd src (p // pattern))) →
  (∀ src pattern, pattern ∈ [".gitignore"; "README.md"; "pyproject.toml"] →
                  preserves R (shutil_copytree cwd src (p // pattern))) →
  preserves R (_create_temp_workspace cfg cwd oracle workspace_id).
Proof.
  intros p Hmk Hcp Hct. unfold _create_temp_workspace. fold p.
  apply preserves_bind; [done|exact Hmk|]. intros _.
  apply preserves_bind; [done|apply preserves_is_git_repo|]. intros in_repo.
  apply preserves_bind; [done| |frame].
  apply preserves_if; [|frame].
  apply preserves_for_each; [done|done|]. intros pattern Hpat.
  apply preserves_bind; [done|apply preserves_path_exists|]. intros present.
  apply preserves_if; [|frame].
  apply preserves_bind; [done|apply preserves_path_is_file|]. intros regular.
  apply preserves_if; [by apply Hcp|by apply Hct].
Qed.

Lemma preserves_setup_agent_definitions ws :
  let a := ws // ".claude" // "agents" in
  preserves R (mkdir cwd a) →
  (∀ src name, preserves R (shutil_copy2 cwd src (path_child a name))) →
  preserves R (_setup_agent_definitions cfg cwd ws).
Proof.
  intros a Hmk Hcp. unfold _setup_agent_definitions. fold a.
  apply preserves_bind; [done|exact Hmk|]. intros _.
  apply preserves_bind; [done|apply preserves_path_exists|]. intros user_present.
  apply preserves_bind; [done| |].
  { apply preserves_if; [|frame].
    apply preserves_bind; [done|apply preserves_glob|]. intros files.
    apply preserves_for_each; [done|done|]. intros f _. apply Hcp. }
  intros _.
  apply preserves_bind; [done|apply preserves_path_exists|]. intros project_present.
  apply preserves_if; [|frame].
  apply preserves_bind; [done|apply preserves_glob|]. intros files.
  apply preserves_for_each; [done|done|]. intros f _. apply Hcp.
Qed.

Lemma preserves_remove_git_worktree p :
  preserves R (shutil_rmtree cwd locked p) →
  preserves R (_remove_git_worktree cwd locked oracle p).
Proof.
  intros Hrm. unfold _remove_git_worktree.
  apply preserves_bind; [done|apply R_cmd|]. intros result.
  apply preserves_bind; [done| |frame].
  apply preserves_if; [|frame].
  apply preserves_bind; [done|apply preserves_logger|]. by intros _.
Qed.

Lemma preserves_cleanup_workspace p :
  preserves R (shutil_rmtree cwd locked p) →
  (∀ w, R w (set_registry (delete (path_name p) (active_workspaces w)) w)) →
  preserves R (cleanup_workspace cfg cwd locked oracle p).
Proof.
  intros Hrm Hdel. unfold cleanup_workspace.
  apply preserves_if; [apply preserves_logger|].
  apply preserves_try_except; [done| |intros e; apply preserves_logger].
  apply preserves_bind; [done|apply preserves_is_git_worktree|]. intros is_worktree.
  apply preserves_bind; [done| |].
  { apply preserves_if; [by apply preserves_remove_git_worktree|done]. }
  intros _. apply preserves_bind; [done|by apply preserves_modify|]. intros _.
  apply preserves_logger.
Qed.

End ManagerFrames.

(** *** The registry *)

Section RegistryFrame.

Variable cfg : ResearchConfig.
Variable cwd : list string.
Variable locked : list string → bool.
Variable oracle : nat → list string → suspension.
Hypothesis quiet : ∀ n cmd, on_registry (oracle n cmd) = id.

Lemma same_registry_trans a b c :
  same_registry a b → same_registry b c → same_registry a c.
Proof. unfold same_registry. congruence. Qed.

Lemma same_registry_cmd cmd : preserves same_registry (_run_command oracle cmd).
Proof.
  intros w. unfold _run_command, same_registry.
  destruct (response (oracle (awaits w) cmd)); cbn; by rewrite quiet.
Qed.

Lemma same_registry_lift_fs f : preserves same_registry (lift_fs f).
Proof. by apply preserves_lift_fs. Qed.

Lemma same_registry_is_git_repo : preserves same_registry (_is_git_repo oracle).
Proof.
  apply preserves_is_git_repo; [done|apply same_registry_trans|apply same_registry_cmd].
Qed.

Lemma same_registry_create_git_worktree workspace_id :
  preserves same_registry (_create_git_worktree cfg oracle workspace_id).
Proof.
  apply preserves_create_git_worktree;
    [done|apply same_registry_trans|apply same_registry_cmd].
Qed.

Lemma same_registry_create_temp_workspace workspace_id :
  preserves same_registry (_create_temp_workspace cfg cwd oracle workspace_id).
Proof.
  apply preserves_create_temp_workspace;
    [done|apply same_registry_trans|apply same_registry_cmd|..];
    intros; apply same_registry_lift_fs.
Qed.

Lemma same_registry_setup ws :
  preserves same_registry (_setup_agent_definitions cfg cwd ws).
Proof.
  apply preserves_setup_agent_definitions;
    [done|apply same_registry_trans|..]; intros; apply same_registry_lift_fs.
Qed.

End RegistryFrame.

Lemma bind_raise {S A B} (m : M S A) (k : A → M S B) s e s1 :
  m s = (Raise e, s1) → (m ≫= k) s = (Raise e, s1).
Proof. intros Hm. unfold mbind, M_bind. by rewrite Hm. Qed.

Lemma preserves_bind_post {A B} (R : world → world → Prop) (Q : A → Prop)
    (m : M world A) (k : A → M world B) :
  (∀ a b c, R a b → R b c → R a c) →
  preserves R m →
  (∀ w a w', m w = (Ok a, w') → Q a) →
  (∀ a, Q a → preserves R (k a)) →
  preserves R (m ≫= k).
Proof.
  intros R_trans Hm Hq Hk w. specialize (Hm w). specialize (Hq w).
  unfold mbind, M_bind.
  destruct (m w) as [[a|e] w1]; cbn [snd] in *; [|done].
  eapply R_trans; [exact Hm|]. apply Hk. by eapply Hq.
Qed.

Lemma resolve_div_plain cwd p s :
  plain_name s = true → resolve cwd (p // s) = resolve cwd p ++ [s].
Proof.
  intros Hs. rewrite (path_div_plain p s Hs). unfold resolve. cbn.
  destruct (anchored p); [done|]. by rewrite app_assoc.
Qed.

(** *** Files outside the workspace *)

Section OutsideFrame.

Variable cfg : ResearchConfig.
Variable cwd : list string.
Variable oracle : nat → list string → suspension.
Variable agent_name : string.
Variable u : N.

Local Abbreviation the_path := (base_dir (workspace cfg) // workspace_id_of cfg agent_name u).
Local Abbreviation the_key := (resolve cwd the_path).

Hypothesis quiet : ∀ n cmd m, fs_outside_kept the_key m (on_fs (oracle n cmd) m).

Lemma outside_kept_refl w : outside_kept the_key w w.
Proof. apply fs_outside_kept_refl. Qed.

Lemma outside_kept_trans a b c :
  outside_kept the_key a b → outside_kept the_key b c → outside_kept the_key a c.
Proof. apply fs_outside_kept_trans. Qed.

Lemma outside_kept_cmd cmd : preserves (outside_kept the_key) (_run_command oracle cmd).
Proof.
  intros w. unfold _run_command, outside_kept.
  destruct (response (oracle (awaits w) cmd)); cbn; apply quiet.
Qed.

Lemma outside_kept_mkdir q :
  the_key `prefix_of` resolve cwd q → preserves (outside_kept the_key) (mkdir cwd q).
Proof.
  intros Hq. apply preserves_lift_fs; [apply outside_kept_refl|].
  intros w m Hm. by eapply mkdir_parents_outside.
Qed.

Lemma outside_kept_copy2 src dst :
  the_key `prefix_of` resolve cwd dst →
  preserves (outside_kept the_key) (shutil_copy2 cwd src dst).
Proof.
  intros Hq. apply preserves_lift_fs; [apply outside_kept_refl|].
  intros w m Hm. by eapply copy2_outside.
Qed.

Lemma outside_kept_copytree src dst :
  the_key `prefix_of` resolve cwd dst →
  preserves (outside_kept the_key) (shutil_copytree cwd src dst).
Proof.
  intros Hq. apply preserves_lift_fs; [apply outside_kept_refl|].
  intros w m Hm. by eapply copytree_outside.
Qed.

Lemma outside_kept_create_workspace use_worktree :
  preserves (outside_kept the_key)
    (create_workspace cfg cwd oracle agent_name use_worktree u).
Proof.
  unfold create_workspace.
  apply preserves_bind; [apply outside_kept_trans| |].
  { apply preserves_if; [|apply preserves_ret, outside_kept_refl].
    apply preserves_is_git_repo;
      [apply outside_kept_refl|apply outside_kept_trans|apply outside_kept_cmd]. }
  intros versioned.
  apply (preserves_bind_post _ (λ p, p = the_path)); [apply outside_kept_trans| | |].
  - apply preserves_if.
    + apply preserves_create_git_worktree;
        [apply outside_kept_refl|apply outside_kept_trans|apply outside_kept_cmd].
    + apply preserves_create_temp_workspace;
        [apply outside_kept_refl|apply outside_kept_trans|apply outside_kept_cmd|..].
      * by apply outside_kept_mkdir.
      * intros src pattern Hpat. apply outside_kept_copy2.
        rewrite (resolve_div_plain cwd the_path pattern); [by apply prefix_app_r|].
        repeat (apply elem_of_cons in Hpat as [->|Hpat]; [done|]).
        by apply elem_of_nil in Hpat.
      * intros src pattern Hpat. apply outside_kept_copytree.
        rewrite (resolve_div_plain cwd the_path pattern); [by apply prefix_app_r|].
        repeat (apply elem_of_cons in Hpat as [->|Hpat]; [done|]).
        by apply elem_of_nil in Hpat.
  - intros w p w'. destruct versioned.
    + apply _create_git_worktree_path.
    + apply _create_temp_workspace_path.
  - intros p ->.
    apply preserves_bind; [apply outside_kept_trans| |].
    { apply preserves_setup_agent_definitions;
        [apply outside_kept_refl|apply outside_kept_trans|..].
      - apply outside_kept_mkdir. rewrite resolve_agents_dir. by apply prefix_app_r.
      - intros src name. apply outside_kept_copy2.
        rewrite resolve_child, resolve_agents_dir, <- app_assoc. by apply prefix_app_r. }
    intros _. apply preserves_bind; [apply outside_kept_trans| |].
    { apply preserves_modify. intros w. apply fs_outside_kept_refl. }
    intros _. apply preserves_bind; [apply outside_kept_trans| |].
    { intros w. apply fs_outside_kept_refl. }
    intros _. apply preserves_ret, outside_kept_refl.
Qed.

End OutsideFrame.

(** *** What cleaning up leaves alone *)

Section CleanupFrame.

Variable cfg : ResearchConfig.
Variable cwd : list string.
Variable locked : list string → bool.
Variable oracle : nat → list string → suspension.
Variable path : Path.

Local Abbreviation cleanup_frame := (cleanup_frame_of cwd path).

Hypothesis quiet_fs : ∀ n cmd m, fs_shrinks_under (resolve cwd path) m (on_fs (oracle n cmd) m).
Hypothesis quiet_registry : ∀ n cmd, on_registry (oracle n cmd) = id.

Lemma cleanup_frame_refl w : cleanup_frame w w.
Proof. split; [apply fs_shrinks_under_refl|done]. Qed.

Lemma cleanup_frame_trans a b c : cleanup_frame a b → cleanup_frame b c → cleanup_frame a c.
Proof.
  intros [F1 R1] [F2 R2]. split; [by eapply fs_shrinks_under_trans|].
  intros id Hid. by rewrite R2, R1.
Qed.

Lemma cleanup_frame_workspace :
  preserves cleanup_frame (cleanup_workspace cfg cwd locked oracle path).
Proof.
  apply preserves_cleanup_workspace.
  - apply cleanup_frame_refl.
  - apply cleanup_frame_trans.
  - intros w e. split; [apply fs_shrinks_under_refl|done].
  - intros cmd w. unfold _run_command.
    destruct (response (oracle (awaits w) cmd)); cbn;
      (split; [apply quiet_fs|by rewrite quiet_registry]).
  - intros w. split; [apply rmtree_shrinks|done].
  - intros w. split; [apply fs_shrinks_under_refl|].
    intros id Hid. cbn. by rewrite lookup_delete_ne.
Qed.

End CleanupFrame.

(** ** Seeding and creation, continued *)

Lemma substring_all s : substring 0 (String.length s) s = s.
Proof. induction s as [|a s IH]; [done|]. cbn. by rewrite IH. Qed.

Lemma endswith_app s suf : Py.endswith (s +:+ suf) suf = true.
Proof.
  unfold Py.endswith. rewrite str_length_app.
  replace (String.length s + String.length suf - String.length suf)%nat
    with (String.length s) by lia.
  apply andb_true_intro. split; [apply Nat.leb_le; lia|].
  apply String.eqb_eq.
  induction s as [|a s IH].
  - change ("" +:+ suf) with suf. apply substring_all.
  - rewrite str_app_cons. exact IH.
Qed.

Section SeedingMore.

Variable cfg : ResearchConfig.
Variable cwd : list string.
Variable oracle : nat → list string → suspension.



(** A regular [*.md] file of the user-level directory has a copy in the
    workspace once seeding has returned. *)
Lemma seeded_user_file ws w w' n :
  _setup_agent_definitions cfg cwd ws w = (Ok tt, w') →
  (∀ n', fs w !! (resolve cwd ws ++ [".claude"; "agents"] ++ [n']) ≠ Some Dir) →
  Py.endswith n ".md" = true →
  fs_is_dir (fs w) (resolve cwd (agent_dir cfg)) = true →
  is_Some (fs w !! (resolve cwd (agent_dir cfg) ++ [n])) →
  ∃ c, fs w' !! (resolve cwd ws ++ [".claude"; "agents"] ++ [n]) = Some (File c).
Proof.
  intros Hrun Hfresh Hmd Hdir [v Hfile].
  set (agents := resolve cwd ws ++ [".claude"; "agents"]).
  set (user := resolve cwd (agent_dir cfg)).
  assert (∀ n', fs w !! (agents ++ [n']) ≠ Some Dir) as Hfresh0.
  { intros n'. unfold agents. rewrite <- app_assoc. apply Hfresh. }
  apply setup_stages in Hrun as (m1 & w2 & Hmk & Huser & Hproj).
  cbn zeta in Hmk, Huser, Hproj.
  rewrite resolve_agents_dir in Hmk. fold agents user in Hmk, Huser, Hproj, Hdir, Hfile.
  assert (∀ n', m1 !! (agents ++ [n']) ≠ Some Dir) as Hfresh1.
  { intros n'. rewrite (mkdir_parents_other _ _ _ _ Hmk); [apply Hfresh0|apply prefix_snoc_not]. }
  pose proof (fs_is_dir_mkdir _ _ _ _ Hmk Hdir) as Hdir1.
  pose proof (mkdir_parents_keeps _ _ _ _ _ Hmk Hfile) as Hfile1.
  rewrite (fs_is_dir_exists _ _ Hdir1) in Huser.
  assert (∃ c, fs w2 !! (agents ++ [n]) = Some (File c)) as [c Hc2].
  { destruct (copy_loop_spec cwd _ _ _ _ _ Huser) as (_ & Hcopied & _).
    { intros; rewrite resolve_agents_dir; apply Hfresh1. }
    destruct (Hcopied n) as (c0 & _ & Hw2).
    { apply elem_of_glob_md. split; [done|]. split; [done|]. by eexists. }
    rewrite resolve_agents_dir in Hw2. by exists c0. }
  assert (∀ n', fs w2 !! (agents ++ [n']) ≠ Some Dir) as Hfresh2.
  { intros n'.
    destruct (copy_loop_lookup cwd _ _ _ _ _ (agents ++ [n']) Huser)
      as [->|(? & ? & _ & _ & ->)]; [|apply Hfresh1|done].
    intros; rewrite resolve_agents_dir; apply Hfresh1. }
  destruct (fs_exists (fs w2) (cwd ++ [".claude"; "agents"])
            && bool_decide (path_of ".claude/agents" ≠ agent_dir cfg));
    [|subst w'; unfold agents in Hc2; rewrite <- app_assoc in Hc2; by exists c].
  destruct (copy_loop_lookup cwd _ _ _ _ _ (agents ++ [n]) Hproj)
    as [Heq|(? & c' & _ & _ & Heq)].
  { intros; rewrite resolve_agents_dir; apply Hfresh2. }
  - exists c. unfold agents in Heq, Hc2. rewrite <- app_assoc in Heq, Hc2. congruence.
  - exists c'. unfold agents in Heq. by rewrite <- app_assoc in Heq.
Qed.

End SeedingMore.

(** * [cleanup_all]: the coroutines under [asyncio.gather] *)

Ltac unfold_segment :=
  unfold ct_guard, ct_unregister, try_except, _is_git_worktree, path_exists, path_is_file,
    shutil_rmtree, logger, gets, modify, _run_command, mbind, M_bind, mret, M_ret.

Ltac gather_crunch :=
  repeat (progress (unfold ca_advance; unfold_segment;
                    cbn -[path_div resolve path_name git_worktree_remove git_branch_delete
                          rmtree_ignore_errors fs_exists fs_is_file];
                    repeat match goal with
                           | H : ?x = _ |- context [?x] => rewrite H
                           end)).

Section GatherFacts.

Variable cfg : ResearchConfig.
Variable cwd : list string.
Variable locked : list string → bool.
Variable oracle : nat → list string → suspension.

Local Abbreviation segment_of := (ct_segment cfg cwd locked oracle).
Local Abbreviation advance_task := (ca_advance cfg cwd locked oracle).
Local Abbreviation step_to := (ca_step cfg cwd locked oracle).
Local Abbreviation reached := (ca_reachable cfg cwd locked oracle).

Lemma ct_segment_weight t seg w :
  segment_of t = Some seg →
  match fst (seg w) with
  | Ok t' => (ct_weight t' < ct_weight t)%nat
  | Raise _ => (0 < ct_weight t)%nat
  end.
Proof.
  destruct t as [p|p|p|r]; cbn [ct_segment]; intros [= <-].
  - destruct (cleanup_on_exit (workspace cfg)); cbn [negb].
    + unfold_segment.
      destruct (fs_exists (fs w) (resolve cwd (p // ".git"))
                && fs_is_file (fs w) (resolve cwd (p // ".git"))); cbn; lia.
    + unfold_segment. cbn. lia.
  - unfold_segment.
    destruct (response (oracle (awaits w) (git_worktree_remove p))) as [e|rc out err]; cbn.
    + destruct (is_Exception e); cbn; lia.
    + destruct (negb (rc =? 0)); cbn; lia.
  - unfold_segment.
    destruct (response (oracle (awaits w) (git_branch_delete p))) as [e|rc out err]; cbn.
    + destruct (is_Exception e); cbn; lia.
    + lia.
Qed.

Lemma ca_advance_length i st st' :
  advance_task i st = Some st' → length (ca_tasks st') = length (ca_tasks st).
Proof.
  unfold ca_advance. intros Hadv.
  destruct (ca_tasks st !! i) as [t|]; [|done]. cbn in Hadv.
  destruct (segment_of t) as [seg|]; [|done]. cbn in Hadv.
  injection Hadv as <-.
  destruct (seg (ca_world st)) as [[t'|e] w']; cbn; apply length_insert.
Qed.

Lemma ct_weight_insert (l : list cleanup_task) i x y :
  l !! i = Some y →
  (sum_list (ct_weight <$> <[i:=x]> l) + ct_weight y
   = sum_list (ct_weight <$> l) + ct_weight x)%nat.
Proof.
  revert i. induction l as [|t l IH]; intros [|i] Hi; try done.
  - injection Hi as ->. cbn [sum_list_with id]. cbn. lia.
  - change (<[S i:=x]> (t :: l)) with (t :: <[i:=x]> l).
    rewrite !fmap_cons. cbn [sum_list_with id].
    specialize (IH i Hi). cbn in *. lia.
Qed.

Lemma ca_advance_decreases i st st' :
  advance_task i st = Some st' → (ca_remaining st' < ca_remaining st)%nat.
Proof.
  unfold ca_advance, ca_remaining. intros Hadv.
  destruct (ca_tasks st !! i) as [t|] eqn:Hi; [|done]. cbn in Hadv.
  destruct (segment_of t) as [seg|] eqn:Hseg; [|done]. cbn in Hadv.
  injection Hadv as <-.
  pose proof (ct_segment_weight t seg (ca_world st) Hseg) as Hw.
  destruct (seg (ca_world st)) as [[t'|e] w']; cbn [fst ca_tasks] in *.
  - pose proof (ct_weight_insert _ _ t' _ Hi). lia.
  - pose proof (ct_weight_insert _ _ (CtDone (Raise e)) _ Hi). cbn in *. lia.
Qed.

Lemma ca_gathered_false st :
  ca_gathered st = false → ∃ i t, ca_tasks st !! i = Some t ∧ ct_is_done t = false.
Proof.
  unfold ca_gathered. induction (ca_tasks st) as [|t l IH]; [done|]. cbn.
  destruct (ct_is_done t) eqn:Ht; cbn.
  - intros (i & t' & Hi & Ht')%IH. by exists (S i), t'.
  - intros _. by exists 0%nat, t.
Qed.

Lemma ca_advance_enabled i st t :
  ca_tasks st !! i = Some t → ct_is_done t = false → ∃ st', advance_task i st = Some st'.
Proof.
  intros Hi Ht. unfold ca_advance. rewrite Hi. cbn.
  destruct t; try done; cbn; by eexists.
Qed.

Lemma ca_progress st : ca_gathered st = false → ∃ st', step_to st st'.
Proof.
  intros (i & t & Hi & Ht)%ca_gathered_false.
  destruct (ca_advance_enabled i st t Hi Ht) as [st' Hst']. by exists st', i.
Qed.

Lemma ca_gathered_remaining st : ca_remaining st = 0%nat → ca_gathered st = true.
Proof.
  unfold ca_remaining, ca_gathered. induction (ca_tasks st) as [|t l IH]; [done|].
  rewrite fmap_cons. cbn [sum_list_with id]. cbn. intros Hsum.
  destruct t; cbn in *; try lia. apply IH. lia.
Qed.

Lemma ca_first_step cands st st' :
  ca_first cfg cwd locked oracle cands st = Some st' → step_to st st'.
Proof.
  induction cands as [|i cands IH]; [done|]. cbn.
  destruct (advance_task i st) as [s1|] eqn:Hi; [|exact IH].
  intros [= <-]. by exists i.
Qed.

Lemma ca_first_none st :
  ca_first cfg cwd locked oracle (seq 0 (length (ca_tasks st))) st = None →
  ca_gathered st = true.
Proof.
  intros Hnone. destruct (ca_gathered st) eqn:Hg; [done|].
  apply ca_gathered_false in Hg as (i & t & Hi & Ht).
  destruct (ca_advance_enabled i st t Hi Ht) as [st' Hst'].
  assert (i ∈ seq 0 (length (ca_tasks st))) as Hin.
  { apply elem_of_seq. apply lookup_lt_Some in Hi. lia. }
  revert Hnone Hin. generalize (seq 0 (length (ca_tasks st))).
  induction l as [|j l IH]; [by intros _ ?%elem_of_nil|]. cbn.
  destruct (advance_task j st) eqn:Hj; [done|].
  intros Hl [->|Hin]%elem_of_cons; [congruence|by apply IH].
Qed.

Lemma ca_run_reaches fuel st0 st :
  reached st0 st → reached st0 (ca_run cfg cwd locked oracle fuel st).
Proof.
  revert st. induction fuel as [|fuel IH]; intros st Hreach; [done|]. cbn.
  destruct (ca_first cfg cwd locked oracle (seq 0 (length (ca_tasks st))) st) as [st'|] eqn:Hf;
    [|done].
  apply IH. eapply ca_reach_step; [exact Hreach|]. by eapply ca_first_step.
Qed.

Lemma ca_run_gathers fuel st :
  (ca_remaining st ≤ fuel)%nat →
  ca_gathered (ca_run cfg cwd locked oracle fuel st) = true.
Proof.
  revert st. induction fuel as [|fuel IH]; intros st Hfuel.
  - cbn [ca_run]. apply ca_gathered_remaining. lia.
  - cbn [ca_run].
    destruct (ca_first cfg cwd locked oracle (seq 0 (length (ca_tasks st))) st)
      as [st'|] eqn:Hf; [|by apply ca_first_none].
    apply IH. apply ca_first_step in Hf as [i Hi].
    apply ca_advance_decreases in Hi. lia.
Qed.

Lemma cleanup_all_start_remaining w :
  ca_remaining (cleanup_all_start w) = (3 * size (active_workspaces w))%nat
  ∧ length (ca_tasks (cleanup_all_start w)) = size (active_workspaces w).
Proof.
  unfold ca_remaining, cleanup_all_start. cbn [ca_tasks].
  rewrite !length_fmap, length_map_to_list. split; [|done].
  rewrite <- (length_map_to_list (active_workspaces w)).
  induction (map_to_list (active_workspaces w)) as [|kv l IH]; [done|].
  cbn [fmap list_fmap length]. cbn [sum_list_with id] in *. cbn in *. lia.
Qed.

Lemma ca_reachable_bounds w st :
  reached (cleanup_all_start w) st →
  (ca_remaining st ≤ 3 * size (active_workspaces w))%nat
  ∧ length (ca_tasks st) = size (active_workspaces w).
Proof.
  induction 1 as [|st st' _ [IHr IHl] [i Hi]].
  - destruct (cleanup_all_start_remaining w) as [-> ->]. done.
  - split.
    + apply ca_advance_decreases in Hi. lia.
    + apply ca_advance_length in Hi. congruence.
Qed.

(** With cleanup disabled no coroutine touches anything or waits. *)
Lemma ca_disabled_inv w st :
  cleanup_on_exit (workspace cfg) = false →
  reached (cleanup_all_start w) st →
  fs (ca_world st) = fs w
  ∧ active_workspaces (ca_world st) = active_workspaces w
  ∧ awaits (ca_world st) = awaits w
  ∧ Forall (λ t, ct_is_done t = true ∨ ∃ p, t = CtStart p) (ca_tasks st).
Proof.
  intros Hoff. induction 1 as [|st st' _ (IHf & IHr & IHa & IHt) [i Hi]].
  - cbn. split; [done|]. split; [done|]. split; [done|].
    apply Forall_fmap, Forall_forall. intros p _. right. by eexists.
  - unfold ca_advance in Hi.
    destruct (ca_tasks st !! i) as [t|] eqn:Hti; [|done]. cbn in Hi.
    pose proof (proj1 (Forall_lookup _ _) IHt i t Hti) as [Hdone|[p ->]].
    { by destruct t. }
    cbn [ct_segment] in Hi. rewrite Hoff in Hi. cbn in Hi. injection Hi as <-.
    cbn. split; [done|]. split; [done|]. split; [done|].
    apply Forall_insert; [done|]. by left.
Qed.



Lemma cleanup_all_in_order_is_run w :
  cleanup_all cfg cwd locked oracle w (cleanup_all_in_order cfg cwd locked oracle w).
Proof.
  unfold cleanup_all, cleanup_all_in_order. eexists. split; [|split; [|reflexivity]].
  - apply ca_run_reaches. constructor.
  - apply ca_run_gathers.
    destruct (cleanup_all_start_remaining w) as [-> ->]. done.
Qed.

End GatherFacts.

(** * The global configuration *)

Section ConfigFacts.

Variable cwd : list string.
Variable which : string → bool.
Variable float_str : Q → string.

Lemma cm_mkdir_Ok p st st' :
  cm_mkdir cwd p st = (Ok tt, st') →
  mkdir_parents (cm_fs st) (resolve cwd p) = inr (cm_fs st') ∧ _config st' = _config st.
Proof.
  unfold cm_mkdir.
  destruct (mkdir_parents (cm_fs st) (resolve cwd p)) as [e|m]; [done|].
  by intros [= <-].
Qed.

Lemma cm_mkdir_config p st : _config (snd (cm_mkdir cwd p st)) = _config st.
Proof.
  unfold cm_mkdir. by destruct (mkdir_parents (cm_fs st) (resolve cwd p)).
Qed.

(** [validate] never assigns the global. *)
Lemma validate_config c st : _config (snd (validate cwd which float_str c st)) = _config st.
Proof.
  unfold validate, mbind, M_bind, raise, mret, M_ret.
  destruct (negb (dry_run (research c))); [destruct (negb (which _))|]; cbn [snd]; try done.
  all: pose proof (cm_mkdir_config (base_dir (workspace (research c))) st) as H1;
    destruct (cm_mkdir cwd (base_dir (workspace (research c))) st) as [[[]|e1] st1];
    cbn [snd] in *; [|done];
    pose proof (cm_mkdir_config (cache_dir c) st1) as H2;
    destruct (cm_mkdir cwd (cache_dir c) st1) as [[[]|e2] st2];
    cbn [snd] in *; [|congruence];
    pose proof (cm_mkdir_config (log_dir c) st2) as H3;
    destruct (cm_mkdir cwd (log_dir c) st2) as [[[]|e3] st3];
    cbn [snd] in *; [|congruence];
    destruct (negb (validate_max_concurrent (research c))); cbn [snd]; [congruence|];
    destruct (negb (validate_warning_threshold c)); cbn [snd]; congruence.
Qed.

(** What a [validate] that returns has checked and made. *)
Lemma validate_Ok c st st' :
  validate cwd which float_str c st = (Ok tt, st') →
  (dry_run (research c) = false → which (cli_path (claude (research c))) = true)
  ∧ validate_max_concurrent (research c) = true
  ∧ validate_warning_threshold c = true
  ∧ fs_is_dir (cm_fs st') (resolve cwd (base_dir (workspace (research c)))) = true
  ∧ fs_is_dir (cm_fs st') (resolve cwd (cache_dir c)) = true
  ∧ fs_is_dir (cm_fs st') (resolve cwd (log_dir c)) = true
  ∧ ∀ k v, cm_fs st !! k = Some v → cm_fs st' !! k = Some v.
Proof.
  unfold validate.
  intros ([] & st0 & H0 & Hrun)%bind_Ok_inv.
  apply bind_Ok_inv in Hrun as ([] & st1 & [Hm1 _]%cm_mkdir_Ok & Hrun).
  apply bind_Ok_inv in Hrun as ([] & st2 & [Hm2 _]%cm_mkdir_Ok & Hrun).
  apply bind_Ok_inv in Hrun as ([] & st3 & [Hm3 _]%cm_mkdir_Ok & Hrun).
  apply bind_Ok_inv in Hrun as ([] & st4 & H4 & H5).
  assert (st0 = st) as ->.
  { destruct (negb (dry_run (research c))); [destruct (negb (which _))|];
      by injection H0. }
  assert (st4 = st3 ∧ validate_max_concurrent (research c) = true) as [-> Hmc].
  { destruct (validate_max_concurrent (research c)); [by injection H4|done]. }
  assert (st' = st3 ∧ validate_warning_threshold c = true) as [-> Hwt].
  { destruct (validate_warning_threshold c); [by injection H5|done]. }
  pose proof (mkdir_parents_dirs _ _ _ (length (resolve cwd (base_dir (workspace (research c)))))
                Hm1) as D1.
  pose proof (mkdir_parents_dirs _ _ _ (length (resolve cwd (cache_dir c))) Hm2) as D2.
  pose proof (mkdir_parents_dirs _ _ _ (length (resolve cwd (log_dir c))) Hm3) as D3.
  rewrite firstn_all in D1, D2, D3.
  split; [|split; [done|split; [done|split; [|split; [|split; [done|]]]]]].
  - intros Hdry. rewrite Hdry in H0. cbn in H0.
    by destruct (which (cli_path (claude (research c)))).
  - eapply fs_is_dir_mkdir; [exact Hm3|]. eapply fs_is_dir_mkdir; [exact Hm2|]. done.
  - eapply fs_is_dir_mkdir; [exact Hm3|]. done.
  - intros k v Hk. eapply mkdir_parents_keeps; [exact Hm3|].
    eapply mkdir_parents_keeps; [exact Hm2|]. by eapply mkdir_parents_keeps.
Qed.

End ConfigFacts.

(** * Specified properties of the execution interface *)

Lemma effective_bound_cases cfg max_conc :
  effective_bound cfg max_conc
  = match max_conc with
    | Some v => if v =? 0 then max_concurrent (claude cfg) else v
    | None => max_concurrent (claude cfg)
    end.
Proof. reflexivity. Qed.


(** A bound below zero makes the semaphore constructor raise: the batch
    raises [ValueError] before any entry is started. *)
Lemma execute_batch_negative_bound cfg decode oss prompts max_conc :
  effective_bound cfg max_conc < 0 →
  execute_batch cfg decode oss prompts max_conc
  = BatchRaises (ValueError "Semaphore initial value must be >= 0").
Proof.
  intros Hneg. unfold execute_batch, Semaphore.
  by destruct (Z.ltb_spec (effective_bound cfg max_conc) 0); [|lia].
Qed.

(** A bound of zero leaves every task waiting for a permit: the batch
    never completes.  The configured default is validated to be positive,
    so this needs a configuration that bypassed [validate]. *)
Lemma execute_batch_zero_bound cfg decode oss prompts max_conc :
  effective_bound cfg max_conc = 0 → prompts ≠ [] →
  execute_batch cfg decode oss prompts max_conc = BatchHangs.
Proof.
  intros Hzero Hne. unfold execute_batch, Semaphore. rewrite Hzero. cbn [Z.ltb Z.compare Z.to_nat].
  assert (∀ cands, first_enabled cfg decode oss prompts cands (batch_init prompts 0) = None)
    as Hstuck.
  { induction cands as [|i cands IH]; [done|]. cbn [first_enabled].
    assert (advance cfg decode oss prompts i (batch_init prompts 0) = None) as ->; [|done].
    unfold advance, batch_init. cbn [slots permits]. rewrite list_lookup_fmap.
    by destruct (prompts !! i). }
  assert (gather (batch_init prompts 0) = None) as Hg.
  { destruct prompts as [|e l]; [done|]. reflexivity. }
  assert (∀ fuel, run_loop cfg decode oss prompts fuel (batch_init prompts 0)
                  = batch_init prompts 0) as ->.
  { intros [|fuel]; cbn [run_loop]; [done|]. by rewrite Hstuck. }
  by rewrite Hg.
Qed.










(** C10.  An explicit timeout of 0 is falsy, so [execute] substitutes the
    configured default for it exactly as it does for an absent timeout:
    the two calls are the same computation. *)
Theorem execute_zero_timeout_is_default cfg decode os prompt ws env_vars :
  effective_timeout cfg (Some 0) = default_timeout (claude cfg)
  ∧ effective_timeout cfg None = default_timeout (claude cfg)
  ∧ execute cfg decode os prompt ws (Some 0) env_vars
    = execute cfg decode os prompt ws None env_vars.
Proof. repeat split. Qed.

(** * Specified properties of the workspace manager *)

(** C4.  When [create_workspace] succeeds and yields a path, then however
    the caller's block ends (it falls through, returns early, or raises),
    [isolated_workspace] runs [cleanup_workspace] on that path in the world
    the block left behind, and only afterwards hands the block's outcome
    on; [cleanup_workspace] itself lets no [Exception] escape. *)
Theorem isolated_workspace_always_cleans_up {B} cfg cwd locked oracle agent_name u
    (block : Path → M world (block_exit B)) w p w1 :
  create_workspace cfg cwd oracle agent_name None u w = (Ok p, w1) →
  ∀ outcome w2, block p w1 = (outcome, w2) →
  ∃ cleaned w3,
    cleanup_workspace cfg cwd locked oracle p w2 = (cleaned, w3)
    ∧ isolated_workspace cfg cwd locked oracle agent_name u block w
      = (match cleaned with Ok _ => outcome | Raise e => Raise e end, w3)
    ∧ (∀ e, cleaned = Raise e → is_Exception e = false).
Proof.
  intros Hcreate outcome w2 Hblock.
  destruct (cleanup_workspace cfg cwd locked oracle p w2) as [cleaned w3] eqn:Hclean.
  exists cleaned, w3. split; [done|]. split.
  - unfold isolated_workspace. rewrite Hcreate. cbn [truthy_path].
    unfold try_finally. rewrite Hblock, Hclean. by destruct cleaned.
  - intros e ->. by eapply cleanup_contains_errors.
Qed.

Lemma isolated_workspace_always_cleans_up_witness :
  ∃ cleaned w3,
    cleanup_workspace Fixture.cfg0 FixtureWs.cwd0 FixtureWs.nothing_locked
      (FixtureWs.git_status 1) FixtureWs.ws_path
      (snd (create_workspace Fixture.cfg0 FixtureWs.cwd0 (FixtureWs.git_status 1)
              "test-agent" None 0%N FixtureWs.w_empty))
    = (cleaned, w3)
    ∧ isolated_workspace Fixture.cfg0 FixtureWs.cwd0 FixtureWs.nothing_locked
        (FixtureWs.git_status 1) "test-agent" 0%N
        (λ _, raise (ValueError "block failed") : M world (block_exit unit))
        FixtureWs.w_empty
      = (match cleaned with Ok _ => Raise (ValueError "block failed") | Raise e => Raise e end,
         w3)
    ∧ (∀ e, cleaned = Raise e → is_Exception e = false).
Proof.
  apply (isolated_workspace_always_cleans_up Fixture.cfg0 FixtureWs.cwd0
           FixtureWs.nothing_locked (FixtureWs.git_status 1) "test-agent" 0%N
           (λ _, raise (ValueError "block failed")) FixtureWs.w_empty FixtureWs.ws_path
           (snd (create_workspace Fixture.cfg0 FixtureWs.cwd0 (FixtureWs.git_status 1)
                   "test-agent" None 0%N FixtureWs.w_empty))).
  - vm_compute. reflexivity.
  - reflexivity.
Defined.











(** * Further properties: [src/claude/cli_interface.py] *)

(** X1.  In dry-run mode [execute] returns a successful result describing
    the command, spawns and kills nothing, and does not look at the
    operating system, the timeout or the extra environment: any two calls
    with the same prompt and workspace give the same result and trace. *)
Theorem execute_dry_run_has_no_side_effect cfg decode os os' prompt ws
    timeout timeout' env_vars env_vars' s :
  dry_run cfg = true →
  ∃ r s',
    execute cfg decode os prompt ws timeout env_vars s = (Ok r, s')
    ∧ execute cfg decode os' prompt ws timeout' env_vars' s = (Ok r, s')
    ∧ success r = true ∧ exit_code r = 0 ∧ error r = ""
    ∧ output r = "[DRY RUN] Would execute: " +:+ cli_path (claude cfg) +:+ " -p " +:+ prompt
    ∧ spawned (trace s') = spawned (trace s)
    ∧ existsb is_kill (trace s') = existsb is_kill (trace s).
Proof.
  intros Hdry. eexists _, _.
  split; [by apply execute_dry_run|]. split; [by apply execute_dry_run|].
  cbn [success exit_code error output trace].
  split; [done|]. split; [done|]. split; [done|]. split; [done|]. split.
  - rewrite !spawned_app, spawned_command_log. cbn. by rewrite app_nil_r.
  - rewrite !existsb_app, command_log_kill. cbn. by rewrite orb_false_r.
Qed.

Lemma execute_dry_run_has_no_side_effect_witness :
  ∃ r s',
    execute FixtureRest.cfg_dry Fixture.decode0 (Fixture.os_with Fixture.proc_hang)
      "Say 'ok'" None None None exec_init = (Ok r, s')
    ∧ execute FixtureRest.cfg_dry Fixture.decode0 FixtureRest.os_no_cli
        "Say 'ok'" None (Some 1) None exec_init = (Ok r, s')
    ∧ success r = true ∧ exit_code r = 0 ∧ error r = ""
    ∧ output r = "[DRY RUN] Would execute: claude -p Say 'ok'"
    ∧ spawned (trace s') = []
    ∧ existsb is_kill (trace s') = false.
Proof.
  exact (execute_dry_run_has_no_side_effect FixtureRest.cfg_dry Fixture.decode0
           (Fixture.os_with Fixture.proc_hang) FixtureRest.os_no_cli "Say 'ok'" None
           None (Some 1) None None exec_init eq_refl).
Defined.



(** X3.  Whatever happens, one call to [execute] spawns at most one child,
    with exactly the argument vector [cli_path, "-p", prompt]; every kill it
    issues is followed at once by awaiting the child; and it kills only on
    the way to raising [ClaudeTimeoutError]. *)
Theorem execute_spawns_at_most_once_and_reaps cfg decode os prompt ws timeout env_vars s :
  ∃ new,
    trace (snd (execute cfg decode os prompt ws timeout env_vars s)) = trace s ++ new
    ∧ (spawned new = [] ∨ spawned new = [[cli_path (claude cfg); "-p"; prompt]])
    ∧ kills_reaped new = true
    ∧ (existsb is_kill new = true →
       ∃ msg, fst (execute cfg decode os prompt ws timeout env_vars s)
              = Raise (ClaudeTimeoutError msg (effective_timeout cfg timeout))).
Proof.
  destruct (execute_appends cfg decode os prompt ws timeout env_vars s) as (new & Htr & Hshape).
  exists new. split; [exact Htr|].
  pose proof (command_log_no_kill cfg) as Hcl.
  pose proof (output_log_no_kill cfg) as Hol.
  destruct Hshape as [(_ & -> & _)|[(_ & e & _ & _ & ->)
                     |[(_ & p & _ & _ & -> & _)|(_ & p & msg & _ & _ & He & ->)]]].
  - rewrite spawned_app, spawned_command_log, kills_reaped_logs_then, existsb_app,
      command_log_kill by done. cbn. split; [by left|]. done.
  - rewrite spawned_app, spawned_command_log, kills_reaped_logs_then, existsb_app,
      command_log_kill by done.
    destruct (is_Exception e); cbn; (split; [by left|]); done.
  - rewrite !spawned_app, spawned_command_log, spawned_output_log.
    rewrite kills_reaped_logs_then by done.
    rewrite !existsb_app, command_log_kill, output_log_kill. cbn.
    split; [by right|]. split; [|done].
    by apply kills_reaped_no_kill.
  - rewrite spawned_app, spawned_command_log, kills_reaped_logs_then, existsb_app,
      command_log_kill by done. cbn.
    split; [by right|]. split; [done|]. intros _. by exists msg.
Qed.

Lemma execute_spawns_at_most_once_and_reaps_witness :
  ∃ new,
    trace (snd (execute Fixture.cfg0 Fixture.decode0 (Fixture.os_with Fixture.proc_hang)
                  "rm -rf /; echo $HOME" None (Some 5) None exec_init)) = [] ++ new
    ∧ (spawned new = [] ∨ spawned new = [["claude"; "-p"; "rm -rf /; echo $HOME"]])
    ∧ kills_reaped new = true
    ∧ (existsb is_kill new = true →
       ∃ msg, fst (execute Fixture.cfg0 Fixture.decode0 (Fixture.os_with Fixture.proc_hang)
                     "rm -rf /; echo $HOME" None (Some 5) None exec_init)
              = Raise (ClaudeTimeoutError msg 5)).
Proof.
  exact (execute_spawns_at_most_once_and_reaps Fixture.cfg0 Fixture.decode0
           (Fixture.os_with Fixture.proc_hang) "rm -rf /; echo $HOME" None (Some 5) None
           exec_init).
Defined.



(** X5.  [execute_with_agent] hands the agent name and the query to the CLI
    inside one argument, ["Use <agent> to <query>"], with the environment of
    the parent process unchanged; a result it returns is tagged with the
    agent name and records that command line; and it raises exactly the
    error [execute] raises for that prompt. *)
Theorem execute_with_agent_single_argument cfg decode os agent_name query ws timeout s :
  let prompt := "Use " +:+ agent_name +:+ " to " +:+ query in
  let run := execute_with_agent cfg decode os agent_name query ws timeout s in
  ∃ new,
    trace (snd run) = trace s ++ new
    ∧ (∀ cmd cwd env, Spawn cmd cwd env ∈ new →
         cmd = [cli_path (claude cfg); "-p"; prompt]
         ∧ cwd = child_cwd ws ∧ env = os_environ os)
    ∧ (∀ r tag, fst run = Ok (r, tag) →
         tag = agent_name
         ∧ command r = cli_path (claude cfg) +:+ " -p " +:+ prompt
         ∧ cr_workspace r = ws)
    ∧ (∀ e, fst run = Raise e →
         ∃ s1, fst (execute cfg decode os prompt ws timeout None s1) = Raise e).
Proof.
  intros prompt run. subst run.
  unfold execute_with_agent, mbind, M_bind, emit, modify.
  set (s1 := {| trace := trace s ++ [Log INFO "Invoking sub-agent"];
                clock_reads := clock_reads s |}).
  fold prompt.
  destruct (execute_appends cfg decode os prompt ws timeout None s1) as (new & Htr & Hshape).
  exists ([Log INFO "Invoking sub-agent"] ++ new).
  assert (∀ cmd cwd env, Spawn cmd cwd env ∈ [Log INFO "Invoking sub-agent"] ++ new →
            cmd = [cli_path (claude cfg); "-p"; prompt]
            ∧ cwd = child_cwd ws ∧ env = os_environ os) as Hspawn.
  { intros cmd cwd env [Hin|Hin]%elem_of_cons; [done|].
    destruct (spawn_not_logged cfg cmd cwd env) as [Hcl Hol].
    destruct Hshape as [(_ & -> & _)|[(_ & e & _ & _ & ->)
                       |[(_ & p & _ & _ & -> & _)|(_ & p & msg & _ & _ & _ & ->)]]];
      apply elem_of_app in Hin as [Hin|Hin]; try done.
    - apply elem_of_cons in Hin as [Hin|Hin]; [done|]. by apply elem_of_nil in Hin.
    - destruct (is_Exception e); [|by apply elem_of_nil in Hin].
      apply elem_of_cons in Hin as [Hin|Hin]; [done|]. by apply elem_of_nil in Hin.
    - apply elem_of_cons in Hin as [Hin|Hin]; [by injection Hin as -> -> ->|done].
    - apply elem_of_cons in Hin as [Hin|Hin]; [by injection Hin as -> -> ->|].
      repeat (apply elem_of_cons in Hin as [Hin|Hin]; [done|]). by apply elem_of_nil in Hin. }
  destruct (execute cfg decode os prompt ws timeout None s1) as [[r|e] s2] eqn:Hrun;
    unfold mret, M_ret; cbn [fst snd] in *.
  - split; [by rewrite Htr; unfold s1; cbn [trace]; rewrite <- app_assoc|]. split; [exact Hspawn|]. split; [|done].
    intros r0 tag [= <- <-].
    destruct Hshape as [(_ & _ & r' & [= <-] & _ & _ & Hc & Hw)|[(_ & ? & _ & ? & _)
                       |[(_ & p & _ & _ & _ & r' & [= <-] & _ & _ & Hc & Hw)
                        |(_ & ? & ? & _ & _ & ? & _)]]]; try done.
  - split; [by rewrite Htr; unfold s1; cbn [trace]; rewrite <- app_assoc|]. split; [exact Hspawn|]. split; [done|].
    intros e' [= <-]. exists s1. by rewrite Hrun.
Qed.

Lemma execute_with_agent_single_argument_witness :
  ∃ new,
    trace (snd (execute_with_agent Fixture.cfg0 Fixture.decode0
                  (Fixture.os_with FixtureRest.proc_ok) "test-agent" "explain; what you are"
                  None (Some 30) exec_init)) = [] ++ new
    ∧ spawned new = [["claude"; "-p"; "Use test-agent to explain; what you are"]].
Proof.
  destruct (execute_with_agent_single_argument Fixture.cfg0 Fixture.decode0
              (Fixture.os_with FixtureRest.proc_ok) "test-agent" "explain; what you are"
              None (Some 30) exec_init) as (new & Htr & _).
  exists new. split; [exact Htr|].
  vm_compute in Htr. subst new. reflexivity.
Defined.

(** X6.  Constructing a [ClaudeInterface] checks the CLI.  In dry-run mode
    the version probe is not run at all.  Otherwise the check passes exactly
    when the probe completes with status 0; a missing executable, a probe
    that takes more than five seconds and a non-zero status all surface as
    [ClaudeNotFoundError]; any other error of the probe reaches the caller
    as it is. *)
Theorem verify_claude_available_outcomes cfg run_probe :
  let check := _verify_claude_available cfg run_probe in
  let probe := run_probe [cli_path (claude cfg); "--version"] in
  (dry_run cfg = true → ∀ run_probe', _verify_claude_available cfg run_probe' = check)
  ∧ ((∃ evs, check = inr evs)
     ↔ dry_run cfg = true ∨ ∃ out err, probe = ProbeCompleted 0 out err)
  ∧ (∀ e, check = inl (Uncaught e) ↔ dry_run cfg = false ∧ probe = ProbeRaises e)
  ∧ (dry_run cfg = false →
     probe = ProbeFileNotFound ∨ probe = ProbeTimeoutExpired
     ∨ (∃ rc out err, probe = ProbeCompleted rc out err ∧ rc ≠ 0) →
     ∃ msg, check = inl (ClaudeNotFoundError msg)).
Proof.
  intros check probe. subst check probe. unfold _verify_claude_available.
  destruct (dry_run cfg) eqn:Hdry.
  - split; [done|]. split; [split; [by left|by eexists]|]. split; [|done].
    intros e. split; [done|]. by intros [? _].
  - split; [done|].
    destruct (run_probe [cli_path (claude cfg); "--version"]) as [rc out err| | |e0].
    + destruct (Z.eqb_spec rc 0) as [->|Hrc]; cbn [negb].
      * split; [split; [right; by eexists _, _|by eexists]|].
        split; [intros e; split; [done|by intros [_ ?]]|].
        intros _ [?|[?|(rc & o & e & [= <- _ _] & Hne)]]; done.
      * split; [split; [by intros [? ?]|intros [?|(? & ? & [= ? _ _])]; done]|].
        split; [intros e; split; [done|by intros [_ ?]]|].
        intros _ _. by eexists.
    + split; [split; [by intros [? ?]|intros [?|(? & ? & ?)]; done]|].
      split; [intros e; split; [done|by intros [_ ?]]|].
      intros _ _. by eexists.
    + split; [split; [by intros [? ?]|intros [?|(? & ? & ?)]; done]|].
      split; [intros e; split; [done|by intros [_ ?]]|].
      intros _ _. by eexists.
    + split; [split; [by intros [? ?]|intros [?|(? & ? & ?)]; done]|].
      split; [intros e; split; [by intros [= <-]|by intros [_ [= <-]]]|].
      intros _ [?|[?|(? & ? & ? & ? & _)]]; done.
Qed.

Lemma verify_claude_available_outcomes_witness :
  (∃ msg, _verify_claude_available Fixture.cfg0 (λ _, ProbeFileNotFound)
          = inl (ClaudeNotFoundError msg))
  ∧ ∃ evs, _verify_claude_available Fixture.cfg0 (λ _, ProbeCompleted 0 "1.0.0" "") = inr evs.
Proof.
  split.
  - apply (proj2 (proj2 (proj2 (verify_claude_available_outcomes Fixture.cfg0
                                  (λ _, ProbeFileNotFound))))); [reflexivity|by left].
  - apply (proj1 (proj2 (verify_claude_available_outcomes Fixture.cfg0
                           (λ _, ProbeCompleted 0 "1.0.0" "")))).
    right. by eexists _, _.
Defined.

(** X7.  In dry-run mode a batch never has a live child process, in any
    interleaving, and it returns one successful result per entry, each
    describing the command of its own entry. *)
Theorem execute_batch_dry_run_spawns_nothing cfg decode oss prompts max_conc :
  dry_run cfg = true →
  0 < effective_bound cfg max_conc →
  (∀ s, reachable cfg decode oss prompts
          (batch_init prompts (Z.to_nat (effective_bound cfg max_conc))) s →
        processes_alive s = 0%nat)
  ∧ ∃ results,
      execute_batch cfg decode oss prompts max_conc = BatchReturns results
      ∧ length results = length prompts
      ∧ ∀ i entry, prompts !! i = Some entry →
          ∃ r, results !! i = Some (Ok r)
               ∧ success r = true ∧ exit_code r = 0
               ∧ output r = "[DRY RUN] Would execute: "
                              +:+ cli_path (claude cfg) +:+ " -p " +:+ entry.1
               ∧ cr_workspace r = entry.2.
Proof.
  intros Hdry Hpos. split.
  - intros s Hreach. eapply reachable_no_process; [|exact Hreach].
    intros j entry _. by apply dry_run_entry.
  - eexists. split; [by apply execute_batch_returns|].
    split; [apply length_imap|].
    intros i entry Hi.
    destruct (dry_run_entry cfg decode oss i entry Hdry)
      as (_ & r & Hr & Hs & Hc & _ & Ho & Hw).
    exists r. unfold expected_results. rewrite list_lookup_imap, Hi. cbn.
    by rewrite Hr.
Qed.

Lemma execute_batch_dry_run_spawns_nothing_witness :
  ∃ results,
    execute_batch FixtureRest.cfg_dry Fixture.decode0 (λ _, FixtureRest.os_no_cli)
      Fixture.three_prompts None = BatchReturns results
    ∧ length results = 3%nat.
Proof.
  destruct (execute_batch_dry_run_spawns_nothing FixtureRest.cfg_dry Fixture.decode0
              (λ _, FixtureRest.os_no_cli) Fixture.three_prompts None eq_refl eq_refl)
    as (_ & results & Hrun & Hlen & _).
  exists results. split; [exact Hrun|exact Hlen].
Defined.

(** X8.  The bounds for which the semaphore does not work.  A negative
    bound makes [execute_batch] raise [ValueError] before any task starts.
    A bound of zero with a non-empty batch deadlocks: no task can ever take
    a step, so [gather] never completes.  An empty batch returns the empty
    list for every bound that is not negative. *)
Theorem execute_batch_degenerate_bounds cfg decode oss prompts max_conc :
  (effective_bound cfg max_conc < 0 →
   execute_batch cfg decode oss prompts max_conc
   = BatchRaises (ValueError "Semaphore initial value must be >= 0"))
  ∧ (effective_bound cfg max_conc = 0 → prompts ≠ [] →
     execute_batch cfg decode oss prompts max_conc = BatchHangs
     ∧ gather (batch_init prompts 0) = None
     ∧ ∀ s, reachable cfg decode oss prompts (batch_init prompts 0) s →
            s = batch_init prompts 0 ∧ in_flight s = 0%nat)
  ∧ (0 ≤ effective_bound cfg max_conc → prompts = [] →
     execute_batch cfg decode oss prompts max_conc = BatchReturns []).
Proof.
  split; [apply execute_batch_negative_bound|]. split.
  - intros Hz Hne. split; [by apply execute_batch_zero_bound|]. split.
    + destruct prompts as [|entry rest]; [done|]. reflexivity.
    + intros s Hreach. apply reachable_zero_permits in Hreach as ->.
      split; [done|]. unfold in_flight. cbn [slots batch_init].
      apply count_if_zero, Forall_fmap, Forall_forall. done.
  - intros Hge ->. unfold execute_batch, Semaphore.
    destruct (Z.ltb_spec (effective_bound cfg max_conc) 0); [lia|]. reflexivity.
Qed.

Lemma execute_batch_degenerate_bounds_witness :
  execute_batch Fixture.cfg0 Fixture.decode0 (λ _, Fixture.os_with FixtureRest.proc_ok)
    Fixture.three_prompts (Some (-1))
  = BatchRaises (ValueError "Semaphore initial value must be >= 0")
  ∧ execute_batch Fixture.cfg0 Fixture.decode0 (λ _, Fixture.os_with FixtureRest.proc_ok)
      [] (Some 4) = BatchReturns [].
Proof.
  split.
  - apply (proj1 (execute_batch_degenerate_bounds Fixture.cfg0 Fixture.decode0
                    (λ _, Fixture.os_with FixtureRest.proc_ok) Fixture.three_prompts
                    (Some (-1)))).
    reflexivity.
  - apply (proj2 (proj2 (execute_batch_degenerate_bounds Fixture.cfg0 Fixture.decode0
                           (λ _, Fixture.os_with FixtureRest.proc_ok) [] (Some 4))));
      [discriminate|reflexivity].
Defined.



(** X10.  [combined_output] starts with the standard output; it is the
    standard output alone exactly when the error text is empty, and
    otherwise the two joined by one newline. *)
Theorem combined_output_extends_output r :
  String.prefix (output r) (combined_output r) = true
  ∧ (combined_output r = output r ↔ error r = "")
  ∧ (error r ≠ "" →
     combined_output r = output r +:+ String "010" (error r)
     ∧ String.length (combined_output r)
       = (String.length (output r) + 1 + String.length (error r))%nat).
Proof.
  unfold combined_output. split; [apply str_prefix_app|].
  destruct (String.eqb_spec (error r) "") as [->|Hne].
  - split; [by rewrite str_app_empty_r|done].
  - split.
    + split; [|done]. intros Heq.
      apply (f_equal String.length) in Heq. rewrite str_length_app in Heq.
      cbn in Heq. lia.
    + intros _. split; [done|]. rewrite str_length_app. cbn. lia.
Qed.

Lemma combined_output_extends_output_witness :
  combined_output
    {| success := false; output := "partial"; error := "boom"; exit_code := 1;
       execution_time := 2 # 1; command := "claude -p x"; cr_workspace := None |}
  = "partial" +:+ String "010" "boom".
Proof.
  refine (proj1 (proj2 (proj2 (combined_output_extends_output
            {| success := false; output := "partial"; error := "boom"; exit_code := 1;
               execution_time := 2 # 1; command := "claude -p x"; cr_workspace := None |})) _)).
  discriminate.
Defined.

(** X11.  The child that [execute] spawns sees the environment of the
    parent process with the entries of [env_vars] laid over it: a variable
    named in [env_vars] has the value given there, every other variable the
    value of the parent. *)
Theorem execute_child_environment cfg decode os prompt ws timeout env_vars s new cmd cwd env :
  trace (snd (execute cfg decode os prompt ws timeout env_vars s)) = trace s ++ new →
  Spawn cmd cwd env ∈ new →
  ∀ k, env !! k = match env_vars with
                  | Some vars => match vars !! k with
                                 | Some v => Some v
                                 | None => os_environ os !! k
                                 end
                  | None => os_environ os !! k
                  end.
Proof.
  intros Htr Hin k.
  destruct (execute_appends cfg decode os prompt ws timeout env_vars s) as (new' & Htr' & Hshape).
  rewrite Htr in Htr'. apply app_inv_head in Htr' as ->.
  destruct (spawn_not_logged cfg cmd cwd env) as [Hcl Hol].
  assert (env = child_env os env_vars) as ->.
  { destruct Hshape as [(_ & -> & _)|[(_ & e & _ & _ & ->)
                       |[(_ & p & _ & _ & -> & _)|(_ & p & msg & _ & _ & _ & ->)]]];
      apply elem_of_app in Hin as [Hin|Hin]; try done.
    - apply elem_of_cons in Hin as [Hin|Hin]; [done|]. by apply elem_of_nil in Hin.
    - destruct (is_Exception e); [|by apply elem_of_nil in Hin].
      apply elem_of_cons in Hin as [Hin|Hin]; [done|]. by apply elem_of_nil in Hin.
    - apply elem_of_app in Hin as [Hin|Hin]; [|done].
      apply elem_of_cons in Hin as [Hin|Hin]; [by injection Hin|].
      by apply elem_of_nil in Hin.
    - apply elem_of_cons in Hin as [Hin|Hin]; [by injection Hin|].
      repeat (apply elem_of_cons in Hin as [Hin|Hin]; [done|]). by apply elem_of_nil in Hin. }
  unfold child_env, Py.update. destruct env_vars as [vars|]; [|done].
  case_bool_decide as Hempty.
  - subst vars. by rewrite lookup_empty.
  - rewrite lookup_union. destruct (vars !! k), (os_environ os !! k); done.
Qed.

Lemma execute_child_environment_witness :
  let os := {| os_environ := {[ "ANTHROPIC_MODEL" := "haiku"; "HOME" := "/home/dev" ]};
               loop_time := λ n, inject_Z (Z.of_nat n);
               spawn_exec := λ _ _ _, inr FixtureRest.proc_ok |} in
  let vars : gmap string string := {[ "ANTHROPIC_MODEL" := "opus" ]} in
  child_env os (Some vars) !! "ANTHROPIC_MODEL" = Some "opus"
  ∧ child_env os (Some vars) !! "HOME" = Some "/home/dev".
Proof.
  intros os vars.
  pose proof (execute_child_environment Fixture.cfg0 Fixture.decode0 os "Say 'ok'" None None
                (Some vars) exec_init
                [Spawn ["claude"; "-p"; "Say 'ok'"] None (child_env os (Some vars))]
                ["claude"; "-p"; "Say 'ok'"] None (child_env os (Some vars))
                eq_refl (list_elem_of_here _ _)) as Henv.
  split; [exact (Henv "ANTHROPIC_MODEL")|exact (Henv "HOME")].
Defined.

(** * Further properties: [src/claude/workspace_manager.py] *)

(** X12.  [_is_git_repo] runs one command and lets no [Exception] escape:
    it answers [True] exactly when [git rev-parse --git-dir] completes with
    status 0, and [False] when git cannot be launched; only an error that
    is not an [Exception] (a cancellation) propagates.  It logs nothing. *)
Theorem is_git_repo_contains_errors oracle w :
  let sus := oracle (awaits w) ["git"; "rev-parse"; "--git-dir"] in
  let run := _is_git_repo oracle w in
  (fst run = Ok true ↔ ∃ out err, response sus = CmdCompleted 0 out err)
  ∧ (∀ e, response sus = CmdRaises e → is_Exception e = true → fst run = Ok false)
  ∧ (∀ e, fst run = Raise e → is_Exception e = false ∧ response sus = CmdRaises e)
  ∧ awaits (snd run) = S (awaits w)
  ∧ log (snd run) = log w.
Proof.
  intros sus run. subst sus run.
  unfold _is_git_repo, try_except, mbind, M_bind, _run_command.
  destruct (response (oracle (awaits w) ["git"; "rev-parse"; "--git-dir"]))
    as [e|rc out err]; cbn.
  - destruct (is_Exception e) eqn:He; cbn.
    + split; [split; [done|by intros (? & ? & ?)]|]. split; [done|]. done.
    + split; [split; [done|by intros (? & ? & ?)]|].
      split; [intros e' [= <-]; congruence|]. split; [|done].
      by intros e' [= <-].
  - split; [|done]. split.
    + intros [= Hrc]. apply Z.eqb_eq in Hrc as ->. by eexists _, _.
    + by intros (? & ? & [= -> _ _]).
Qed.

Lemma is_git_repo_contains_errors_witness :
  fst (_is_git_repo FixtureWs.git_unlaunchable FixtureWs.w_empty) = Ok false.
Proof.
  exact (proj1 (proj2 (is_git_repo_contains_errors FixtureWs.git_unlaunchable
                         FixtureWs.w_empty)) _ eq_refl eq_refl).
Defined.

(** X13.  [create_workspace] registers the workspace only when it
    succeeds.  When nothing else touches the registry meanwhile, a call
    that returns has added exactly the record [workspace_id -> path], and a
    call that raises has left the registry as it was. *)
Theorem create_workspace_registers_on_success_only cfg cwd oracle agent_name use_worktree u w :
  (∀ n cmd, on_registry (oracle n cmd) = id) →
  let run := create_workspace cfg cwd oracle agent_name use_worktree u w in
  match fst run with
  | Ok p =>
      active_workspaces (snd run)
      = <[workspace_id_of cfg agent_name u := p]> (active_workspaces w)
  | Raise _ => active_workspaces (snd run) = active_workspaces w
  end.
Proof.
  intros quiet run. subst run. unfold create_workspace.
  set (stage1 := if match use_worktree with
                    | Some b => b
                    | None => use_worktrees (workspace cfg)
                    end then _is_git_repo oracle else mret false).
  assert (preserves same_registry stage1) as H1.
  { apply preserves_if; [by apply same_registry_is_git_repo|by apply preserves_ret]. }
  specialize (H1 w).
  destruct (stage1 w) as [[versioned|e] w1] eqn:E1; cbn [snd] in H1; unfold same_registry in H1;
    [rewrite (bind_run _ _ _ _ _ E1)|by rewrite (bind_raise _ _ _ _ _ E1)].
  set (stage2 := if versioned
                 then _create_git_worktree cfg oracle (workspace_id_of cfg agent_name u)
                 else _create_temp_workspace cfg cwd oracle (workspace_id_of cfg agent_name u)).
  assert (preserves same_registry stage2) as H2.
  { apply preserves_if;
      [by apply same_registry_create_git_worktree|by apply same_registry_create_temp_workspace]. }
  specialize (H2 w1).
  destruct (stage2 w1) as [[p|e] w2] eqn:E2; cbn [snd] in H2; unfold same_registry in H2;
    [rewrite (bind_run _ _ _ _ _ E2)
    |rewrite (bind_raise _ _ _ _ _ E2); cbn; congruence].
  pose proof (same_registry_setup cfg cwd p w2) as H3.
  destruct (_setup_agent_definitions cfg cwd p w2) as [[[]|e] w3] eqn:E3; cbn [snd] in H3;
    unfold same_registry in H3;
    [rewrite (bind_run _ _ _ _ _ E3)
    |rewrite (bind_raise _ _ _ _ _ E3); cbn; congruence].
  unfold mbind, M_bind, modify, logger, mret, M_ret. cbn. by rewrite H3, H2, H1.
Qed.

Lemma create_workspace_registers_on_success_only_witness :
  active_workspaces
    (snd (create_workspace Fixture.cfg0 FixtureWs.cwd0 (FixtureWs.git_status 1)
            "test-agent" None 0%N FixtureMore.w_dir_md)) = ∅.
Proof.
  exact (create_workspace_registers_on_success_only Fixture.cfg0 FixtureWs.cwd0
           (FixtureWs.git_status 1) "test-agent" None 0%N FixtureMore.w_dir_md
           (λ _ _, eq_refl)).
Defined.

(** X14.  [create_workspace] works inside the new workspace only.  When
    the git commands and whatever else runs meanwhile keep to the
    workspace path, then, whether the call returns or raises, every file
    and directory outside that path is still there unchanged, and what is
    new outside it is a directory on the way down to the workspace. *)
Theorem create_workspace_leaves_rest_alone cfg cwd oracle agent_name use_worktree u w :
  let p := resolve cwd (base_dir (workspace cfg) // workspace_id_of cfg agent_name u) in
  (∀ n cmd m, fs_outside_kept p m (on_fs (oracle n cmd) m)) →
  let w' := snd (create_workspace cfg cwd oracle agent_name use_worktree u w) in
  ∀ k, ¬ p `prefix_of` k →
    (∀ v, fs w !! k = Some v → fs w' !! k = Some v)
    ∧ (fs w !! k = None →
       fs w' !! k = None ∨ (fs w' !! k = Some Dir ∧ k `prefix_of` p)).
Proof.
  intros p quiet w' k Hk.
  destruct (outside_kept_create_workspace cfg cwd oracle agent_name u quiet use_worktree w k Hk)
    as [Heq|(Hnone & Hdir & Hpre)]; fold w' in Heq || fold w' in Hdir.
  - rewrite Heq. split; [done|]. by left.
  - split; [congruence|]. by right.
Qed.

Lemma create_workspace_leaves_rest_alone_witness :
  fs (snd (create_workspace Fixture.cfg0 FixtureWs.cwd0 (FixtureWs.git_status 1)
             "test-agent" None 0%N FixtureWs.w_empty))
    !! ["repo"; ".claude"; "agents"; "foo.md"]
  = Some (File "project foo").
Proof.
  refine (proj1 (create_workspace_leaves_rest_alone Fixture.cfg0 FixtureWs.cwd0
                   (FixtureWs.git_status 1) "test-agent" None 0%N FixtureWs.w_empty
                   (λ _ _ m, fs_outside_kept_refl _ m)
                   ["repo"; ".claude"; "agents"; "foo.md"] _) _ eq_refl).
  by apply (bool_decide_unpack _).
Defined.

(** X15.  [cleanup_workspace] removes and never creates, and it keeps to
    the workspace.  When the git commands and whatever else runs meanwhile
    only delete at or below the path and leave the registry alone, then
    after the call no file is new or changed, everything outside the path
    is still there, and every registry record other than the one under the
    final component of the path is as before. *)
Theorem cleanup_workspace_leaves_rest_alone cfg cwd locked oracle path w :
  let p := resolve cwd path in
  (∀ n cmd m, fs_shrinks_under p m (on_fs (oracle n cmd) m)) →
  (∀ n cmd, on_registry (oracle n cmd) = id) →
  let w' := snd (cleanup_workspace cfg cwd locked oracle path w) in
  fs w' ⊆ fs w
  ∧ (∀ k, ¬ p `prefix_of` k → fs w' !! k = fs w !! k)
  ∧ (∀ id, id ≠ path_name path → active_workspaces w' !! id = active_workspaces w !! id).
Proof.
  intros p quiet_fs quiet_registry w'.
  destruct (cleanup_frame_workspace cfg cwd locked oracle path quiet_fs quiet_registry w)
    as [[Hsub Hout] Hreg].
  done.
Qed.

Lemma cleanup_workspace_leaves_rest_alone_witness :
  fs (snd (cleanup_workspace Fixture.cfg0 FixtureWs.cwd0 FixtureWs.out_locked
             (FixtureWs.git_status 1) FixtureWs.ws_path FixtureWs.w_worktree))
    !! ["repo"; ".claude"; "agents"; "foo.md"]
  = Some (File "project foo").
Proof.
  refine (proj1 (proj2 (cleanup_workspace_leaves_rest_alone Fixture.cfg0 FixtureWs.cwd0
                          FixtureWs.out_locked (FixtureWs.git_status 1) FixtureWs.ws_path
                          FixtureWs.w_worktree
                          (λ _ _ m, fs_shrinks_under_refl _ m) (λ _ _, eq_refl)))
            ["repo"; ".claude"; "agents"; "foo.md"] _).
  by apply (bool_decide_unpack _).
Defined.

(** X16.  The registry is keyed by the workspace id, but
    [cleanup_workspace] removes the record under the final component of the
    path.  When the two differ, which they do when the agent name contains
    a slash, the record of a workspace that [create_workspace] registered
    is still in the registry after that workspace was cleaned up. *)
Theorem cleanup_keeps_record_of_nested_id cfg cwd locked oracle agent_name use_worktree u w p w1 :
  (∀ n cmd, on_registry (oracle n cmd) = id) →
  create_workspace cfg cwd oracle agent_name use_worktree u w = (Ok p, w1) →
  path_name p ≠ workspace_id_of cfg agent_name u →
  active_workspaces (snd (cleanup_workspace cfg cwd locked oracle p w1))
    !! workspace_id_of cfg agent_name u = Some p.
Proof.
  intros quiet Hcreate Hname.
  apply create_workspace_result in Hcreate as (_ & _ & Hreg).
  rewrite <- Hreg.
  assert (preserves (λ a b, ∀ id, id ≠ path_name p →
                              active_workspaces b !! id = active_workspaces a !! id)
            (cleanup_workspace cfg cwd locked oracle p)) as Hframe.
  { apply preserves_cleanup_workspace.
    - done.
    - intros a b c Hab Hbc id Hid. by rewrite Hbc, Hab.
    - done.
    - intros cmd w0 id Hid. unfold _run_command.
      destruct (response (oracle (awaits w0) cmd)); cbn; by rewrite quiet.
    - done.
    - intros w0 id Hid. cbn. by rewrite lookup_delete_ne. }
  apply Hframe. congruence.
Qed.

Lemma cleanup_keeps_record_of_nested_id_witness :
  ∃ p w1,
    create_workspace Fixture.cfg0 FixtureWs.cwd0 (FixtureWs.git_status 1)
      "team/agent" None 0%N FixtureWs.w_empty = (Ok p, w1)
    ∧ active_workspaces
        (snd (cleanup_workspace Fixture.cfg0 FixtureWs.cwd0 FixtureWs.nothing_locked
                (FixtureWs.git_status 1) p w1))
        !! "research_team/agent_00000000" = Some p.
Proof.
  eexists _, _. split; [vm_compute; reflexivity|].
  apply (cleanup_keeps_record_of_nested_id Fixture.cfg0 FixtureWs.cwd0
           FixtureWs.nothing_locked (FixtureWs.git_status 1) "team/agent" None 0%N
           FixtureWs.w_empty).
  - intros n cmd. reflexivity.
  - vm_compute. reflexivity.
  - vm_compute. discriminate.
Defined.

(** X17.  When [create_workspace] raises inside [isolated_workspace], the
    caller's block is not run and no cleanup is attempted: the error
    reaches the caller, and whatever [create_workspace] had put on disk
    before it failed stays there. *)
Theorem isolated_workspace_create_failure {B} cfg cwd locked oracle agent_name u
    (block : Path → M world (block_exit B)) w e w1 :
  create_workspace cfg cwd oracle agent_name None u w = (Raise e, w1) →
  isolated_workspace cfg cwd locked oracle agent_name u block w = (Raise e, w1).
Proof.
  intros Hcreate. unfold isolated_workspace. rewrite Hcreate. reflexivity.
Qed.

(** Seeding fails on a directory named [drafts.md]; the half-made
    workspace directory is left behind, unregistered. *)
Lemma isolated_workspace_create_failure_witness :
  ∃ e w1,
    isolated_workspace Fixture.cfg0 FixtureWs.cwd0 FixtureWs.nothing_locked
      (FixtureWs.git_status 1) "test-agent" 0%N
      (λ _, mret FallThrough : M world (block_exit unit)) FixtureMore.w_dir_md
    = (Raise e, w1)
    ∧ fs_is_dir (fs w1) FixtureWs.ws_key = true
    ∧ active_workspaces w1 = ∅.
Proof.
  eexists _, _. split.
  - apply (isolated_workspace_create_failure Fixture.cfg0 FixtureWs.cwd0
             FixtureWs.nothing_locked (FixtureWs.git_status 1) "test-agent" 0%N).
    vm_compute. reflexivity.
  - split; vm_compute; reflexivity.
Defined.

(** X18.  With cleanup-on-exit disabled, [isolated_workspace] hands on the
    outcome of the caller's block and leaves the files and the registry
    exactly as the block left them: the workspace stays on disk and stays
    registered, and no command is run. *)
Theorem isolated_workspace_keeps_when_cleanup_disabled {B} cfg cwd locked oracle agent_name u
    (block : Path → M world (block_exit B)) w p w1 outcome w2 :
  cleanup_on_exit (workspace cfg) = false →
  create_workspace cfg cwd oracle agent_name None u w = (Ok p, w1) →
  block p w1 = (outcome, w2) →
  ∃ w3,
    isolated_workspace cfg cwd locked oracle agent_name u block w = (outcome, w3)
    ∧ fs w3 = fs w2
    ∧ active_workspaces w3 = active_workspaces w2
    ∧ awaits w3 = awaits w2
    ∧ log w3 = log w2 ++ [Log INFO ("Skipping cleanup for workspace: " +:+ path_name p)].
Proof.
  intros Hoff Hcreate Hblock. eexists. split.
  - unfold isolated_workspace. rewrite Hcreate. cbn [truthy_path].
    unfold try_finally. rewrite Hblock.
    unfold cleanup_workspace. rewrite Hoff. cbn. reflexivity.
  - done.
Qed.

Lemma isolated_workspace_keeps_when_cleanup_disabled_witness :
  ∃ w3,
    isolated_workspace FixtureMore.cfg_keep FixtureWs.cwd0 FixtureWs.nothing_locked
      (FixtureWs.git_status 1) "test-agent" 0%N
      (λ _, mret FallThrough : M world (block_exit unit)) FixtureWs.w_empty
    = (Ok FallThrough, w3)
    ∧ fs_is_dir (fs w3) FixtureWs.ws_key = true
    ∧ active_workspaces w3 !! FixtureWs.ws_id = Some FixtureWs.ws_path.
Proof.
  destruct (isolated_workspace_keeps_when_cleanup_disabled FixtureMore.cfg_keep
              FixtureWs.cwd0 FixtureWs.nothing_locked (FixtureWs.git_status 1)
              "test-agent" 0%N (λ _, mret FallThrough : M world (block_exit unit))
              FixtureWs.w_empty FixtureWs.ws_path
              (snd (create_workspace FixtureMore.cfg_keep FixtureWs.cwd0
                      (FixtureWs.git_status 1) "test-agent" None 0%N FixtureWs.w_empty))
              (Ok FallThrough)
              (snd (create_workspace FixtureMore.cfg_keep FixtureWs.cwd0
                      (FixtureWs.git_status 1) "test-agent" None 0%N FixtureWs.w_empty))
              eq_refl)
    as (w3 & Hrun & Hfs & Hreg & _).
  - vm_compute. reflexivity.
  - reflexivity.
  - exists w3. split; [exact Hrun|]. rewrite Hfs, Hreg. split; vm_compute; reflexivity.
Defined.



(** X20.  [get_workspace_manager] builds the manager once.  While the
    module holds a manager the call changes nothing, so the registry
    survives.  The first call creates the base directory with its missing
    ancestors, keeps every existing file, and starts with an empty registry;
    when a regular file is in the way it raises, the module still holds no
    manager, and the next call tries again. *)
Theorem get_workspace_manager_builds_once cfg cwd st :
  let run := get_workspace_manager cfg cwd st in
  (_workspace_manager st = true → run = (Ok tt, st))
  ∧ (_workspace_manager st = false →
     match fst run with
     | Ok _ =>
         _workspace_manager (snd run) = true
         ∧ active_workspaces (mm_world (snd run)) = ∅
         ∧ fs_is_dir (fs (mm_world (snd run))) (resolve cwd (base_dir (workspace cfg))) = true
         ∧ (∀ k v, fs (mm_world st) !! k = Some v → fs (mm_world (snd run)) !! k = Some v)
         ∧ get_workspace_manager cfg cwd (snd run) = (Ok tt, snd run)
     | Raise e =>
         _workspace_manager (snd run) = false
         ∧ fs (mm_world (snd run)) = fs (mm_world st)
         ∧ mkdir_parents (fs (mm_world st)) (resolve cwd (base_dir (workspace cfg))) = inl e
     end).
Proof.
  intros run. subst run. unfold get_workspace_manager. split.
  - by intros ->.
  - intros ->.
    unfold WorkspaceManager_init, _ensure_base_dir, mkdir, lift_fs, mbind, M_bind, modify.
    cbn [fs set_registry].
    destruct (mkdir_parents (fs (mm_world st)) (resolve cwd (base_dir (workspace cfg))))
      as [e|m] eqn:Hmk; cbn; [done|].
    split; [done|]. split; [done|]. split; [|split; [|done]].
    + pose proof (mkdir_parents_dirs _ _ _
                    (length (resolve cwd (base_dir (workspace cfg)))) Hmk) as Hdir.
      by rewrite firstn_all in Hdir.
    + intros k v. by eapply mkdir_parents_keeps.
Qed.

Lemma get_workspace_manager_builds_once_witness :
  get_workspace_manager Fixture.cfg0 FixtureWs.cwd0
    {| _workspace_manager := true; mm_world := FixtureWs.w_temp |}
  = (Ok tt, {| _workspace_manager := true; mm_world := FixtureWs.w_temp |}).
Proof.
  exact (proj1 (get_workspace_manager_builds_once Fixture.cfg0 FixtureWs.cwd0
                  {| _workspace_manager := true; mm_world := FixtureWs.w_temp |}) eq_refl).
Defined.

(** X21.  An agent that [verify_agent_exists] reports is there for the
    workspace: when the agent name holds no slash, the user-level agent
    directory is a directory and no entry of the workspace's
    [.claude/agents] is a directory, then once
    [_setup_agent_definitions] has returned, [<agent_name>.md] is a regular
    file of [.claude/agents] in the workspace. *)
Theorem verified_agent_is_seeded cfg cwd agent_name ws w w' :
  plain_name (agent_name +:+ ".md") = true →
  fst (verify_agent_exists cfg cwd agent_name w) = Ok true →
  fs_is_dir (fs w) (resolve cwd (agent_dir cfg)) = true →
  (∀ n, fs w !! (resolve cwd ws ++ [".claude"; "agents"] ++ [n]) ≠ Some Dir) →
  _setup_agent_definitions cfg cwd ws w = (Ok tt, w') →
  fs_is_file (fs w') (resolve cwd ws ++ [".claude"; "agents"] ++ [agent_name +:+ ".md"]) = true.
Proof.
  intros Hplain Hverify Hdir Hfresh Hrun.
  unfold verify_agent_exists, path_exists, gets, mbind, M_bind in Hverify.
  destruct (fs_exists (fs w) (resolve cwd (agent_dir cfg // (agent_name +:+ ".md"))))
    eqn:Hex; cbn in Hverify; [|done].
  rewrite (resolve_div_plain _ _ _ Hplain) in Hex.
  unfold fs_exists in Hex. rewrite node_at_snoc in Hex.
  destruct (seeded_user_file cfg cwd ws w w' (agent_name +:+ ".md") Hrun Hfresh)
    as [c Hc].
  - apply endswith_app.
  - exact Hdir.
  - destruct (fs w !! (resolve cwd (agent_dir cfg) ++ [agent_name +:+ ".md"])); [by eexists|done].
  - unfold fs_is_file. rewrite app_assoc, node_at_snoc, <- app_assoc. by rewrite Hc.
Qed.

Lemma verified_agent_is_seeded_witness :
  fs_is_file
    (fs (snd (_setup_agent_definitions Fixture.cfg0 FixtureWs.cwd0 FixtureWs.ws_path
                FixtureWs.w_empty)))
    (FixtureWs.ws_key ++ [".claude"; "agents"; "bar.md"]) = true.
Proof.
  refine (verified_agent_is_seeded Fixture.cfg0 FixtureWs.cwd0 "bar" FixtureWs.ws_path
            FixtureWs.w_empty
            (snd (_setup_agent_definitions Fixture.cfg0 FixtureWs.cwd0 FixtureWs.ws_path
                    FixtureWs.w_empty)) eq_refl eq_refl eq_refl _ _).
  - intros n Hn.
    change (fs FixtureWs.w_empty !! ((FixtureWs.ws_key ++ [".claude"; "agents"]) ++ [n])
            = Some Dir) in Hn.
    apply elem_of_children in Hn. vm_compute in Hn. by apply elem_of_nil in Hn.
  - vm_compute. reflexivity.
Defined.



(** X23.  [_create_git_worktree] fails in two ways only: a git command
    could not be launched, and then that error reaches the caller
    unchanged; or [git worktree add] exited with a non-zero status, and then
    the error is [WorkspaceError] carrying git's stderr.  The branch it
    hands to git is never empty, and at most three commands are run. *)
Theorem create_git_worktree_errors cfg oracle workspace_id w :
  let run := _create_git_worktree cfg oracle workspace_id w in
  let add_cmd := λ branch, ["git"; "worktree"; "add"; "-b"; "research/" +:+ workspace_id;
                            path_str (base_dir (workspace cfg) // workspace_id); branch] in
  (awaits (snd run) ≤ awaits w + 3)%nat
  ∧ match fst run with
    | Ok p =>
        p = base_dir (workspace cfg) // workspace_id
        ∧ ∃ n branch out err,
            branch ≠ "" ∧ response (oracle n (add_cmd branch)) = CmdCompleted 0 out err
    | Raise e =>
        (∃ n cmd, response (oracle n cmd) = CmdRaises e)
        ∨ ∃ n branch rc out err,
            branch ≠ ""
            ∧ response (oracle n (add_cmd branch)) = CmdCompleted rc out err
            ∧ rc ≠ 0
            ∧ e = WorkspaceError ("Failed to create git worktree: " +:+ err)
    end.
Proof.
  intros run add_cmd. subst run.
  assert (∀ s, PyStr.or_str s "main" ≠ "") as Hbranch by (by intros [|??]).
  unfold _create_git_worktree, mbind, M_bind, _run_command, raise, mret, M_ret.
  destruct (response (oracle (awaits w) ["git"; "branch"; "--show-current"]))
    as [e1|rc1 out1 err1] eqn:H1; cbn [fst snd awaits cp_returncode cp_stdout cp_stderr].
  { split; [lia|]. left. by eexists _, _. }
  destruct (negb (rc1 =? 0)); cbn [fst snd awaits cp_returncode cp_stdout cp_stderr].
  - destruct (response (oracle (S (awaits w)) ["git"; "rev-parse"; "--abbrev-ref"; "HEAD"]))
      as [e2|rc2 out2 err2] eqn:H2; cbn [fst snd awaits cp_returncode cp_stdout cp_stderr].
    { split; [lia|]. left. by eexists _, _. }
    destruct (response (oracle (S (S (awaits w))) _)) as [e3|rc3 out3 err3] eqn:H3;
      cbn [fst snd awaits cp_returncode cp_stdout cp_stderr].
    { split; [lia|]. left. by eexists _, _. }
    destruct (Z.eqb_spec rc3 0) as [->|Hrc]; cbn [negb fst snd awaits].
    + split; [lia|]. split; [done|]. eexists _, _, _, _. split; [apply Hbranch|exact H3].
    + split; [lia|]. right. eexists _, _, _, _, _. split; [apply Hbranch|]. done.
  - destruct (response (oracle (S (awaits w)) _)) as [e3|rc3 out3 err3] eqn:H3;
      cbn [fst snd awaits cp_returncode cp_stdout cp_stderr].
    { split; [lia|]. left. by eexists _, _. }
    destruct (Z.eqb_spec rc3 0) as [->|Hrc]; cbn [negb fst snd awaits].
    + split; [lia|]. split; [done|]. eexists _, _, _, _. split; [apply Hbranch|exact H3].
    + split; [lia|]. right. eexists _, _, _, _, _. split; [apply Hbranch|]. done.
Qed.

(** git refuses to add the working tree. *)
Lemma create_git_worktree_errors_witness :
  ∃ n branch rc out err,
    branch ≠ ""
    ∧ response (FixtureWs.git_status 128 n
                  ["git"; "worktree"; "add"; "-b"; "research/" +:+ FixtureWs.ws_id;
                   path_str FixtureWs.ws_path; branch]) = CmdCompleted rc out err
    ∧ rc ≠ 0
    ∧ WorkspaceError "Failed to create git worktree: "
      = WorkspaceError ("Failed to create git worktree: " +:+ err).
Proof.
  destruct (proj2 (create_git_worktree_errors Fixture.cfg0 (FixtureWs.git_status 128)
                     FixtureWs.ws_id FixtureWs.w_empty)) as [(n & cmd & Hraise)|Hshape].
  - discriminate Hraise.
  - exact Hshape.
Defined.

(** * Further properties: [cleanup_all] and the global configuration *)

(** X24.  The [gather] of [cleanup_all] always comes to an end.  In every
    state an interleaving can reach, a coroutine that is not done can take
    a step, every step brings the coroutines closer to the end, and no
    interleaving takes more than three steps per registered workspace; the
    event loop that resumes the first unfinished coroutine is one such
    interleaving. *)
Theorem cleanup_all_always_finishes cfg cwd locked oracle w :
  cleanup_all cfg cwd locked oracle w (cleanup_all_in_order cfg cwd locked oracle w)
  ∧ ∀ st, ca_reachable cfg cwd locked oracle (cleanup_all_start w) st →
      (ca_gathered st = false → ∃ st', ca_step cfg cwd locked oracle st st')
      ∧ (∀ st', ca_step cfg cwd locked oracle st st' →
                (ca_remaining st' < ca_remaining st)%nat)
      ∧ (ca_remaining st ≤ 3 * size (active_workspaces w))%nat
      ∧ length (ca_tasks st) = size (active_workspaces w).
Proof.
  split; [apply cleanup_all_in_order_is_run|].
  intros st Hreach. split; [apply ca_progress|]. split.
  - intros st' [i Hi]. by eapply ca_advance_decreases.
  - by eapply ca_reachable_bounds.
Qed.

(** Two registered workspaces: at most six steps. *)
Lemma cleanup_all_always_finishes_witness :
  (ca_remaining
     (ca_run Fixture.cfg0 FixtureWs.cwd0 FixtureWs.nothing_locked FixtureWs.git_ok 1
        (cleanup_all_start FixtureMore.w_two)) ≤ 3 * 2)%nat.
Proof.
  refine (proj1 (proj2 (proj2 (proj2 (cleanup_all_always_finishes Fixture.cfg0 FixtureWs.cwd0
            FixtureWs.nothing_locked FixtureWs.git_ok FixtureMore.w_two) _ _)))).
  apply ca_run_reaches. constructor.
Defined.

(** X25.  [cleanup_all] raises only through its last command.  Errors of
    the single cleanups are collected by [gather]; with worktrees disabled
    the call returns; with worktrees enabled it raises exactly when
    [git worktree prune] cannot be launched, so without git it raises even
    when no workspace is registered. *)
Theorem cleanup_all_raises_only_from_prune cfg cwd locked oracle w out :
  cleanup_all cfg cwd locked oracle w out →
  (use_worktrees (workspace cfg) = false → fst out = Ok tt)
  ∧ (∀ e, fst out = Raise e →
          use_worktrees (workspace cfg) = true
          ∧ ∃ n, response (oracle n ["git"; "worktree"; "prune"]) = CmdRaises e)
  ∧ (∀ e, use_worktrees (workspace cfg) = true →
          (∀ n, response (oracle n ["git"; "worktree"; "prune"]) = CmdRaises e) →
          fst out = Raise e).
Proof.
  intros (st & _ & _ & ->). unfold cleanup_all_prune.
  destruct (use_worktrees (workspace cfg)).
  - unfold mbind, M_bind, _run_command.
    destruct (response (oracle (awaits (ca_world st)) ["git"; "worktree"; "prune"]))
      as [e0|rc out err] eqn:Hr; cbn.
    + split; [done|]. split.
      * intros e [= <-]. split; [done|]. by eexists.
      * intros e _ He. specialize (He (awaits (ca_world st))). congruence.
    + split; [done|]. split; [done|].
      intros e _ He. specialize (He (awaits (ca_world st))). congruence.
  - cbn. split; [done|]. split; done.
Qed.

(** Nothing is registered and git is missing. *)
Lemma cleanup_all_raises_only_from_prune_witness :
  fst (cleanup_all_in_order Fixture.cfg0 FixtureWs.cwd0 FixtureWs.nothing_locked
         FixtureWs.git_unlaunchable FixtureWs.w_empty)
  = Raise (OSError "OSError" "[Errno 24] Too many open files").
Proof.
  apply (proj2 (proj2 (cleanup_all_raises_only_from_prune Fixture.cfg0 FixtureWs.cwd0
                         FixtureWs.nothing_locked FixtureWs.git_unlaunchable
                         FixtureWs.w_empty _
                         (cleanup_all_in_order_is_run _ _ _ _ _)))).
  - reflexivity.
  - intros n. reflexivity.
Defined.

(** X26.  With cleanup-on-exit disabled [cleanup_all] removes nothing: in
    every interleaving the files and the registry are untouched and no
    coroutine has waited for a command when the [gather] ends; all that is
    left to run is [git worktree prune]. *)
Theorem cleanup_all_disabled_keeps_everything cfg cwd locked oracle w out :
  cleanup_on_exit (workspace cfg) = false →
  cleanup_all cfg cwd locked oracle w out →
  ∃ before_prune,
    out = cleanup_all_prune cfg oracle before_prune
    ∧ fs before_prune = fs w
    ∧ active_workspaces before_prune = active_workspaces w
    ∧ awaits before_prune = awaits w.
Proof.
  intros Hoff (st & Hreach & _ & ->).
  destruct (ca_disabled_inv cfg cwd locked oracle w st Hoff Hreach) as (Hf & Hr & Ha & _).
  by exists (ca_world st).
Qed.

Lemma cleanup_all_disabled_keeps_everything_witness :
  ∃ before_prune,
    cleanup_all_in_order FixtureMore.cfg_keep FixtureWs.cwd0 FixtureWs.nothing_locked
      FixtureWs.git_ok FixtureMore.w_two
    = cleanup_all_prune FixtureMore.cfg_keep FixtureWs.git_ok before_prune
    ∧ fs before_prune = fs FixtureMore.w_two
    ∧ active_workspaces before_prune = active_workspaces FixtureMore.w_two
    ∧ awaits before_prune = awaits FixtureMore.w_two.
Proof.
  exact (cleanup_all_disabled_keeps_everything FixtureMore.cfg_keep FixtureWs.cwd0
           FixtureWs.nothing_locked FixtureWs.git_ok FixtureMore.w_two _ eq_refl
           (cleanup_all_in_order_is_run _ _ _ _ _)).
Defined.



(** X28.  A [gather] of one coroutine is that coroutine: run to its end,
    the lone [cleanup_workspace] task leaves the world, and the result or
    error, that a direct call to [cleanup_workspace] gives. *)
Theorem gather_of_one_is_cleanup_workspace cfg cwd locked oracle p w :
  let st := ca_run cfg cwd locked oracle 3 {| ca_world := w; ca_tasks := [CtStart p] |} in
  ∃ r, ca_tasks st = [CtDone r]
       ∧ cleanup_workspace cfg cwd locked oracle p w = (r, ca_world st).
Proof.
  intros st. subst st.
  unfold cleanup_workspace, _remove_git_worktree.
  destruct (cleanup_on_exit (workspace cfg)) eqn:Hon.
  2: { gather_crunch. by eexists. }
  destruct (fs_exists (fs w) (resolve cwd (p // ".git"))
            && fs_is_file (fs w) (resolve cwd (p // ".git"))) eqn:Hwt.
  2: { gather_crunch. by eexists. }
  destruct (response (oracle (awaits w) (git_worktree_remove p))) as [e1|rc1 out1 err1] eqn:H1.
  { destruct (is_Exception e1) eqn:He1; gather_crunch; by eexists. }
  destruct (response (oracle (S (awaits w)) (git_branch_delete p))) as [e2|rc2 out2 err2] eqn:H2.
  { destruct (is_Exception e2) eqn:He2, (negb (rc1 =? 0)) eqn:Hrc; gather_crunch; by eexists. }
  destruct (negb (rc1 =? 0)) eqn:Hrc; gather_crunch; by eexists.
Qed.

(** A working tree whose removal git refuses and whose branch it deletes. *)
Lemma gather_of_one_is_cleanup_workspace_witness :
  ∃ r, cleanup_workspace Fixture.cfg0 FixtureWs.cwd0 FixtureWs.out_locked
         (FixtureWs.git_status 1) FixtureWs.ws_path FixtureWs.w_worktree
       = (r, ca_world (ca_run Fixture.cfg0 FixtureWs.cwd0 FixtureWs.out_locked
                         (FixtureWs.git_status 1) 3
                         {| ca_world := FixtureWs.w_worktree;
                            ca_tasks := [CtStart FixtureWs.ws_path] |})).
Proof.
  destruct (gather_of_one_is_cleanup_workspace Fixture.cfg0 FixtureWs.cwd0 FixtureWs.out_locked
              (FixtureWs.git_status 1) FixtureWs.ws_path FixtureWs.w_worktree)
    as (r & _ & Hrun).
  by exists r.
Defined.

(** * The global configuration: [src/core/config.py] *)

(** X29.  [set_config] stores a configuration only after it has passed
    [validate]: when it returns, the global holds the new configuration,
    the two numeric ranges hold, the CLI was found unless in dry-run mode,
    and the workspace, cache and log directories exist; when it raises, the
    global is what it was before. *)
Theorem set_config_stores_only_valid cwd which float_str c st :
  let run := set_config cwd which float_str c st in
  match fst run with
  | Ok _ =>
      _config (snd run) = Some c
      ∧ validate_max_concurrent (research c) = true
      ∧ validate_warning_threshold c = true
      ∧ (dry_run (research c) = false → which (cli_path (claude (research c))) = true)
      ∧ fs_is_dir (cm_fs (snd run)) (resolve cwd (base_dir (workspace (research c)))) = true
      ∧ fs_is_dir (cm_fs (snd run)) (resolve cwd (cache_dir c)) = true
      ∧ fs_is_dir (cm_fs (snd run)) (resolve cwd (log_dir c)) = true
  | Raise e => _config (snd run) = _config st
  end.
Proof.
  intros run. subst run. unfold set_config.
  pose proof (validate_config cwd which float_str c st) as Hkeep.
  destruct (validate cwd which float_str c st) as [[[]|e] st1] eqn:Hval.
  - rewrite (bind_run _ _ _ _ _ Hval). cbn.
    apply validate_Ok in Hval as (Hcli & Hmc & Hwt & D1 & D2 & D3 & _). done.
  - rewrite (bind_raise _ _ _ _ _ Hval). exact Hkeep.
Qed.

Lemma set_config_stores_only_valid_witness :
  _config (snd (set_config FixtureWs.cwd0 (λ _, true) FixtureMore.float_str0
                  FixtureMore.full_zero
                  {| _config := Some FixtureMore.full0;
                     cm_fs := list_to_map FixtureWs.host_files |}))
  = Some FixtureMore.full0.
Proof.
  exact (set_config_stores_only_valid FixtureWs.cwd0 (λ _, true) FixtureMore.float_str0
           FixtureMore.full_zero
           {| _config := Some FixtureMore.full0; cm_fs := list_to_map FixtureWs.host_files |}).
Defined.

(** X30.  [get_config] validates at most once, and stores before it
    validates.  While the global holds a configuration the call returns it
    and changes nothing.  On the first call the configuration built from
    the environment is stored and then validated: when validation raises,
    the error reaches the caller, but the global already holds that
    configuration, and every later call returns it without validating
    it. *)
Theorem get_config_stores_before_validating cwd which float_str from_env st :
  let run := get_config cwd which float_str from_env st in
  (∀ c, _config st = Some c → run = (Ok c, st))
  ∧ (_config st = None →
     match from_env with
     | inl e => run = (Raise e, st)
     | inr c =>
         _config (snd run) = Some c
         ∧ fst run = match fst (validate cwd which float_str c st) with
                     | Ok _ => Ok c
                     | Raise e => Raise e
                     end
         ∧ ∀ which' float_str' from_env',
             get_config cwd which' float_str' from_env' (snd run) = (Ok c, snd run)
     end).
Proof.
  intros run. subst run. unfold get_config. split.
  - by intros c ->.
  - intros ->. destruct from_env as [e|c]; [done|].
    pose proof (validate_config cwd which float_str c (set_global (Some c) st)) as Hkeep.
    assert (fst (validate cwd which float_str c (set_global (Some c) st))
            = fst (validate cwd which float_str c st)) as Hsame.
    { unfold validate, mbind, M_bind, raise, mret, M_ret, cm_mkdir. cbn [cm_fs set_global].
      repeat (case_match; simplify_eq/=); done. }
    unfold mbind, M_bind, mret, M_ret in *.
    destruct (validate cwd which float_str c (set_global (Some c) st)) as [[[]|e] st1];
      cbn [fst snd] in *; rewrite <- Hsame; (split; [done|]); (split; [done|]);
      intros which' float_str' from_env'; by rewrite Hkeep.
Qed.

(** [CLAUDE_MAX_CONCURRENT=0]: the first call raises, the second returns
    the configuration that failed. *)
Lemma get_config_stores_before_validating_witness :
  let first := get_config FixtureWs.cwd0 (λ _, true) FixtureMore.float_str0
                 (inr FixtureMore.full_zero) FixtureMore.cm_empty in
  fst first = Raise (ValueError "Invalid max_concurrent: 0")
  ∧ fst (get_config FixtureWs.cwd0 (λ _, true) FixtureMore.float_str0
           (inr FixtureMore.full_zero) (snd first)) = Ok FixtureMore.full_zero.
Proof.
  intros first.
  destruct (proj2 (get_config_stores_before_validating FixtureWs.cwd0 (λ _, true)
                     FixtureMore.float_str0 (inr FixtureMore.full_zero)
                     FixtureMore.cm_empty) eq_refl) as (_ & Hfirst & Hlater).
  split.
  - etrans; [exact Hfirst|]. vm_compute. reflexivity.
  - unfold first. by rewrite Hlater.
Defined.
